(** * genSTARK: proof serialization, size accounting and the composition polynomial

    A shallow embedding of
      - [lib/utils/sizeof.ts]            (size accounting of a proof),
      - [bin/lib/Serializer.js]          (proof wire format: writer and parser),
      - [CompositionPolynomial.js]       (degrees, constraint groups, coefficients,
                                          vector and scalar evaluation),
      - the trace-leaf codec [mergeValues] / [parseValues] of the evaluation
        serializer,
    together with the properties the specification states about them.

    Conventions.  JavaScript numbers that count things (lengths, offsets, sizes)
    are [nat]; numbers that are data (bytes, depths, bigints, degrees) are [Z].
    A Node [Buffer] is a fixed-length list of bytes; every write is in place and
    keeps the length.  A thrown exception is the [Throw] outcome of [result]. *)

From Stdlib Require Import String Ascii.
From Stdlib Require Import ZArith List Lia Bool Arith Permutation.
From Stdlib Require Import Sorted.
Import ListNotations.

(** ** Outcomes: a value or a thrown error *)

Inductive Error : Type :=
| ArrayZeroLength                       (* `Array cannot be zero-length` *)
| ArrayTooLong (n : nat)                (* `Array length (n) cannot exceed 256` *)
| MatrixTooManyColumns (n : nat)        (* `Matrix column count (n) cannot exceed 256` *)
| MatrixColumnTooLong (n : nat)         (* `Matrix column length (n) cannot exceed 127` *)
| RangeError                            (* Node: ERR_OUT_OF_RANGE / ERR_BUFFER_OUT_OF_BOUNDS *)
| TypeError                             (* an operation on undefined *)
| StarkError                            (* `Failed to evaluate transition constraints` *)
| SyntaxError.                          (* BigInt of a malformed literal *)

Inductive result (A : Type) : Type :=
| Ok (a : A)
| Throw (e : Error).

Arguments Ok {A} a.
Arguments Throw {A} e.

Definition bind {A B} (m : result A) (f : A -> result B) : result B :=
  match m with
  | Ok a => f a
  | Throw e => Throw e
  end.

Declare Scope js_scope.
Delimit Scope js_scope with js.
Notation "'let*' x ':=' m 'in' k" := (bind m (fun x => k))
  (at level 10, x pattern, m at level 100, k at level 200) : js_scope.
Open Scope js_scope.

Definition is_ok {A} (m : result A) : bool :=
  match m with Ok _ => true | Throw _ => false end.

Definition threw {A} (m : result A) : Prop := exists e, m = Throw e.

(** ** Buffers *)

Definition Buffer := list Z.

Definition sum_lengths (bs : list Buffer) : nat :=
  fold_right (fun b acc => length b + acc) 0 bs.

Definition sum_columns (matrix : list (list Buffer)) : nat :=
  fold_right (fun column acc => sum_lengths column + acc) 0 matrix.

(** ** Batch Merkle proofs (the shape read by [sizeOfMerkleProof]) *)

Module Merkle.
Record BatchMerkleProof : Type := mkProof {
  values : list Buffer;
  nodes  : list (list Buffer);
  depth  : Z
}.
End Merkle.
Import Merkle.

(** ** lib/utils/sizeof.ts *)

Module Sizeof.

Definition MAX_ARRAY_LENGTH : nat := 256.
Definition MAX_MATRIX_COLUMN_LENGTH : nat := 127.

(** [for (i = 0; i < array.length; i++) size += array[i].length] *)
Fixpoint add_lengths (size : nat) (array : list Buffer) : nat :=
  match array with
  | [] => size
  | b :: rest => add_lengths (size + length b) rest
  end.

Definition sizeOfArray (array : list Buffer) : result nat :=
  if length array =? 0 then Throw ArrayZeroLength
  else if MAX_ARRAY_LENGTH <? length array then Throw (ArrayTooLong (length array))
  else Ok (add_lengths 1 array).

(** The column loop of [sizeOfMatrix]: the guard is [columnLength >= 127]. *)
Fixpoint add_columns (size : nat) (matrix : list (list Buffer)) : result nat :=
  match matrix with
  | [] => Ok size
  | column :: rest =>
      let columnLength := length column in
      if MAX_MATRIX_COLUMN_LENGTH <=? columnLength
      then Throw (MatrixColumnTooLong columnLength)
      else add_columns (add_lengths size column) rest
  end.

Definition sizeOfMatrix (matrix : list (list Buffer)) : result nat :=
  if MAX_ARRAY_LENGTH <? length matrix
  then Throw (MatrixTooManyColumns (length matrix))
  else add_columns (1 + length matrix) matrix.

Definition sizeOfMerkleProof (proof : BatchMerkleProof) : result nat :=
  let size := 0 in
  let* a := sizeOfArray (values proof) in
  let size := size + a in
  let* m := sizeOfMatrix (nodes proof) in
  let size := size + m in
  let size := size + 1 in
  Ok size.

End Sizeof.

(** ** Node's Buffer primitives used by the serializers *)

Module NodeBuffer.

(** [Buffer.allocUnsafe(size)]: [size] bytes of uninitialised memory; [junk]
    is whatever the allocator hands out. *)
Definition allocUnsafe (junk : nat -> Z) (size : nat) : Buffer :=
  map junk (seq 0 size).

(** Overwrite [target] from index [start] with [data] (which must fit). *)
Definition splice (target : Buffer) (start : nat) (data : list Z) : Buffer :=
  firstn start target ++ data ++ skipn (start + length data) target.

(** [source.copy(target, targetStart, sourceStart, sourceEnd)]: the updated
    target and the number of bytes copied.  The copy is cut at the end of
    either buffer; only a [sourceStart] beyond the source is an error. *)
Definition copy (source target : Buffer) (targetStart sourceStart sourceEnd : nat)
  : result (Buffer * nat) :=
  if length source <? sourceStart then Throw RangeError
  else if (length target <=? targetStart) || (sourceEnd <=? sourceStart)
  then Ok (target, 0)
  else
    let nb := Nat.min (Nat.min (sourceEnd - sourceStart) (length target - targetStart))
                      (length source - sourceStart) in
    Ok (splice target targetStart (firstn nb (skipn sourceStart source)), nb).

(** [source.copy(target, targetStart)] *)
Definition copyTo (source target : Buffer) (targetStart : nat) : result (Buffer * nat) :=
  copy source target targetStart 0 (length source).

(** [buffer.writeUInt8(value, offset)]: returns the offset after the byte. *)
Definition writeUInt8 (buffer : Buffer) (value : Z) (offset : nat) : result (Buffer * nat) :=
  if (0 <=? value)%Z && (value <=? 255)%Z && (offset + 1 <=? length buffer)
  then Ok (splice buffer offset [value], offset + 1)
  else Throw RangeError.

Definition uint32le (value : Z) : list Z :=
  [ value mod 256; (value / 256) mod 256; (value / 65536) mod 256; (value / 16777216) mod 256 ]%Z.

(** [buffer.writeUInt32LE(value, offset)] *)
Definition writeUInt32LE (buffer : Buffer) (value : Z) (offset : nat) : result (Buffer * nat) :=
  if (0 <=? value)%Z && (value <=? 4294967295)%Z && (offset + 4 <=? length buffer)
  then Ok (splice buffer offset (uint32le value), offset + 4)
  else Throw RangeError.

(** [buffer.readUInt8(offset)] *)
Definition readUInt8 (buffer : Buffer) (offset : nat) : result Z :=
  match nth_error buffer offset with
  | Some b => Ok b
  | None => Throw RangeError
  end.

(** [buffer.readUInt32LE(offset)] *)
Definition readUInt32LE (buffer : Buffer) (offset : nat) : result Z :=
  match firstn 4 (skipn offset buffer) with
  | [b0; b1; b2; b3] => Ok (b0 + 256 * b1 + 65536 * b2 + 16777216 * b3)%Z
  | _ => Throw RangeError
  end.

(** [for (let x of xs) { (buffer, offset) = body(x, buffer, offset) }] *)
Fixpoint for_of {A} (xs : list A) (body : A -> Buffer -> nat -> result (Buffer * nat))
  (buffer : Buffer) (offset : nat) : result (Buffer * nat) :=
  match xs with
  | [] => Ok (buffer, offset)
  | x :: rest =>
      let* (buffer, offset) := body x buffer offset in
      for_of rest body buffer offset
  end.

(** [for (i = 0; i < count; i++) { out[i], offset = body(offset) }] : the
    array filled in index order and the final offset. *)
Fixpoint for_count {A} (count : nat) (body : nat -> result (A * nat)) (offset : nat)
  : result (list A * nat) :=
  match count with
  | O => Ok ([], offset)
  | S n =>
      let* (x, offset) := body offset in
      let* (xs, offset) := for_count n body offset in
      Ok (x :: xs, offset)
  end.

End NodeBuffer.
Import NodeBuffer.

(** ** Proof objects, as [Serializer.serializeProof] reads them and
    [Serializer.parseProof] builds them *)

Record FriComponent : Type := mkComponent {
  columnRoot  : Buffer;
  columnProof : BatchMerkleProof;
  polyProof   : BatchMerkleProof
}.

Record LowDegreeProof : Type := mkLdProof {
  lcRoot     : Buffer;
  lcProof    : BatchMerkleProof;
  components : list FriComponent;
  remainder  : list Z
}.

Record StarkProof : Type := mkStarkProof {
  evRoot     : Buffer;
  evProof    : BatchMerkleProof;
  ldProof    : LowDegreeProof;
  traceShape : list Z
}.

(** ** [sizeOf] of [lib/utils/sizeof.ts]

    The [sizeOf] of [sizeof.ts] takes the proof and the digest size.  It reads
    a proof that carries the queried leaves in [values], keeps the two roots
    inside [evProof] and [lcProof], and holds the remainder as an array of
    buffers. *)

Module SizeofProof.
Import Sizeof.

Record RootedProof : Type := mkRooted {
  root  : Buffer;
  nodes : list (list Buffer);
  depth : Z
}.

Record LowDegreeProof : Type := mkLdProof {
  components : list FriComponent;
  remainder  : list Buffer
}.

Record StarkProof : Type := mkStarkProof {
  values  : list Buffer;
  evProof : RootedProof;
  lcProof : RootedProof;
  ldProof : LowDegreeProof
}.

(** [{ levels: ldLevels, total: ldProof }] *)
Record LdSize : Type := mkLdSize {
  levels   : list nat;
  ld_total : nat
}.

(** [{ evData, evProof, lcProof, ldProof: {..}, total: size }] *)
Record ProofSize : Type := mkSize {
  size_evData  : nat;
  size_evProof : nat;
  size_lcProof : nat;
  size_ldProof : LdSize;
  total        : nat
}.

(** The loop over [proof.ldProof.components]. *)
Fixpoint add_levels (ldSize : nat) (ldLevels : list nat) (hashDigestSize : nat)
  (cs : list FriComponent) : result (nat * list nat) :=
  match cs with
  | [] => Ok (ldSize, ldLevels)
  | component :: rest =>
      let ldLevel := hashDigestSize in
      let* c := sizeOfMerkleProof (columnProof component) in
      let ldLevel := ldLevel + c in
      let* p := sizeOfMerkleProof (polyProof component) in
      let ldLevel := ldLevel + p in
      add_levels (ldSize + ldLevel) (ldLevels ++ [ldLevel]) hashDigestSize rest
  end.

(** [sizeOf(proof, hashDigestSize)].  The loop over [proof.values] adds
    [value.byteLength] for each leaf and has no guard of its own. *)
Definition sizeOf (proof : StarkProof) (hashDigestSize : nat) : result ProofSize :=
  let size := 0 in
  let evData := add_lengths 1 (values proof) in
  let size := size + evData in
  let evSize := hashDigestSize in
  let* m := sizeOfMatrix (nodes (evProof proof)) in
  let evSize := evSize + m in
  let evSize := evSize + 1 in
  let size := size + evSize in
  let lcSize := hashDigestSize in
  let* m := sizeOfMatrix (nodes (lcProof proof)) in
  let lcSize := lcSize + m in
  let lcSize := lcSize + 1 in
  let size := size + lcSize in
  let* (ldSize, ldLevels) :=
    add_levels 1 [] hashDigestSize (components (ldProof proof)) in
  let* ldRemainder := sizeOfArray (remainder (ldProof proof)) in
  let ldLevels := ldLevels ++ [ldRemainder] in
  let ldSize := ldSize + ldRemainder in
  let size := size + ldSize in
  Ok (mkSize evData evSize lcSize (mkLdSize ldLevels ldSize) size).

End SizeofProof.

(** ** The helpers of [./utils] that the serializer calls

    Only [sizeof.ts] of the utilities is available; the byte-level helpers and
    the three-argument [sizeOf] are written here after the wire format of the
    specification (section 6.4); Merkle proofs are sized by the
    [sizeOfMerkleProof] of [sizeof.ts]. *)

Module Utils.

Import Sizeof.

(** Modelled from the spec: [utils.writeArray], the writer of a
    "values array [1-byte count | elements]".  Arrays hold 1 to 256 entries
    ([sizeOfArray]), so the count byte follows the convention the wire format
    states for the remainder: 0 encodes 256. *)
Definition writeArray (buffer : Buffer) (offset : nat) (array : list Buffer)
  : result (Buffer * nat) :=
  let count := if length array =? MAX_ARRAY_LENGTH then 0%Z else Z.of_nat (length array) in
  let* (buffer, offset) := writeUInt8 buffer count offset in
  for_of array
    (fun element buffer offset =>
       let* (buffer, n) := copyTo element buffer offset in
       Ok (buffer, offset + n))
    buffer offset.

(** One element of [elementSize] bytes, read the way [parseProof] reads a
    root: a fresh buffer filled by [buffer.copy]. *)
Definition readElement (junk : nat -> Z) (buffer : Buffer) (elementSize : nat) (offset : nat)
  : result (Buffer * nat) :=
  let element := allocUnsafe junk elementSize in
  let* (element, n) := copy buffer element 0 offset (offset + elementSize) in
  Ok (element, offset + n).

(** Modelled from the spec: [utils.readArray], the reader of a values array. *)
Definition readArray (junk : nat -> Z) (buffer : Buffer) (offset : nat) (elementSize : nat)
  : result (list Buffer * nat) :=
  let* count := readUInt8 buffer offset in
  let arrayLength := if (count =? 0)%Z then MAX_ARRAY_LENGTH else Z.to_nat count in
  let offset := offset + 1 in
  for_count arrayLength (readElement junk buffer elementSize) offset.

(** Modelled from the spec: [utils.writeMatrix], the writer of a
    "nodes matrix [1-byte col count | per-column 1-byte length | elements]". *)
Definition writeMatrix (buffer : Buffer) (offset : nat) (matrix : list (list Buffer))
  : result (Buffer * nat) :=
  let* (buffer, offset) := writeUInt8 buffer (Z.of_nat (length matrix)) offset in
  let* (buffer, offset) :=
    for_of matrix
      (fun column buffer offset => writeUInt8 buffer (Z.of_nat (length column)) offset)
      buffer offset in
  for_of matrix
    (fun column buffer offset =>
       for_of column
         (fun element buffer offset =>
            let* (buffer, n) := copyTo element buffer offset in
            Ok (buffer, offset + n))
         buffer offset)
    buffer offset.

(** The column lengths of a matrix, one byte each. *)
Definition readColumnLength (buffer : Buffer) (offset : nat) : result (nat * nat) :=
  let* len := readUInt8 buffer offset in
  Ok (Z.to_nat len, offset + 1).

(** The columns of a matrix, given their lengths. *)
Fixpoint readColumns (junk : nat -> Z) (buffer : Buffer) (elementSize : nat)
  (lengths : list nat) (offset : nat) : result (list (list Buffer) * nat) :=
  match lengths with
  | [] => Ok ([], offset)
  | len :: rest =>
      let* (column, offset) := for_count len (readElement junk buffer elementSize) offset in
      let* (columns, offset) := readColumns junk buffer elementSize rest offset in
      Ok (column :: columns, offset)
  end.

(** Modelled from the spec: [utils.readMatrix], the reader of a nodes matrix. *)
Definition readMatrix (junk : nat -> Z) (buffer : Buffer) (offset : nat) (elementSize : nat)
  : result (list (list Buffer) * nat) :=
  let* count := readUInt8 buffer offset in
  let offset := offset + 1 in
  let* (lengths, offset) := for_count (Z.to_nat count) (readColumnLength buffer) offset in
  readColumns junk buffer elementSize lengths offset.

(** Modelled from the spec: [utils.writeMerkleProof], the writer of a
    "batched Merkle proof (values array, nodes matrix, 1-byte depth)".  The
    elements are copied whole; [leafSize] is what the reader will use. *)
Definition writeMerkleProof (buffer : Buffer) (offset : nat) (proof : BatchMerkleProof)
  (leafSize : nat) : result (Buffer * nat) :=
  let* (buffer, offset) := writeArray buffer offset (values proof) in
  let* (buffer, offset) := writeMatrix buffer offset (nodes proof) in
  writeUInt8 buffer (depth proof) offset.

(** Modelled from the spec: [utils.readMerkleProof], the reader of a batched
    Merkle proof with leaves of [leafSize] bytes and nodes of
    [hashDigestSize] bytes. *)
Definition readMerkleProof (junk : nat -> Z) (buffer : Buffer) (offset : nat)
  (leafSize hashDigestSize : nat) : result (BatchMerkleProof * nat) :=
  let* (vals, offset) := readArray junk buffer offset leafSize in
  let* (nds, offset) := readMatrix junk buffer offset hashDigestSize in
  let* d := readUInt8 buffer offset in
  Ok (mkProof vals nds d, offset + 1).

(** The [elementSize] low-order bytes of [value], least significant first. *)
Fixpoint le_bytes (elementSize : nat) (value : Z) : list Z :=
  match elementSize with
  | O => []
  | S n => (value mod 256)%Z :: le_bytes n (value / 256)%Z
  end.

Fixpoint le_value (bytes : list Z) : Z :=
  match bytes with
  | [] => 0%Z
  | b :: rest => (b + 256 * le_value rest)%Z
  end.

(** Modelled from the spec: [utils.writeBigInt], the writer of one field
    element of the remainder: a fixed-width integer of [elementSize] bytes,
    little-endian like every integer of the wire format. *)
Definition writeBigInt (value : Z) (buffer : Buffer) (offset : nat) (elementSize : nat)
  : result (Buffer * nat) :=
  if offset + elementSize <=? length buffer
  then Ok (splice buffer offset (le_bytes elementSize value), offset + elementSize)
  else Throw RangeError.

(** Modelled from the spec: [utils.readBigInt], the reader of one field
    element of the remainder. *)
Definition readBigInt (buffer : Buffer) (offset : nat) (elementSize : nat) : result Z :=
  if offset + elementSize <=? length buffer
  then Ok (le_value (firstn elementSize (skipn offset buffer)))
  else Throw RangeError.

Record ProofSize : Type := mkSize {
  size_evProof    : nat;
  size_ldProof    : nat;
  size_traceShape : nat;
  total           : nat
}.

(** [for (component of components) ldProof += hashDigestSize + ... ] *)
Fixpoint add_components (ldSize : nat) (hashDigestSize : nat) (cs : list FriComponent)
  : result nat :=
  match cs with
  | [] => Ok ldSize
  | component :: rest =>
      let ldLevel := hashDigestSize in
      let* c := sizeOfMerkleProof (columnProof component) in
      let ldLevel := ldLevel + c in
      let* p := sizeOfMerkleProof (polyProof component) in
      let ldLevel := ldLevel + p in
      add_components (ldSize + ldLevel) hashDigestSize rest
  end.

(** Modelled from the spec: the three-argument [utils.sizeOf] that
    [Serializer.serializeProof] calls ([sizeof.ts] holds the [sizeOf] of an
    earlier proof layout).  The total adds up the wire format item by item:
    roots of [hashDigestSize] bytes, Merkle proofs sized by [sizeOfMerkleProof],
    one byte for the component count, the remainder as one length byte and
    [fieldElementSize] bytes per element under the limit of 256 entries
    (section 6.4: arrays of more than 256 entries are rejected), and the trace
    shape as one byte plus four bytes per level.  Nothing rejects an empty
    remainder. *)
Definition sizeOf (proof : StarkProof) (fieldElementSize hashDigestSize : nat)
  : result ProofSize :=
  let size := hashDigestSize in
  let* evSize := sizeOfMerkleProof (evProof proof) in
  let size := size + evSize in
  let ldSize := hashDigestSize in
  let* lc := sizeOfMerkleProof (lcProof (ldProof proof)) in
  let ldSize := ldSize + lc in
  let ldSize := ldSize + 1 in
  let* ldSize := add_components ldSize hashDigestSize (components (ldProof proof)) in
  let array := remainder (ldProof proof) in
  let* ldRemainder :=
    if MAX_ARRAY_LENGTH <? length array then Throw (ArrayTooLong (length array))
    else Ok (1 + length array * fieldElementSize) in
  let ldSize := ldSize + ldRemainder in
  let size := size + ldSize in
  let shapeSize := 1 + 4 * length (traceShape proof) in
  let size := size + shapeSize in
  Ok (mkSize evSize ldSize shapeSize size).

End Utils.

(** ** bin/lib/Serializer.js *)

Module Serializer.

Record Serializer : Type := mkSerializer {
  fieldElementSize : nat;
  stateWidth       : nat;
  iRegisterCount   : nat;
  sRegisterCount   : nat;
  hashDigestSize   : nat
}.

Definition getValueCount (this : Serializer) : nat :=
  stateWidth this + sRegisterCount this + iRegisterCount this.

(** The body of [for (let component of proof.ldProof.components)]. *)
Definition writeComponent (ldLeafSize : nat) (component : FriComponent)
  (buffer : Buffer) (offset : nat) : result (Buffer * nat) :=
  let* (buffer, n) := copyTo (columnRoot component) buffer offset in
  let offset := offset + n in
  let* (buffer, offset) :=
    Utils.writeMerkleProof buffer offset (columnProof component) ldLeafSize in
  Utils.writeMerkleProof buffer offset (polyProof component) ldLeafSize.

(** The remainder block of [serializeProof]: "for remainder array length,
    zero means 256". *)
Definition writeRemainder (this : Serializer) (remainder : list Z)
  (buffer : Buffer) (offset : nat) : result (Buffer * nat) :=
  let remainderLength :=
    if length remainder =? 256 then 0%Z else Z.of_nat (length remainder) in
  let* (buffer, offset) := writeUInt8 buffer remainderLength offset in
  for_of remainder
    (fun value buffer offset => Utils.writeBigInt value buffer offset (fieldElementSize this))
    buffer offset.

(** The trace shape block of [serializeProof]. *)
Definition writeTraceShape (traceShape : list Z) (buffer : Buffer) (offset : nat)
  : result (Buffer * nat) :=
  let* (buffer, offset) := writeUInt8 buffer (Z.of_nat (length traceShape)) offset in
  for_of traceShape (fun level buffer offset => writeUInt32LE buffer level offset)
    buffer offset.

Definition serializeProof (this : Serializer) (junk : nat -> Z) (proof : StarkProof)
  : result Buffer :=
  let* size := Utils.sizeOf proof (fieldElementSize this) (hashDigestSize this) in
  let buffer := allocUnsafe junk (Utils.total size) in
  (* root *)
  let* (buffer, offset) := copyTo (evRoot proof) buffer 0 in
  (* evProof *)
  let evLeafSize := getValueCount this * fieldElementSize this in
  let* (buffer, offset) := Utils.writeMerkleProof buffer offset (evProof proof) evLeafSize in
  (* ldProof *)
  let ldLeafSize := fieldElementSize this * 4 in
  let* (buffer, n) := copyTo (lcRoot (ldProof proof)) buffer offset in
  let offset := offset + n in
  let* (buffer, offset) :=
    Utils.writeMerkleProof buffer offset (lcProof (ldProof proof)) ldLeafSize in
  let* (buffer, offset) :=
    writeUInt8 buffer (Z.of_nat (length (components (ldProof proof)))) offset in
  let* (buffer, offset) :=
    for_of (components (ldProof proof)) (writeComponent ldLeafSize) buffer offset in
  (* for remainder array length, zero means 256 *)
  let* (buffer, offset) := writeRemainder this (remainder (ldProof proof)) buffer offset in
  (* trace shape *)
  let* (buffer, offset) := writeTraceShape (traceShape proof) buffer offset in
  (* return the buffer *)
  Ok buffer.

(** The body of [for (let i = 0; i < componentCount; i++)]. *)
Definition readComponent (this : Serializer) (junk : nat -> Z) (buffer : Buffer)
  (ldLeafSize : nat) (offset : nat) : result (FriComponent * nat) :=
  let columnRoot := allocUnsafe junk (hashDigestSize this) in
  let* (columnRoot, n) := copy buffer columnRoot 0 offset (offset + hashDigestSize this) in
  let offset := offset + n in
  let* (columnProofInfo, offset) :=
    Utils.readMerkleProof junk buffer offset ldLeafSize (hashDigestSize this) in
  let* (polyProofInfo, offset) :=
    Utils.readMerkleProof junk buffer offset ldLeafSize (hashDigestSize this) in
  Ok (mkComponent columnRoot columnProofInfo polyProofInfo, offset).

(** The remainder block of [parseProof]:
    [buffer.readUInt8(offset) || MAX_ARRAY_LENGTH]. *)
Definition readRemainder (this : Serializer) (buffer : Buffer) (offset : nat)
  : result (list Z * nat) :=
  let* b := readUInt8 buffer offset in
  let friRemainderLength := if (b =? 0)%Z then Sizeof.MAX_ARRAY_LENGTH else Z.to_nat b in
  let offset := offset + 1 in
  for_count friRemainderLength
    (fun offset =>
       let* value := Utils.readBigInt buffer offset (fieldElementSize this) in
       Ok (value, offset + fieldElementSize this))
    offset.

(** The trace shape block of [parseProof]. *)
Definition readTraceShape (buffer : Buffer) (offset : nat) : result (list Z * nat) :=
  let* traceDepth := readUInt8 buffer offset in
  let offset := offset + 1 in
  for_count (Z.to_nat traceDepth)
    (fun offset =>
       let* level := readUInt32LE buffer offset in
       Ok (level, offset + 4))
    offset.

Definition parseProof (this : Serializer) (junk : nat -> Z) (buffer : Buffer)
  : result StarkProof :=
  (* root *)
  let evRoot := allocUnsafe junk (hashDigestSize this) in
  let* (evRoot, offset) := copy buffer evRoot 0 0 (hashDigestSize this) in
  (* evProof *)
  let evLeafSize := getValueCount this * fieldElementSize this in
  let* (evProof, offset) :=
    Utils.readMerkleProof junk buffer offset evLeafSize (hashDigestSize this) in
  (* ldProof *)
  let ldLeafSize := fieldElementSize this * 4 in
  let lcRoot := allocUnsafe junk (hashDigestSize this) in
  let* (lcRoot, n) := copy buffer lcRoot 0 offset (offset + hashDigestSize this) in
  let offset := offset + n in
  let* (lcProof, offset) :=
    Utils.readMerkleProof junk buffer offset ldLeafSize (hashDigestSize this) in
  let* componentCount := readUInt8 buffer offset in
  let offset := offset + 1 in
  let* (friComponents, offset) :=
    for_count (Z.to_nat componentCount) (readComponent this junk buffer ldLeafSize) offset in
  (* for remainder array length, zero means 256 *)
  let* (friRemainder, offset) := readRemainder this buffer offset in
  (* trace shape *)
  let* (traceShape, offset) := readTraceShape buffer offset in
  (* build and return the proof *)
  Ok (mkStarkProof evRoot evProof
        (mkLdProof lcRoot lcProof friComponents friRemainder)
        traceShape).

End Serializer.

(** ** The wire format as a byte string (specification side) *)

Module Wire.

Definition count_byte (n : nat) : Z :=
  if n =? 256 then 0%Z else Z.of_nat n.

Definition enc_array (array : list Buffer) : list Z :=
  count_byte (length array) :: concat array.

Definition enc_matrix (matrix : list (list Buffer)) : list Z :=
  Z.of_nat (length matrix)
    :: map (fun column => Z.of_nat (length column)) matrix
    ++ concat (map (@concat Z) matrix).

Definition enc_merkle (proof : BatchMerkleProof) : list Z :=
  enc_array (values proof) ++ enc_matrix (nodes proof) ++ [depth proof].

Definition enc_component (component : FriComponent) : list Z :=
  columnRoot component
    ++ enc_merkle (columnProof component)
    ++ enc_merkle (polyProof component).

Definition enc_remainder (fieldElementSize : nat) (remainder : list Z) : list Z :=
  count_byte (length remainder)
    :: flat_map (Utils.le_bytes fieldElementSize) remainder.

Definition enc_shape (traceShape : list Z) : list Z :=
  Z.of_nat (length traceShape) :: flat_map uint32le traceShape.

(** Everything that precedes the remainder length byte. *)
Definition enc_head (proof : StarkProof) : list Z :=
  evRoot proof
    ++ enc_merkle (evProof proof)
    ++ lcRoot (ldProof proof)
    ++ enc_merkle (lcProof (ldProof proof))
    ++ Z.of_nat (length (components (ldProof proof)))
       :: flat_map enc_component (components (ldProof proof)).

Definition enc_proof (fieldElementSize : nat) (proof : StarkProof) : list Z :=
  enc_head proof
    ++ enc_remainder fieldElementSize (remainder (ldProof proof))
    ++ enc_shape (traceShape proof).

(** Sizes that the parser takes from its configuration rather than from the
    bytes: leaves, nodes and roots. *)
Definition sized_merkle (leafSize hashDigestSize : nat) (proof : BatchMerkleProof) : Prop :=
  Forall (fun leaf => length leaf = leafSize) (values proof)
  /\ Forall (Forall (fun node => length node = hashDigestSize)) (nodes proof).

Definition sized_component (ldLeafSize hashDigestSize : nat) (c : FriComponent) : Prop :=
  length (columnRoot c) = hashDigestSize
  /\ sized_merkle ldLeafSize hashDigestSize (columnProof c)
  /\ sized_merkle ldLeafSize hashDigestSize (polyProof c).

(** A proof of the configuration [this]: digests have [hashDigestSize] bytes,
    trace leaves hold [getValueCount] field elements, composition leaves hold
    four, and the remainder holds field elements of [fieldElementSize] bytes. *)
Definition sized (this : Serializer.Serializer) (proof : StarkProof) : Prop :=
  let fes := Serializer.fieldElementSize this in
  let hds := Serializer.hashDigestSize this in
  length (evRoot proof) = hds
  /\ sized_merkle (Serializer.getValueCount this * fes) hds (evProof proof)
  /\ length (lcRoot (ldProof proof)) = hds
  /\ sized_merkle (fes * 4) hds (lcProof (ldProof proof))
  /\ Forall (sized_component (fes * 4) hds) (components (ldProof proof))
  /\ Forall (fun v => (0 <= v < 256 ^ Z.of_nat fes)%Z) (remainder (ldProof proof)).

(** What the one-byte and four-byte fields of the wire format can hold,
    beyond what size computation checks. *)
Definition fits_merkle (proof : BatchMerkleProof) : Prop :=
  length (nodes proof) <= 255 /\ (0 <= depth proof <= 255)%Z.

Definition fits (proof : StarkProof) : Prop :=
  fits_merkle (evProof proof)
  /\ fits_merkle (lcProof (ldProof proof))
  /\ length (components (ldProof proof)) <= 255
  /\ Forall (fun c => fits_merkle (columnProof c) /\ fits_merkle (polyProof c))
        (components (ldProof proof))
  /\ length (traceShape proof) <= 255
  /\ Forall (fun level => (0 <= level <= 4294967295)%Z) (traceShape proof).

Definition roots_sized (hashDigestSize : nat) (proof : StarkProof) : Prop :=
  length (evRoot proof) = hashDigestSize
  /\ length (lcRoot (ldProof proof)) = hashDigestSize
  /\ Forall (fun c => length (columnRoot c) = hashDigestSize) (components (ldProof proof)).


(** What size computation checks. *)
Definition sizable_merkle (proof : BatchMerkleProof) : Prop :=
  1 <= length (values proof) <= 256
  /\ length (nodes proof) <= 256
  /\ Forall (fun column => length column <= 126) (nodes proof).

Definition sizable (proof : StarkProof) : Prop :=
  sizable_merkle (evProof proof)
  /\ sizable_merkle (lcProof (ldProof proof))
  /\ Forall (fun c => sizable_merkle (columnProof c) /\ sizable_merkle (polyProof c))
        (components (ldProof proof))
  /\ length (remainder (ldProof proof)) <= 256.

(** The size of the wire format when every digest has [hashDigestSize] bytes. *)
Definition components_size (hashDigestSize : nat) (cs : list FriComponent) : nat :=
  fold_right
    (fun c acc =>
       hashDigestSize + length (enc_merkle (columnProof c))
       + length (enc_merkle (polyProof c)) + acc)
    0 cs.

Definition wire_size (fieldElementSize hashDigestSize : nat) (proof : StarkProof) : nat :=
  hashDigestSize
  + length (enc_merkle (evProof proof))
  + (hashDigestSize
     + length (enc_merkle (lcProof (ldProof proof)))
     + 1
     + components_size hashDigestSize (components (ldProof proof))
     + (1 + length (remainder (ldProof proof)) * fieldElementSize))
  + (1 + 4 * length (traceShape proof)).

End Wire.

(** ** What it means for a routine to write, or to read, a byte string *)

Module InPlace.

(** [W] writes exactly the bytes [d] at the offset it is given and returns
    the offset after them. *)
Definition writes (W : Buffer -> nat -> result (Buffer * nat)) (d : list Z) : Prop :=
  forall buf off, off + length d <= length buf ->
    W buf off = Ok (splice buf off d, off + length d).

(** [W] never changes the length of the buffer it writes into. *)
Definition keeps (W : Buffer -> nat -> result (Buffer * nat)) : Prop :=
  forall b o b' o', W b o = Ok (b', o') -> length b' = length b.

(** The [n] bytes of [buf] from offset [off]. *)
Definition window (buf : Buffer) (off n : nat) : list Z :=
  firstn n (skipn off buf).

(** [R] reads the value [a] from the bytes [d] found at the offset it is
    given and returns the offset after them. *)
Definition reads {A} (R : Buffer -> nat -> result (A * nat)) (d : list Z) (a : A) : Prop :=
  forall buf off, off + length d <= length buf -> window buf off (length d) = d ->
    R buf off = Ok (a, off + length d).

End InPlace.
Import InPlace.

(** ** A small configuration and proof, used to run the definitions *)

Module Example.
Import Serializer.

(** Two-byte field elements and two-byte digests; one mutable register. *)
Definition serializer : Serializer := mkSerializer 2 1 0 0 2.

Definition evMerkle : BatchMerkleProof := mkProof [[3; 4]%Z] [[[5; 6]%Z]] 1.
Definition ldMerkle : BatchMerkleProof := mkProof [[1; 2; 3; 4; 5; 6; 7; 8]%Z] [[]] 2.
Definition component : FriComponent := mkComponent [9; 10]%Z ldMerkle ldMerkle.

Definition proof : StarkProof :=
  mkStarkProof [1; 2]%Z evMerkle
    (mkLdProof [7; 8]%Z ldMerkle [component] [258; 3]%Z)
    [1; 70000]%Z.

Definition bytes : Buffer :=
  [1; 2; 1; 3; 4; 1; 1; 5; 6; 1; 7; 8; 1; 1; 2; 3; 4; 5; 6; 7; 8; 1;
   0; 2; 1; 9; 10; 1; 1; 2; 3; 4; 5; 6; 7; 8; 1; 0; 2; 1; 1; 2; 3; 4;
   5; 6; 7; 8; 1; 0; 2; 2; 2; 1; 3; 0; 2; 1; 0; 0; 0; 112; 17; 1; 0]%Z.

(** Three fillings of uninitialised memory. *)
Definition junk0 : nat -> Z := fun _ => 170%Z.
Definition junk1 : nat -> Z := fun i => Z.of_nat i.
Definition junk2 : nat -> Z := fun _ => 0%Z.

(** The same proof with a remainder of 256 elements. *)
Definition proof256 : StarkProof :=
  mkStarkProof [1; 2]%Z evMerkle
    (mkLdProof [7; 8]%Z ldMerkle [] (repeat 7%Z 256))
    [].



(** The same proof with a one-byte root where the configuration has two. *)
Definition proof_short_root : StarkProof :=
  mkStarkProof [1]%Z evMerkle
    (mkLdProof [7; 8]%Z ldMerkle [component] [258; 3]%Z)
    [1; 70000]%Z.

End Example.

(** ** CompositionPolynomial.js: degrees and constraint groups *)

Module Constraint.
(** A declared transition constraint; only its [degree] is read here. *)
Record t : Type := mk { degree : Z }.
End Constraint.

Module Group.
(** An element [{ degree, indexes }] of [constraintGroups]. *)
Record t : Type := mk { degree : Z; indexes : list nat }.
End Group.

(** A JavaScript [Map] from numbers to arrays of indexes: the entries in
    insertion order.  The arrays are shared with the map, so a [push] on a
    group is an update of the entry. *)
Module JsMap.

Definition t : Type := list (Z * list nat).

Fixpoint get (m : t) (key : Z) : option (list nat) :=
  match m with
  | [] => None
  | (k, v) :: rest => if (k =? key)%Z then Some v else get rest key
  end.

(** [set] of a key that is not in the map: a new last entry. *)
Definition set_new (m : t) (key : Z) (value : list nat) : t := m ++ [(key, value)].

(** [group.push(i)] for the array [group] stored under [key]. *)
Fixpoint push (m : t) (key : Z) (i : nat) : t :=
  match m with
  | [] => []
  | (k, v) :: rest =>
      if (k =? key)%Z then (k, v ++ [i]) :: rest else (k, v) :: push rest key i
  end.

End JsMap.

Module Degrees.

(** The loop of [getCombinationDegree]. *)
Fixpoint max_degree_loop (maxConstraintDegree : Z) (constraints : list Constraint.t) : Z :=
  match constraints with
  | [] => maxConstraintDegree
  | constraint :: rest =>
      if (maxConstraintDegree <? Constraint.degree constraint)%Z
      then max_degree_loop (Constraint.degree constraint) rest
      else max_degree_loop maxConstraintDegree rest
  end.

(** [2 ** Math.ceil(Math.log2(maxConstraintDegree)) * traceLength].  The
    maximum is at least 1, and [Math.ceil(Math.log2 n)] is taken at its
    mathematical value, [Z.log2_up n].  That is the value the code computes
    at the powers of two and for the declared degrees of the specification
    (section 3: integers from 1, with a composition factor of at most 16); in
    double precision [Math.log2] rounds, and for a large degree just above a
    power of two its ceiling falls short of [Z.log2_up].  The theorems that
    state the exponent, or that rely on a group degree not exceeding the
    combination degree, are therefore stated for declared degrees of at most
    16, or for powers of two. *)
Definition getCombinationDegree (constraints : list Constraint.t) (traceLength : Z) : Z :=
  let maxConstraintDegree := max_degree_loop 1 constraints in
  (2 ^ Z.log2_up maxConstraintDegree * traceLength)%Z.

(** The first loop of [groupTransitionConstraints], from index [i] on. *)
Fixpoint group_loop (constraints : list Constraint.t) (i : nat) (traceLength : Z)
  (constraintGroups : JsMap.t) : JsMap.t :=
  match constraints with
  | [] => constraintGroups
  | constraint :: rest =>
      let degree := (Constraint.degree constraint * traceLength)%Z in
      let constraintGroups :=
        match JsMap.get constraintGroups degree with
        | Some _ => constraintGroups
        | None => JsMap.set_new constraintGroups degree []
        end in
      group_loop rest (S i) traceLength (JsMap.push constraintGroups degree i)
  end.

Definition groupTransitionConstraints (constraints : list Constraint.t) (traceLength : Z)
  : list Group.t :=
  let constraintGroups := group_loop constraints 0 traceLength [] in
  map (fun '(degree, indexes) => Group.mk degree indexes) constraintGroups.

(** The largest declared degree of a non-empty constraint list (specification
    side). *)
Definition max_declared_degree (constraints : list Constraint.t) : Z :=
  match constraints with
  | [] => 0%Z
  | c :: rest => fold_right (fun c' acc => Z.max (Constraint.degree c') acc)
                            (Constraint.degree c) rest
  end.

End Degrees.

(** ** The finite field object [context.field]

    The field library is an external collaborator; its scalar operations,
    its PRNG and its interpolation and evaluation over roots of unity are the
    fields of this record.  The vector operations are written out from the
    scalar ones, after the interface of the library. *)

Module Galois.

Record FiniteField : Type := mkField {
  elt  : Type;
  zero : elt;
  one  : elt;
  add  : elt -> elt -> elt;
  sub  : elt -> elt -> elt;
  mul  : elt -> elt -> elt;
  div  : elt -> elt -> elt;
  exp  : elt -> Z -> elt;
  (** [field.prng(seed, count).toValues()] *)
  prng : Buffer -> nat -> list elt;
  (** [field.interpolateRoots(rootsOfUnity, ys)]: a polynomial *)
  interpolateRoots : list elt -> list elt -> list elt;
  (** [field.evalPolyAtRoots(poly, rootsOfUnity)] *)
  evalPolyAtRoots : list elt -> list elt -> list elt
}.

Section Vectors.
Variable field : FiniteField.

Definition Vector : Type := list (elt field).

Definition newVectorFrom (values : list (elt field)) : Vector := values.

Definition matrixRowsToVectors (matrix : list Vector) : list Vector := matrix.

Fixpoint zipWith (f : elt field -> elt field -> elt field) (a b : Vector) : Vector :=
  match a, b with
  | x :: a', y :: b' => f x y :: zipWith f a' b'
  | _, _ => []
  end.

Definition addVectorElements (a b : Vector) : Vector := zipWith (add field) a b.
Definition mulVectorElements (a b : Vector) : Vector := zipWith (mul field) a b.
Definition divVectorElements (a b : Vector) : Vector := zipWith (div field) a b.

(** [getPowerSeries(base, length)]: the powers [base^0 .. base^(length-1)]. *)
Definition getPowerSeries (base : elt field) (length : nat) : Vector :=
  map (fun j => exp field base (Z.of_nat j)) (seq 0 length).

(** [combineVectors(a, b)]: the inner product. *)
Definition combineVectors (a b : Vector) : elt field :=
  fold_left (fun acc xy => add field acc (mul field (fst xy) (snd xy)))
            (combine a b) (zero field).

(** [combineManyVectors(v, k)]: the linear combination of the vectors [v]
    with the coefficients [k], position by position. *)
Definition combineManyVectors (v : list Vector) (k : Vector) : Vector :=
  match v with
  | [] => []
  | v0 :: _ =>
      map (fun j => combineVectors (map (fun vi => nth j vi (zero field)) v) k)
          (seq 0 (length v0))
  end.

End Vectors.

End Galois.
Import Galois.

(** ** The evaluation context, as far as the composition polynomial uses it *)

Module Context.
Record t (field : FiniteField) : Type := mk {
  traceLength       : Z;
  rootOfUnity       : elt field;
  evaluationDomain  : Vector field;
  compositionDomain : Vector field;
  (** [context.evaluateTracePolynomials(pPolys)]: the constraint evaluations
      over the composition domain, one row per constraint; it may throw. *)
  evaluateTracePolynomials : list (Vector field) -> result (list (Vector field));
  (** [context.evaluateConstraintsAt(x, pValues, nValues, hValues)] *)
  evaluateConstraintsAt :
    elt field -> list (elt field) -> list (elt field) -> list (elt field)
    -> list (elt field)
}.
Arguments traceLength {field} _.
Arguments rootOfUnity {field} _.
Arguments evaluationDomain {field} _.
Arguments compositionDomain {field} _.
Arguments evaluateTracePolynomials {field} _ _.
Arguments evaluateConstraintsAt {field} _ _ _ _ _.
End Context.

Module Assertion.
Record t (field : FiniteField) : Type := mk {
  register : nat;
  step     : nat;
  value    : elt field
}.
End Assertion.

(** The boundary constraints object [bPoly].  Its class is not part of the
    available sources; the composition polynomial uses its [count] and its two
    evaluation methods. *)
Module BoundaryConstraints.
Record t (field : FiniteField) : Type := mk {
  count       : nat;
  (** [bPoly.evaluateAll(pEvaluations, evaluationDomain)]: one row per
      boundary polynomial *)
  evaluateAll : list (Vector field) -> Vector field -> list (Vector field);
  (** [bPoly.evaluateAt(pValues, x)] *)
  evaluateAt  : list (elt field) -> elt field -> list (elt field)
}.
Arguments count {field} _.
Arguments evaluateAll {field} _ _ _.
Arguments evaluateAt {field} _ _ _.
End BoundaryConstraints.

Module ZeroPolynomial.

Record t (field : FiniteField) : Type := mk {
  traceLength : Z;
  (** the last point of the trace domain, g^(T-1) *)
  xAtLastStep : elt field
}.
Arguments traceLength {field} _.
Arguments xAtLastStep {field} _.

Record Evaluations (field : FiniteField) : Type := mkEvaluations {
  numerators   : Vector field;
  denominators : Vector field
}.
Arguments numerators {field} _.
Arguments denominators {field} _.

Section Methods.
Variable field : FiniteField.

(** Modelled from the spec: the constructor of [ZeroPolynomial], whose class
    is not part of the available sources.  Z(x) = (x^T - 1) / (x - g^(T-1)),
    where the trace generator is g = w^k2 and k2 = |D_E| / T. *)
Definition new (context : Context.t field) : t field :=
  let T := Context.traceLength context in
  let k2 := (Z.of_nat (length (Context.evaluationDomain context)) / T)%Z in
  let g := exp field (Context.rootOfUnity context) k2 in
  mk field T (exp field g (T - 1)).

Definition numeratorAt (this : t field) (x : elt field) : elt field :=
  sub field (exp field x (traceLength this)) (one field).

Definition denominatorAt (this : t field) (x : elt field) : elt field :=
  sub field x (xAtLastStep this).

(** Modelled from the spec: [zPoly.evaluateAt(x)] "returns Z(x) directly". *)
Definition evaluateAt (this : t field) (x : elt field) : elt field :=
  div field (numeratorAt this x) (denominatorAt this x).

(** Modelled from the spec: [zPoly.evaluateAll(domain)] returns the
    numerator x^T - 1 and the denominator x - g^(T-1) over the domain. *)
Definition evaluateAll (this : t field) (domain : Vector field) : Evaluations field :=
  mkEvaluations field (map (numeratorAt this) domain) (map (denominatorAt this) domain).

End Methods.
End ZeroPolynomial.

(** ** CompositionPolynomial.js: the class *)

Module CompositionPolynomial.
Import Degrees.

Record t (field : FiniteField) : Type := mk {
  bPoly             : BoundaryConstraints.t field;
  zPoly             : ZeroPolynomial.t field;
  combinationDegree : Z;
  compositionDegree : Z;
  constraintGroups  : list Group.t;
  dCoefficients     : Vector field;
  bCoefficients     : Vector field
}.
Arguments bPoly {field} _.
Arguments zPoly {field} _.
Arguments combinationDegree {field} _.
Arguments compositionDegree {field} _.
Arguments constraintGroups {field} _.
Arguments dCoefficients {field} _.
Arguments bCoefficients {field} _.

(** [for (let { degree, indexes } of this.constraintGroups)
       if (degree < this.combinationDegree) dCoefficientCount += indexes.length] *)
Fixpoint count_loop (combinationDegree : Z) (groups : list Group.t)
  (dCoefficientCount : nat) : nat :=
  match groups with
  | [] => dCoefficientCount
  | g :: rest =>
      if (Group.degree g <? combinationDegree)%Z
      then count_loop combinationDegree rest (dCoefficientCount + length (Group.indexes g))
      else count_loop combinationDegree rest dCoefficientCount
  end.

Section Class.
Variable field : FiniteField.

(** [new BoundaryConstraints(assertions, context)] *)
Variable newBoundaryConstraints :
  list (Assertion.t field) -> Context.t field -> BoundaryConstraints.t field.

Definition dCoefficientCountOf (constraints : list Constraint.t) (traceLength : Z) : nat :=
  count_loop (getCombinationDegree constraints traceLength)
             (groupTransitionConstraints constraints traceLength)
             (length constraints).

Definition bCoefficientCountOf (bCount : nat) (compositionDegree traceLength : Z) : nat :=
  if (traceLength <? compositionDegree)%Z then bCount * 2 else bCount.

Definition constructor (constraints : list Constraint.t)
  (assertions : list (Assertion.t field)) (seed : Buffer) (context : Context.t field)
  : t field :=
  let bPoly := newBoundaryConstraints assertions context in
  let zPoly := ZeroPolynomial.new field context in
  (* degree of trace polynomial combination *)
  let combinationDegree := getCombinationDegree constraints (Context.traceLength context) in
  (* degree of composition polynomial is deg(C(x)) = deg(Q(x)) - deg(Z(x)) *)
  let compositionDegree :=
    Z.max (combinationDegree - Context.traceLength context) (Context.traceLength context) in
  (* group transition constraints together by their degree *)
  let constraintGroups :=
    groupTransitionConstraints constraints (Context.traceLength context) in
  (* create coefficients needed for linear combination *)
  let dCoefficientCount := count_loop combinationDegree constraintGroups (length constraints) in
  let bCoefficientCount :=
    bCoefficientCountOf (BoundaryConstraints.count bPoly) compositionDegree
                        (Context.traceLength context) in
  let coefficients := prng field seed (dCoefficientCount + bCoefficientCount) in
  mk field bPoly zPoly combinationDegree compositionDegree constraintGroups
     (newVectorFrom field (firstn dCoefficientCount coefficients))
     (newVectorFrom field (skipn dCoefficientCount coefficients)).

End Class.

End CompositionPolynomial.

(** ** CompositionPolynomial.js: evaluation over the domain and at a point *)

Module Evaluation.
Import Degrees CompositionPolynomial.

Section Methods.
Variable field : FiniteField.

(** [for (let i of indexes)
       qaEvaluations.push(mulVectorElements(qaEvaluations[i], powers))] *)
Fixpoint adjustAll_indexes (powers : Vector field) (indexes : list nat)
  (qaEvaluations : list (Vector field)) : result (list (Vector field)) :=
  match indexes with
  | [] => Ok qaEvaluations
  | i :: rest =>
      match nth_error qaEvaluations i with
      | Some qi =>
          adjustAll_indexes powers rest
            (qaEvaluations ++ [mulVectorElements field qi powers])
      | None => Throw TypeError
      end
  end.

(** Step 2 of [evaluateAll]: the loop over [this.constraintGroups]. *)
Fixpoint adjustAll_groups (combinationDegree : Z) (compositionRou : elt field)
  (domainLength : nat) (groups : list Group.t) (qaEvaluations : list (Vector field))
  : result (list (Vector field)) :=
  match groups with
  | [] => Ok qaEvaluations
  | g :: rest =>
      if (Group.degree g =? combinationDegree)%Z
      then adjustAll_groups combinationDegree compositionRou domainLength rest qaEvaluations
      else
        (* compute the sequence of powers for the incremental degree *)
        let incrementalDegree := (combinationDegree - Group.degree g)%Z in
        let powerSeed := exp field compositionRou incrementalDegree in
        let powers := getPowerSeries field powerSeed domainLength in
        (* raise the degree of evaluations and add adjusted evaluations the list *)
        let* qaEvaluations := adjustAll_indexes powers (Group.indexes g) qaEvaluations in
        adjustAll_groups combinationDegree compositionRou domainLength rest qaEvaluations
  end.

(** [for (let i = 0; i < this.bPoly.count; i++)
       baEvaluations.push(mulVectorElements(baEvaluations[i], psbPowers))],
    from index [i] with [n] iterations left. *)
Fixpoint adjustAll_boundary (psbPowers : Vector field) (n i : nat)
  (baEvaluations : list (Vector field)) : result (list (Vector field)) :=
  match n with
  | O => Ok baEvaluations
  | S n' =>
      match nth_error baEvaluations i with
      | Some bi =>
          adjustAll_boundary psbPowers n' (S i)
            (baEvaluations ++ [mulVectorElements field bi psbPowers])
      | None => Throw TypeError
      end
  end.

(** [BigInt(evaluationDomain.length / compositionDomain.length)]: the
    quotient when it is an integer; [BigInt] of anything else throws. *)
Definition compositionFactorOf (evaluationLength compositionLength : nat) : result Z :=
  if (compositionLength =? 0) then Throw RangeError
  else if (evaluationLength mod compositionLength =? 0)
       then Ok (Z.of_nat (evaluationLength / compositionLength))
       else Throw RangeError.

(** Steps 1 to 3 of [evaluateAll], up to the linear combination over the
    composition domain. *)
Definition qcEvaluationsOf (this : t field) (pPolys : list (Vector field))
  (context : Context.t field) : result (Vector field) :=
  (* 1 ----- evaluate transition constraints over composition domain *)
  let* qEvaluations :=
    match Context.evaluateTracePolynomials context pPolys with
    | Ok q => Ok q
    | Throw _ => Throw StarkError
    end in
  (* 2 ----- adjusted transition constraint degrees *)
  let* compositionFactor :=
    compositionFactorOf (length (Context.evaluationDomain context))
                        (length (Context.compositionDomain context)) in
  let compositionRou := exp field (Context.rootOfUnity context) compositionFactor in
  let qaEvaluations := matrixRowsToVectors field qEvaluations in
  let* qaEvaluations :=
    adjustAll_groups (combinationDegree this) compositionRou
      (length (Context.compositionDomain context)) (constraintGroups this) qaEvaluations in
  (* 3 ----- merge transition constraints into a single polynomial *)
  Ok (combineManyVectors field qaEvaluations (dCoefficients this)).

(** Steps 5 to 7 of [evaluateAll]: the combined boundary constraints. *)
Definition bcEvaluationsOf (this : t field) (pEvaluations : list (Vector field))
  (context : Context.t field) : result (Vector field) :=
  (* 5 ------- compute boundary constraints B(x) *)
  let bEvaluations :=
    BoundaryConstraints.evaluateAll (bPoly this) pEvaluations
      (Context.evaluationDomain context) in
  (* 6 ------- Adjust degrees of boundary constraints *)
  let baEvaluations := matrixRowsToVectors field bEvaluations in
  let bIncrementalDegree := (compositionDegree this - Context.traceLength context)%Z in
  let* baEvaluations :=
    if (0 <? bIncrementalDegree)%Z
    then
      let powerSeed := exp field (Context.rootOfUnity context) bIncrementalDegree in
      let psbPowers :=
        getPowerSeries field powerSeed (length (Context.evaluationDomain context)) in
      adjustAll_boundary psbPowers (BoundaryConstraints.count (bPoly this)) 0 baEvaluations
    else Ok baEvaluations in
  (* 7 ----- Merge boundary constraints into a single polynomial *)
  Ok (combineManyVectors field baEvaluations (bCoefficients this)).

(** [evaluateAll(pPolys, pEvaluations, context)]; the calls of the logger
    are left out. *)
Definition evaluateAll (this : t field) (pPolys pEvaluations : list (Vector field))
  (context : Context.t field) : result (Vector field) :=
  let* qcEvaluations := qcEvaluationsOf this pPolys context in
  (* then, perform low-degree extension from composition domain to evaluation domain *)
  let qcPoly := interpolateRoots field (Context.compositionDomain context) qcEvaluations in
  let qeEvaluations := evalPolyAtRoots field qcPoly (Context.evaluationDomain context) in
  (* 4 ----- compute D(x) = Q(x) / Z(x) *)
  let zEvaluations :=
    ZeroPolynomial.evaluateAll field (zPoly this) (Context.evaluationDomain context) in
  let zInverses :=
    divVectorElements field (ZeroPolynomial.denominators zEvaluations)
                            (ZeroPolynomial.numerators zEvaluations) in
  let dEvaluations := mulVectorElements field qeEvaluations zInverses in
  let* bcEvaluations := bcEvaluationsOf this pEvaluations context in
  Ok (addVectorElements field dEvaluations bcEvaluations).

(** [for (let i of indexes) qValues.push(this.field.mul(qValues[i], power))] *)
Fixpoint adjustAt_indexes (power : elt field) (indexes : list nat)
  (qValues : list (elt field)) : result (list (elt field)) :=
  match indexes with
  | [] => Ok qValues
  | i :: rest =>
      match nth_error qValues i with
      | Some qi => adjustAt_indexes power rest (qValues ++ [mul field qi power])
      | None => Throw TypeError
      end
  end.

(** The loop of [evaluateAt] over [this.constraintGroups]. *)
Fixpoint adjustAt_groups (combinationDegree : Z) (x : elt field)
  (groups : list Group.t) (qValues : list (elt field)) : result (list (elt field)) :=
  match groups with
  | [] => Ok qValues
  | g :: rest =>
      if (Group.degree g =? combinationDegree)%Z
      then adjustAt_groups combinationDegree x rest qValues
      else
        let constraintIncrementalDegree := (combinationDegree - Group.degree g)%Z in
        let power := exp field x constraintIncrementalDegree in
        let* qValues := adjustAt_indexes power (Group.indexes g) qValues in
        adjustAt_groups combinationDegree x rest qValues
  end.

(** [for (let i = 0; i < this.bPoly.count; i++)
       bValues.push(this.field.mul(bValues[i], power))] *)
Fixpoint adjustAt_boundary (power : elt field) (n i : nat)
  (bValues : list (elt field)) : result (list (elt field)) :=
  match n with
  | O => Ok bValues
  | S n' =>
      match nth_error bValues i with
      | Some bi => adjustAt_boundary power n' (S i) (bValues ++ [mul field bi power])
      | None => Throw TypeError
      end
  end.

(** The first half of [evaluateAt]: the merged transition constraint value
    [qcValue]. *)
Definition qcValueAt (this : t field) (x : elt field)
  (pValues nValues hValues : list (elt field)) (context : Context.t field)
  : result (elt field) :=
  (* evaluate transition constraints at x *)
  let qValues := Context.evaluateConstraintsAt context x pValues nValues hValues in
  (* adjust transition constraint degrees *)
  let* qValues :=
    adjustAt_groups (combinationDegree this) x (constraintGroups this) qValues in
  (* merge transition constraint evaluations into a single value *)
  let qVector := newVectorFrom field qValues in
  Ok (combineVectors field qVector (dCoefficients this)).

(** The merged boundary constraint value [bValue] of [evaluateAt]. *)
Definition bValueAt (this : t field) (x : elt field) (pValues : list (elt field))
  (context : Context.t field) : result (elt field) :=
  (* evaluate boundary constraints at x *)
  let bValues := BoundaryConstraints.evaluateAt (bPoly this) pValues x in
  (* adjust boundary constraint degrees *)
  let bIncrementalDegree := (compositionDegree this - Context.traceLength context)%Z in
  let* bValues :=
    if (0 <? bIncrementalDegree)%Z
    then
      let power := exp field x bIncrementalDegree in
      adjustAt_boundary power (BoundaryConstraints.count (bPoly this)) 0 bValues
    else Ok bValues in
  (* merge boundary constraint evaluations into a single value *)
  let bVector := newVectorFrom field bValues in
  Ok (combineVectors field bVector (bCoefficients this)).

(** [evaluateAt(x, pValues, nValues, hValues, context)] *)
Definition evaluateAt (this : t field) (x : elt field)
  (pValues nValues hValues : list (elt field)) (context : Context.t field)
  : result (elt field) :=
  let* qcValue := qcValueAt this x pValues nValues hValues context in
  (* compute D(x) = Q(x) / Z(x) *)
  let zValue := ZeroPolynomial.evaluateAt field (zPoly this) x in
  let dValue := div field qcValue zValue in
  let* bValue := bValueAt this x pValues context in
  Ok (add field dValue bValue).

(** Specification side: the adjusted list is the original values followed,
    group by group, by one copy of each value of a group whose degree differs
    from the combination degree, multiplied by x^(D - e). *)
Definition adjusted_copies (combinationDegree : Z) (x : elt field)
  (groups : list Group.t) (qValues : list (elt field)) : list (elt field) :=
  flat_map
    (fun g =>
       if (Group.degree g =? combinationDegree)%Z then []
       else map (fun i => mul field (nth i qValues (zero field))
                              (exp field x (combinationDegree - Group.degree g)))
                (Group.indexes g))
    groups.

Definition adjusted (combinationDegree : Z) (x : elt field)
  (groups : list Group.t) (qValues : list (elt field)) : list (elt field) :=
  qValues ++ adjusted_copies combinationDegree x groups qValues.

(** Specification side: the boundary values followed, when the composition
    degree exceeds the trace length, by one copy of each multiplied by
    x^(compositionDegree - T). *)
Definition adjusted_boundary (bIncrementalDegree : Z) (x : elt field) (bCount : nat)
  (bValues : list (elt field)) : list (elt field) :=
  if (0 <? bIncrementalDegree)%Z
  then bValues
       ++ map (fun i => mul field (nth i bValues (zero field))
                            (exp field x bIncrementalDegree))
              (seq 0 bCount)
  else bValues.

(** Specification side: Q(x), the combination of the original and adjusted
    transition constraint values with the alpha coefficients. *)
Definition qcAt (this : t field) (x : elt field) (qValues : list (elt field))
  : elt field :=
  combineVectors field
    (adjusted (combinationDegree this) x (constraintGroups this) qValues)
    (dCoefficients this).

(** Specification side: BC(x), the combination of the original and adjusted
    boundary constraint values with the beta coefficients. *)
Definition bcAt (this : t field) (traceLength : Z) (x : elt field)
  (bValues : list (elt field)) : elt field :=
  combineVectors field
    (adjusted_boundary (compositionDegree this - traceLength) x
       (BoundaryConstraints.count (bPoly this)) bValues)
    (bCoefficients this).

(** Specification side: C(x) = D(x) + BC(x) with D(x) = Q(x) / Z(x). *)
Definition compositionAt (this : t field) (traceLength : Z) (x : elt field)
  (qValues bValues : list (elt field)) : elt field :=
  add field
    (div field (qcAt this x qValues) (ZeroPolynomial.evaluateAt field (zPoly this) x))
    (bcAt this traceLength x bValues).

End Methods.

End Evaluation.

(** ** A small field and context, used to run the composition polynomial

    The prime field of 17 elements, whose multiplicative group has order 16;
    a trace of T = 2 steps of one register, constraints of degrees 1 and 3,
    a composition domain of 8 points and an evaluation domain of 16. *)

Module F17.
Import Degrees CompositionPolynomial.

Definition p : Z := 17.
Definition add (a b : Z) : Z := ((a + b) mod p)%Z.
Definition sub (a b : Z) : Z := ((a - b) mod p)%Z.
Definition mul (a b : Z) : Z := ((a * b) mod p)%Z.
Definition pow (a n : Z) : Z := ((a ^ n) mod p)%Z.
Definition inv (a : Z) : Z := pow a (p - 2).
Definition div (a b : Z) : Z := mul a (inv b).
Definition exp (a n : Z) : Z := if (n <? 0)%Z then pow (inv a) (- n) else pow a n.

Definition prng (seed : Buffer) (count : nat) : list Z :=
  map (fun i => ((fold_right Z.add 0 seed + 3 * Z.of_nat i + 1) mod p)%Z) (seq 0 count).

Definition horner (poly : list Z) (x : Z) : Z :=
  fold_right (fun c acc => add c (mul x acc)) 0%Z poly.

Definition evalPolyAtRoots (poly roots : list Z) : list Z := map (horner poly) roots.

(** The inverse transform over the roots of unity [roots]:
    c_i = n^-1 * sum_j y_j * x_j^(n-i). *)
Definition interpolateRoots (roots ys : list Z) : list Z :=
  let n := Z.of_nat (length roots) in
  map (fun i =>
         mul (inv n)
             (fold_right add 0%Z
                (map (fun xy => mul (snd xy) (pow (fst xy) (n - Z.of_nat i)))
                     (combine roots ys))))
      (seq 0 (length roots)).

Definition field : FiniteField :=
  mkField Z 0%Z 1%Z add sub mul div exp prng interpolateRoots evalPolyAtRoots.

(** The root of unity of order 16 and the three domains. *)
Definition w : Z := 3.
Definition evaluationDomain : list Z := getPowerSeries field w 16.
Definition compositionDomain : list Z := getPowerSeries field (exp w 2) 8.
Definition g : Z := exp w 8.

(** The trace polynomial of the single register, P(x) = 5 + 7x, and the
    register values at x and at the next step g*x. *)
Definition pPolys : list (list Z) := [[5; 7]%Z].
Definition pAt (x : Z) : list Z := map (fun poly => horner poly x) pPolys.
Definition nAt (x : Z) : list Z := map (fun poly => horner poly (mul x g)) pPolys.
Definition hAt (x : Z) : list Z := [].
Definition pEvaluations : list (list Z) :=
  map (fun poly => map (horner poly) evaluationDomain) pPolys.

(** Two transition constraints: n - (p + 2) of degree 1 and n - p^3 of
    degree 3. *)
Definition constraints : list Constraint.t := [Constraint.mk 1; Constraint.mk 3].

Definition evaluateConstraintsAt (x : Z) (pValues nValues hValues : list Z) : list Z :=
  let p0 := nth 0 pValues 0%Z in
  let n0 := nth 0 nValues 0%Z in
  [sub n0 (add p0 2); sub n0 (mul p0 (mul p0 p0))].

Definition evaluateTracePolynomials (polys : list (list Z)) : result (list (list Z)) :=
  Ok (map (fun i =>
             map (fun x =>
                    nth i (evaluateConstraintsAt x
                             (map (fun poly => horner poly x) polys)
                             (map (fun poly => horner poly (mul x g)) polys)
                             [])
                        0%Z)
                 compositionDomain)
          (seq 0 (length constraints))).

Definition context : Context.t field :=
  Context.mk field 2%Z w evaluationDomain compositionDomain
             evaluateTracePolynomials evaluateConstraintsAt.

(** One assertion, on register 0 at step 0: B(x) = (P(x) - v) / (x - 1). *)
Definition assertions : list (Assertion.t field) := [Assertion.mk field 0 0 12%Z].

Definition newBoundaryConstraints (asserted : list (Assertion.t field))
  (ctx : Context.t field) : BoundaryConstraints.t field :=
  let v := match asserted with
           | a :: _ => Assertion.value field a
           | [] => 0%Z
           end in
  let at_ (pValues : list Z) (x : Z) : list Z :=
    [div (sub (nth 0 pValues 0%Z) v) (sub x 1)] in
  BoundaryConstraints.mk field 1
    (fun evaluations domain =>
       [map (fun i => nth 0 (at_ (map (fun row => nth i row 0%Z) evaluations)
                                 (nth i domain 0%Z)) 0%Z)
            (seq 0 (length domain))])
    at_.

Definition seed : Buffer := [1; 2; 3]%Z.

Definition cp : CompositionPolynomial.t field :=
  constructor field newBoundaryConstraints constraints assertions seed context.

End F17.

(** ** Counting and vector-level specification of the degree adjustment *)

Module AdjustSpec.

(** The number of constraints whose degree times the trace length is below
    the combination degree. *)
Definition below_count (constraints : list Constraint.t) (traceLength : Z) : nat :=
  let D := Degrees.getCombinationDegree constraints traceLength in
  length (filter (fun c => (Constraint.degree c * traceLength <? D)%Z) constraints).

(** The sum of the sizes of the groups that satisfy [keep]. *)
Definition groups_size (keep : Group.t -> bool) (groups : list Group.t) : nat :=
  list_sum (map (fun g => length (Group.indexes g)) (filter keep groups)).

Section Vectors.
Variable field : FiniteField.

(** Specification side: the adjusted copies appended by [evaluateAll], each
    an original row multiplied position by position by the power series of
    (compositionRou ^ (D - e)). *)
Definition adjusted_rows (combinationDegree : Z) (compositionRou : elt field)
  (domainLength : nat) (groups : list Group.t) (rows : list (Vector field))
  : list (Vector field) :=
  flat_map
    (fun g =>
       if (Group.degree g =? combinationDegree)%Z then []
       else map (fun i =>
                   mulVectorElements field (nth i rows [])
                     (getPowerSeries field
                        (exp field compositionRou (combinationDegree - Group.degree g))
                        domainLength))
                (Group.indexes g))
    groups.

(** A table with one row per index below [m], over the points of a domain. *)
Definition table (m : nat) (f : nat -> elt field -> elt field) (domain : Vector field)
  : list (Vector field) :=
  map (fun i => map (f i) domain) (seq 0 m).

(** Column [j] of a list of rows. *)
Definition column (j : nat) (rows : list (Vector field)) : list (elt field) :=
  map (fun row => nth j row (zero field)) rows.

End Vectors.
End AdjustSpec.

(** ** Hexadecimal strings, as [BigInt.prototype.toString(16)],
    [String.prototype.padStart], [buffer.write(.., 'hex')],
    [buffer.toString('hex', ..)] and [BigInt('0x' + ..)] handle them *)

Module Hex.

Definition hexChars : list ascii :=
  ["0"; "1"; "2"; "3"; "4"; "5"; "6"; "7"; "8"; "9"; "a"; "b"; "c"; "d"; "e"; "f"]%char.

Definition hexDigit (d : Z) : ascii := nth (Z.to_nat d) hexChars "0"%char.

(** The position of [c] in [cs], if it occurs there. *)
Fixpoint indexOf (c : ascii) (cs : list ascii) : option nat :=
  match cs with
  | [] => None
  | c' :: rest => if Ascii.eqb c c' then Some 0 else option_map S (indexOf c rest)
  end.

Definition upperChars : list ascii := ["A"; "B"; "C"; "D"; "E"; "F"]%char.

(** The value of a hexadecimal digit; hex decoding accepts both cases. *)
Definition hexVal (c : ascii) : option Z :=
  match indexOf c hexChars with
  | Some i => Some (Z.of_nat i)
  | None => option_map (fun i => Z.of_nat (10 + i)) (indexOf c upperChars)
  end.

Fixpoint string_of (cs : list ascii) : string :=
  match cs with
  | [] => EmptyString
  | c :: rest => String c (string_of rest)
  end.

(** The digits of [v > 0], most significant first, in front of [acc]; for
    [v = 0] the single digit 0. *)
Fixpoint hexDigits (fuel : nat) (v : Z) (acc : list Z) : list Z :=
  match fuel with
  | O => acc
  | S fuel' =>
      let acc' := (v mod 16)%Z :: acc in
      if (v / 16 =? 0)%Z then acc' else hexDigits fuel' (v / 16)%Z acc'
  end.

Definition digitsOf (v : Z) : list Z := hexDigits (S (Z.to_nat (Z.log2 v))) v [].

(** Specification side: the [n] low-order digits of [v], most significant
    first, in front of [acc]. *)
Fixpoint fixedDigits (n : nat) (v : Z) (acc : list Z) : list Z :=
  match n with
  | O => acc
  | S n' => fixedDigits n' (v / 16)%Z ((v mod 16)%Z :: acc)
  end.

Definition byteDigits (b : Z) : list Z := [b / 16; b mod 16]%Z.

(** [value.toString(16)] of a bigint *)
Definition toString16 (value : Z) : string :=
  if (value <? 0)%Z
  then String "-"%char (string_of (map hexDigit (digitsOf (- value))))
  else string_of (map hexDigit (digitsOf value)).

(** [s.padStart(targetLength, padChar)] *)
Definition padStart (s : string) (targetLength : nat) (padChar : ascii) : string :=
  string_of (repeat padChar (targetLength - String.length s)) ++ s.

(** The bytes that a hex string decodes to, at most [max] of them, up to the
    first pair that is not two hex digits. *)
Fixpoint hexDecode (s : string) (max : nat) : list Z :=
  match max with
  | O => []
  | S max' =>
      match s with
      | String c1 (String c2 rest) =>
          match hexVal c1, hexVal c2 with
          | Some h, Some l => (16 * h + l)%Z :: hexDecode rest max'
          | _, _ => []
          end
      | _ => []
      end
  end.

(** [buffer.write(string, offset, length, 'hex')]: the updated buffer and the
    number of bytes written. *)
Definition write (buffer : Buffer) (s : string) (offset length_ : nat)
  : result (Buffer * nat) :=
  if length buffer <? offset then Throw RangeError
  else
    let bytes := hexDecode s (Nat.min length_ (length buffer - offset)) in
    Ok (splice buffer offset bytes, length bytes).

Definition byteHex (b : Z) : list ascii := [hexDigit (b / 16); hexDigit (b mod 16)]%Z.

(** [buffer.toString('hex', start, end)] *)
Definition toStringHex (buffer : Buffer) (start end_ : nat) : string :=
  string_of (flat_map byteHex (firstn (end_ - start) (skipn start buffer))).

Fixpoint parseDigits (s : string) (acc : Z) : result Z :=
  match s with
  | EmptyString => Ok acc
  | String c rest =>
      match hexVal c with
      | Some d => parseDigits rest (16 * acc + d)%Z
      | None => Throw SyntaxError
      end
  end.

(** [BigInt('0x' + s)]: a literal without digits is a syntax error. *)
Definition bigIntOfHex (s : string) : result Z :=
  match s with
  | EmptyString => Throw SyntaxError
  | _ => parseDigits s 0%Z
  end.

End Hex.

(** ** The evaluation serializer: the [Serializer] class with [mergeValues]
    and [parseValues] (second class of unnamed/part_000) *)

Module LeafSerializer.

Record Serializer : Type := mkSerializer {
  fieldElementSize : nat;
  stateWidth       : nat;
  secretInputCount : nat
}.

Definition getValueCount (this : Serializer) : nat :=
  stateWidth this + secretInputCount this.

(** [values[register][position]]; reading through [undefined] is a
    [TypeError]. *)
Definition valueAt (values : list (list Z)) (register position : nat) : result Z :=
  match nth_error values register with
  | None => Throw TypeError
  | Some row =>
      match nth_error row position with
      | None => Throw TypeError
      | Some v => Ok v
      end
  end.

(** [for (let register = ..; register < count; register++)
       { hex = values[register][position].toString(16).padStart(padLength, '0');
         offset += buffer.write(hex, offset, valueSize, 'hex'); }],
    with [n] iterations left. *)
Fixpoint mergeLoop (valueSize padLength : nat) (values : list (list Z)) (position : nat)
  (n register : nat) (buffer : Buffer) (offset : nat) : result (Buffer * nat) :=
  match n with
  | O => Ok (buffer, offset)
  | S n' =>
      let* v := valueAt values register position in
      let hex := Hex.padStart (Hex.toString16 v) padLength "0"%char in
      let* (buffer, written) := Hex.write buffer hex offset valueSize in
      mergeLoop valueSize padLength values position n' (S register) buffer (offset + written)
  end.

Definition mergeValues (this : Serializer) (junk : nat -> Z)
  (pValues sValues : list (list Z)) (position : nat) : result Buffer :=
  let valueSize := fieldElementSize this in
  let valueCount := getValueCount this in
  let buffer := allocUnsafe junk (valueCount * valueSize) in
  let padLength := valueSize * 2 in
  let offset := 0 in
  let* (buffer, offset) :=
    mergeLoop valueSize padLength pValues position (stateWidth this) 0 buffer offset in
  let* (buffer, offset) :=
    mergeLoop valueSize padLength sValues position (secretInputCount this) 0 buffer offset in
  Ok buffer.

(** [for (let i = 0; i < count; i++, offset += elementSize)
       out[i] = BigInt('0x' + buffer.toString('hex', offset, offset + elementSize))] *)
Definition parseLoop (elementSize : nat) (buffer : Buffer) (count offset : nat)
  : result (list Z * nat) :=
  for_count count
    (fun offset =>
       let* v := Hex.bigIntOfHex (Hex.toStringHex buffer offset (offset + elementSize)) in
       Ok (v, offset + elementSize))
    offset.

Definition parseValues (this : Serializer) (buffer : Buffer) : result (list Z * list Z) :=
  let elementSize := fieldElementSize this in
  let offset := 0 in
  let* (pValues, offset) := parseLoop elementSize buffer (stateWidth this) offset in
  let* (sValues, offset) := parseLoop elementSize buffer (secretInputCount this) offset in
  Ok (pValues, sValues).

(** Specification side: a field element as [elementSize] bytes, most
    significant first. *)
Definition be_bytes (elementSize : nat) (value : Z) : list Z :=
  rev (Utils.le_bytes elementSize value).

(** Specification side: the values of the first [count] registers at
    [position]. *)
Fixpoint columnAt (values : list (list Z)) (position : nat) (count register : nat)
  : option (list Z) :=
  match count with
  | O => Some []
  | S count' =>
      match nth_error values register with
      | None => None
      | Some row =>
          match nth_error row position, columnAt values position count' (S register) with
          | Some v, Some rest => Some (v :: rest)
          | _, _ => None
          end
      end
  end.

(** Specification side: the leaf is the concatenation of the fixed-width
    big-endian encodings. *)
Definition leaf (elementSize : nat) (values : list Z) : list Z :=
  flat_map (be_bytes elementSize) values.

End LeafSerializer.

(** ** Sizes in closed form (specification side) *)

Module SizeSpec.

(** The bytes of a batch Merkle proof on the wire: leaves and nodes, one count
    byte for the leaves, one for the columns, one per column and one for the
    depth. *)
Definition merkle_size (proof : BatchMerkleProof) : nat :=
  sum_lengths (values proof) + length (nodes proof) + sum_columns (nodes proof) + 3.

(** The bytes of one component of the low-degree proof. *)
Definition level_size (hashDigestSize : nat) (c : FriComponent) : nat :=
  hashDigestSize + merkle_size (columnProof c) + merkle_size (polyProof c).

(** A nodes matrix that [sizeOfMatrix] accepts. *)
Definition matrix_sizable (matrix : list (list Buffer)) : Prop :=
  length matrix <= 256 /\ Forall (fun column => length column <= 126) matrix.

(** A leaves-and-nodes pair that [sizeOfMerkleProof] accepts. *)
Definition merkle_sizable (proof : BatchMerkleProof) : Prop :=
  1 <= length (values proof) <= 256 /\ matrix_sizable (nodes proof).

End SizeSpec.


(** ** CompositionPolynomial.js: the public accessor *)

Module Accessors.
Import CompositionPolynomial.

(** [get coefficientCount()] *)
Definition coefficientCount {field : FiniteField} (this : CompositionPolynomial.t field)
  : nat :=
  length (dCoefficients this) + length (bCoefficients this).

End Accessors.


(** ** The order of the constraint groups (specification side) *)

Module GroupSpec.

(** A map state reached after the indexes below [i]: no group is empty, the
    indexes of a group ascend and lie below [i], the groups stand in the
    order of their first indexes, and there are at most [i] of them. *)
Definition ordered_below (i : nat) (m : JsMap.t) : Prop :=
  Forall (fun kg => snd kg <> [] /\ StronglySorted lt (snd kg)
                    /\ Forall (fun j => j < i) (snd kg)) m
  /\ StronglySorted lt (map (fun kg => hd 0 (snd kg)) m)
  /\ length m <= i.

End GroupSpec.


(** ** Leaves read element by element (specification side) *)

Module LeafSpec.

Definition is_byte (b : Z) : Prop := (0 <= b < 256)%Z.

(** The number that a run of bytes spells, most significant first. *)
Definition be_value (bytes : list Z) : Z :=
  fold_left (fun a b => (256 * a + b)%Z) bytes 0%Z.

(** Element [i] of a buffer read in steps of [size] bytes from [offset]: the
    value of the bytes found there, fewer than [size] at the end of the
    buffer. *)
Definition elementAt (size : nat) (buffer : Buffer) (offset i : nat) : Z :=
  be_value (window buffer (offset + i * size) size).

Definition elements (size : nat) (buffer : Buffer) (offset count : nat) : list Z :=
  map (elementAt size buffer offset) (seq 0 count).

(** A value that does not fit [size] bytes. *)
Definition out_of_range (size : nat) (v : Z) : Prop :=
  (v < 0 \/ 256 ^ Z.of_nat size <= v)%Z.

End LeafSpec.


(** ** Roots shorter than the digest size (specification side) *)

Module RootSpec.

(** No root is longer than the digest size. *)
Definition roots_within (hashDigestSize : nat) (proof : StarkProof) : Prop :=
  length (evRoot proof) <= hashDigestSize
  /\ length (lcRoot (ldProof proof)) <= hashDigestSize
  /\ Forall (fun c => length (columnRoot c) <= hashDigestSize)
            (components (ldProof proof)).

(** The bytes by which the roots fall short of the digest size, in all. *)
Definition roots_deficit (hashDigestSize : nat) (proof : StarkProof) : nat :=
  (hashDigestSize - length (evRoot proof))
  + (hashDigestSize - length (lcRoot (ldProof proof)))
  + list_sum (map (fun c => hashDigestSize - length (columnRoot c))
                  (components (ldProof proof))).

End RootSpec.


(* ====================================================================== *)
(** * Properties *)
(* ====================================================================== *)

Lemma bind_ok {A B} (m : result A) (f : A -> result B) b :
  bind m f = Ok b -> exists a, m = Ok a /\ f a = Ok b.
Proof. destruct m; simpl; intros H; [eauto | discriminate]. Qed.

Lemma bind_throw {A B} (m : result A) (f : A -> result B) :
  threw m -> threw (bind m f).
Proof. intros [e ->]. exists e. reflexivity. Qed.

Lemma threw_not_ok {A} (m : result A) a : threw m -> m <> Ok a.
Proof. intros [e ->]; discriminate. Qed.

(** ** Size accounting *)

Module SizeofFacts.
Import Sizeof.

Lemma add_lengths_sum size array :
  add_lengths size array = size + sum_lengths array.
Proof.
  revert size. induction array as [|b rest IH]; intros size; simpl.
  - lia.
  - rewrite IH. lia.
Qed.

Lemma add_columns_ok size matrix :
  Forall (fun column => length column <= 126) matrix ->
  add_columns size matrix = Ok (size + sum_columns matrix).
Proof.
  intros H. revert size.
  induction H as [|column rest Hc _ IH]; intros size;
    cbn [add_columns sum_columns fold_right].
  - f_equal. lia.
  - destruct (MAX_MATRIX_COLUMN_LENGTH <=? length column) eqn:E.
    + apply Nat.leb_le in E. unfold MAX_MATRIX_COLUMN_LENGTH in E. lia.
    + rewrite IH, add_lengths_sum. f_equal. fold (sum_columns rest). lia.
Qed.

Lemma add_columns_ok_inv size matrix n :
  add_columns size matrix = Ok n ->
  Forall (fun column => length column <= 126) matrix.
Proof.
  revert size. induction matrix as [|column rest IH]; intros size; cbn [add_columns].
  - constructor.
  - destruct (MAX_MATRIX_COLUMN_LENGTH <=? length column) eqn:E; [discriminate|].
    apply Nat.leb_gt in E. unfold MAX_MATRIX_COLUMN_LENGTH in E.
    intros H. constructor; [lia | eauto].
Qed.

Lemma add_columns_throws size matrix :
  Exists (fun column => 127 <= length column) matrix ->
  threw (add_columns size matrix).
Proof.
  intros H. revert size.
  induction H as [column rest Hc | column rest _ IH]; intros size; cbn [add_columns].
  - destruct (MAX_MATRIX_COLUMN_LENGTH <=? length column) eqn:E.
    + eexists; reflexivity.
    + apply Nat.leb_gt in E. unfold MAX_MATRIX_COLUMN_LENGTH in E. lia.
  - destruct (MAX_MATRIX_COLUMN_LENGTH <=? length column); [eexists; reflexivity | apply IH].
Qed.

Lemma sizeOfArray_ok array :
  1 <= length array <= 256 -> sizeOfArray array = Ok (1 + sum_lengths array).
Proof.
  intros [H1 H2]. unfold sizeOfArray, MAX_ARRAY_LENGTH.
  destruct (length array =? 0) eqn:E0; [apply Nat.eqb_eq in E0; lia|].
  destruct (256 <? length array) eqn:E1; [apply Nat.ltb_lt in E1; lia|].
  now rewrite add_lengths_sum.
Qed.

Lemma sizeOfArray_ok_inv array n :
  sizeOfArray array = Ok n -> 1 <= length array <= 256 /\ n = 1 + sum_lengths array.
Proof.
  unfold sizeOfArray, MAX_ARRAY_LENGTH.
  destruct (length array =? 0) eqn:E0; [discriminate|].
  destruct (256 <? length array) eqn:E1; [discriminate|].
  apply Nat.eqb_neq in E0. apply Nat.ltb_ge in E1.
  rewrite add_lengths_sum. intros [= <-]. lia.
Qed.

Lemma sizeOfMatrix_ok matrix :
  length matrix <= 256 ->
  Forall (fun column => length column <= 126) matrix ->
  sizeOfMatrix matrix = Ok (1 + length matrix + sum_columns matrix).
Proof.
  intros H1 H2. unfold sizeOfMatrix, MAX_ARRAY_LENGTH.
  destruct (256 <? length matrix) eqn:E; [apply Nat.ltb_lt in E; lia|].
  now apply add_columns_ok.
Qed.

Lemma sizeOfMatrix_ok_inv matrix n :
  sizeOfMatrix matrix = Ok n ->
  length matrix <= 256
  /\ Forall (fun column => length column <= 126) matrix
  /\ n = 1 + length matrix + sum_columns matrix.
Proof.
  unfold sizeOfMatrix, MAX_ARRAY_LENGTH.
  destruct (256 <? length matrix) eqn:E; [discriminate|].
  apply Nat.ltb_ge in E. intros H.
  pose proof (add_columns_ok_inv _ _ _ H) as HF.
  rewrite (add_columns_ok _ _ HF) in H. injection H as <-. auto.
Qed.

(** C6, as amended: size computation accepts every array of 1 to 256 entries
    and every matrix of at most 256 columns whose columns have at most 126
    entries each, and throws for a zero-length array, for an array of more than
    256 entries, and for a matrix with more than 256 columns or with a column
    of more than 127 entries. *)
Theorem size_limits (array : list Buffer) (matrix : list (list Buffer)) :
  (1 <= length array <= 256 -> sizeOfArray array = Ok (1 + sum_lengths array))
  /\ (length array = 0 -> sizeOfArray array = Throw ArrayZeroLength)
  /\ (256 < length array -> sizeOfArray array = Throw (ArrayTooLong (length array)))
  /\ (length matrix <= 256 ->
      Forall (fun column => length column <= 126) matrix ->
      sizeOfMatrix matrix = Ok (1 + length matrix + sum_columns matrix))
  /\ (256 < length matrix -> sizeOfMatrix matrix = Throw (MatrixTooManyColumns (length matrix)))
  /\ (Exists (fun column => 127 < length column) matrix -> threw (sizeOfMatrix matrix)).
Proof.
  repeat split.
  - apply sizeOfArray_ok.
  - intros H. unfold sizeOfArray. now rewrite H.
  - intros H. unfold sizeOfArray, MAX_ARRAY_LENGTH.
    destruct (length array =? 0) eqn:E0; [apply Nat.eqb_eq in E0; lia|].
    apply Nat.ltb_lt in H. now rewrite H.
  - apply sizeOfMatrix_ok.
  - intros H. unfold sizeOfMatrix, MAX_ARRAY_LENGTH.
    apply Nat.ltb_lt in H. now rewrite H.
  - intros H. unfold sizeOfMatrix.
    destruct (MAX_ARRAY_LENGTH <? length matrix); [eexists; reflexivity|].
    apply add_columns_throws. eapply Exists_impl; [|exact H]. simpl. intros; lia.
Qed.

Lemma size_limits_witness :
  sizeOfArray [[1; 2]%Z; [3]%Z] = Ok 4
  /\ sizeOfArray [] = Throw ArrayZeroLength
  /\ sizeOfArray (repeat [] 257) = Throw (ArrayTooLong 257)
  /\ sizeOfMatrix [[[1; 2]%Z]; []] = Ok 5
  /\ sizeOfMatrix (repeat [] 257) = Throw (MatrixTooManyColumns 257)
  /\ threw (sizeOfMatrix [repeat [] 128]).
Proof.
  refine (conj _ (conj _ (conj _ (conj _ (conj _ _))))).
  - apply (proj1 (size_limits [[1; 2]%Z; [3]%Z] [])). simpl. lia.
  - apply (proj1 (proj2 (size_limits [] []))). reflexivity.
  - apply (proj1 (proj2 (proj2 (size_limits (repeat [] 257) [])))).
    rewrite repeat_length. lia.
  - apply (proj1 (proj2 (proj2 (proj2 (size_limits [] [[[1; 2]%Z]; []]))))).
    + simpl. lia.
    + repeat constructor; simpl; lia.
  - apply (proj1 (proj2 (proj2 (proj2 (proj2 (size_limits [] (repeat [] 257))))))).
    rewrite repeat_length. lia.
  - apply (proj2 (proj2 (proj2 (proj2 (proj2 (size_limits [] [repeat [] 128])))))).
    apply Exists_cons_hd. rewrite repeat_length. lia.
Defined.

(** C6, as stated, fails at the empty array: it has at most 256 entries and
    size computation rejects it. *)
Lemma size_limits_empty_array_rejected :
  length (@nil Buffer) <= 256 /\ sizeOfArray [] = Throw ArrayZeroLength.
Proof. split; [simpl; lia | reflexivity]. Qed.

(** The guard of [sizeOfMatrix] also rejects a column of exactly 127 entries,
    the length its own message names as the largest allowed. *)
Lemma sizeOfMatrix_column_127 :
  sizeOfMatrix [repeat [] 127] = Throw (MatrixColumnTooLong 127).
Proof. reflexivity. Qed.

End SizeofFacts.

(** ** The [sizeOf] of [sizeof.ts] *)

Module SizeofProofFacts.
Import Sizeof SizeofProof SizeofFacts.

(** The total is the sum of the four parts, and the leaf part is one count
    byte plus the bytes of the leaves. *)
Lemma sizeOf_total proof hashDigestSize sz :
  sizeOf proof hashDigestSize = Ok sz ->
  total sz = size_evData sz + size_evProof sz + size_lcProof sz + ld_total (size_ldProof sz)
  /\ size_evData sz = 1 + sum_lengths (values proof).
Proof.
  unfold sizeOf. cbv zeta.
  destruct (sizeOfMatrix (nodes (evProof proof))) as [m1|e]; [|discriminate].
  cbn [bind].
  destruct (sizeOfMatrix (nodes (lcProof proof))) as [m2|e]; [|discriminate].
  cbn [bind].
  destruct (add_levels 1 [] hashDigestSize (components (ldProof proof)))
    as [[ldSize ldLevels]|e]; [|discriminate].
  cbn [bind].
  destruct (sizeOfArray (remainder (ldProof proof))) as [r|e]; [|discriminate].
  cbn [bind]. intros H. injection H as <-.
  cbn [total size_evData size_evProof size_lcProof size_ldProof ld_total].
  rewrite add_lengths_sum. lia.
Qed.


(** The list of leaves at the top of this proof layout is not under that
    guard: with no leaves the size is computed, the leaf part being the count
    byte alone. *)
Lemma sizeOf_no_leaves :
  sizeOf (mkStarkProof [] (mkRooted [1; 2] [] 0) (mkRooted [3; 4] [] 0)
            (mkLdProof [] [[5; 6]]))%Z 2
  = Ok (mkSize 1 4 4 (mkLdSize [3] 4) 13).
Proof. reflexivity. Qed.

End SizeofProofFacts.

(** ** In-place writes and reads of a buffer *)

Module BufferFacts.

Lemma allocUnsafe_length junk n : length (allocUnsafe junk n) = n.
Proof. unfold allocUnsafe. now rewrite length_map, length_seq. Qed.

Lemma splice_length buf off d :
  off + length d <= length buf -> length (splice buf off d) = length buf.
Proof.
  intros H. unfold splice.
  rewrite !length_app, length_firstn, length_skipn. lia.
Qed.

Lemma splice_nil buf off : off <= length buf -> splice buf off [] = buf.
Proof.
  intros H. unfold splice. simpl. rewrite Nat.add_0_r. apply firstn_skipn.
Qed.

Lemma splice_all buf d : length d = length buf -> splice buf 0 d = d.
Proof.
  intros H. unfold splice. simpl.
  rewrite skipn_all2 by lia. apply app_nil_r.
Qed.

Lemma splice_splice buf off d1 d2 :
  off + length d1 + length d2 <= length buf ->
  splice (splice buf off d1) (off + length d1) d2 = splice buf off (d1 ++ d2).
Proof.
  intros H. unfold splice.
  assert (Hf : length (firstn off buf) = off) by (rewrite length_firstn; lia).
  rewrite firstn_app, Hf.
  rewrite (firstn_all2 (n := off + length d1) (firstn off buf)) by lia.
  replace (off + length d1 - off) with (length d1) by lia.
  rewrite firstn_app, firstn_all, Nat.sub_diag, firstn_O, app_nil_r.
  rewrite skipn_app, Hf.
  rewrite (skipn_all2 (n := off + length d1 + length d2) (firstn off buf)) by lia.
  replace (off + length d1 + length d2 - off) with (length d1 + length d2) by lia.
  rewrite skipn_app.
  rewrite (skipn_all2 (n := length d1 + length d2) d1) by lia.
  replace (length d1 + length d2 - length d1) with (length d2) by lia.
  rewrite skipn_skipn, length_app.
  replace (length d2 + (off + length d1)) with (off + (length d1 + length d2)) by lia.
  simpl. now rewrite <- !app_assoc.
Qed.

Lemma writes_ext W W' d :
  (forall buf off, W buf off = W' buf off) -> writes W d -> writes W' d.
Proof. intros E H buf off Hle. rewrite <- E. now apply H. Qed.

Lemma writes_ret : writes (fun b o => Ok (b, o)) [].
Proof.
  intros buf off H. simpl in *. rewrite splice_nil by lia.
  now rewrite Nat.add_0_r.
Qed.

Lemma writes_bind W1 W2 d1 d2 :
  writes W1 d1 -> writes W2 d2 ->
  writes (fun b o => let* (b, o) := W1 b o in W2 b o) (d1 ++ d2).
Proof.
  intros H1 H2 buf off Hle. rewrite length_app in Hle.
  rewrite H1 by lia. cbn [bind].
  rewrite H2 by (rewrite splice_length; lia).
  rewrite splice_splice by lia.
  now rewrite length_app, Nat.add_assoc.
Qed.

Lemma writes_copyTo src :
  writes (fun b o => let* (b, n) := copyTo src b o in Ok (b, o + n)) src.
Proof.
  intros buf off Hle. unfold copyTo, copy.
  replace (length src <? 0) with false by (symmetry; now apply Nat.ltb_ge; lia).
  destruct src as [|x src'].
  - simpl in *. replace (length buf <=? off) with (length buf <=? off) by reflexivity.
    rewrite orb_true_r. cbn [bind]. rewrite splice_nil by lia. now rewrite Nat.add_0_r.
  - remember (x :: src') as src eqn:Es.
    assert (Hpos : 0 < length src) by (subst; simpl; lia).
    replace (length buf <=? off) with false by (symmetry; apply Nat.leb_gt; lia).
    replace (length src <=? 0) with false by (symmetry; apply Nat.leb_gt; lia).
    cbn [orb bind].
    rewrite Nat.sub_0_r.
    replace (Nat.min (Nat.min (length src) (length buf - off)) (length src))
      with (length src) by lia.
    now rewrite skipn_O, firstn_all.
Qed.

Lemma writes_writeUInt8 v :
  (0 <= v <= 255)%Z -> writes (fun b o => writeUInt8 b v o) [v].
Proof.
  intros Hv buf off Hle. unfold writeUInt8. simpl in Hle.
  replace (0 <=? v)%Z with true by (symmetry; apply Z.leb_le; lia).
  replace (v <=? 255)%Z with true by (symmetry; apply Z.leb_le; lia).
  replace (off + 1 <=? length buf) with true by (symmetry; apply Nat.leb_le; lia).
  reflexivity.
Qed.

Lemma writeUInt8_ok_inv b v o r :
  writeUInt8 b v o = Ok r -> (0 <= v <= 255)%Z.
Proof.
  unfold writeUInt8.
  destruct (0 <=? v)%Z eqn:E1; [|discriminate].
  destruct (v <=? 255)%Z eqn:E2; [|discriminate].
  intros _. apply Z.leb_le in E1, E2. lia.
Qed.

Lemma uint32le_length v : length (uint32le v) = 4.
Proof. reflexivity. Qed.

Lemma writes_writeUInt32LE v :
  (0 <= v <= 4294967295)%Z -> writes (fun b o => writeUInt32LE b v o) (uint32le v).
Proof.
  intros Hv buf off Hle. unfold writeUInt32LE. rewrite uint32le_length in *.
  replace (0 <=? v)%Z with true by (symmetry; apply Z.leb_le; lia).
  replace (v <=? 4294967295)%Z with true by (symmetry; apply Z.leb_le; lia).
  replace (off + 4 <=? length buf) with true by (symmetry; apply Nat.leb_le; lia).
  reflexivity.
Qed.

Lemma writeUInt32LE_ok_inv b v o r :
  writeUInt32LE b v o = Ok r -> (0 <= v <= 4294967295)%Z.
Proof.
  unfold writeUInt32LE.
  destruct (0 <=? v)%Z eqn:E1; [|discriminate].
  destruct (v <=? 4294967295)%Z eqn:E2; [|discriminate].
  intros _. apply Z.leb_le in E1, E2. lia.
Qed.

Lemma writes_for_of {A} (xs : list A) body (enc : A -> list Z) :
  Forall (fun x => writes (body x) (enc x)) xs ->
  writes (for_of xs body) (flat_map enc xs).
Proof.
  induction 1 as [|x rest Hx _ IH]; cbn [for_of flat_map].
  - apply writes_ret.
  - exact (writes_bind _ _ _ _ Hx IH).
Qed.

Lemma for_of_ok_inv {A} (xs : list A) body b o r :
  for_of xs body b o = Ok r ->
  Forall (fun x => exists b o r, body x b o = Ok r) xs.
Proof.
  revert b o. induction xs as [|x rest IH]; intros b o; cbn [for_of].
  - constructor.
  - intros H. apply bind_ok in H as ([b' o'] & H1 & H2).
    constructor; eauto.
Qed.

Lemma copy_keeps src tgt ts ss se t' n :
  copy src tgt ts ss se = Ok (t', n) -> length t' = length tgt.
Proof.
  unfold copy.
  destruct (length src <? ss); [discriminate|].
  destruct ((length tgt <=? ts) || (se <=? ss)) eqn:E.
  - now intros [= <- _].
  - apply orb_false_iff in E as [E1 _]. apply Nat.leb_gt in E1.
    intros [= <- _]. apply splice_length.
    rewrite length_firstn. lia.
Qed.

Lemma keeps_ret : keeps (fun b o => Ok (b, o)).
Proof. intros b o b' o' [= <- _]. reflexivity. Qed.

Lemma keeps_bind W1 W2 :
  keeps W1 -> keeps W2 -> keeps (fun b o => let* (b, o) := W1 b o in W2 b o).
Proof.
  intros H1 H2 b o b' o' H.
  apply bind_ok in H as ([b1 o1] & E1 & E2).
  rewrite (H2 _ _ _ _ E2). eapply H1; eauto.
Qed.

Lemma keeps_copyTo src :
  keeps (fun b o => let* (b, n) := copyTo src b o in Ok (b, o + n)).
Proof.
  intros b o b' o' H.
  apply bind_ok in H as ([b1 n] & E1 & E2). injection E2 as <- _.
  eapply copy_keeps; eauto.
Qed.

Lemma keeps_writeUInt8 v : keeps (fun b o => writeUInt8 b v o).
Proof.
  intros b o b' o'. unfold writeUInt8.
  destruct ((0 <=? v)%Z && (v <=? 255)%Z && (o + 1 <=? length b)) eqn:E; [|discriminate].
  apply andb_true_iff in E as [_ E]. apply Nat.leb_le in E.
  intros [= <- _]. apply splice_length. simpl. lia.
Qed.

Lemma keeps_writeUInt32LE v : keeps (fun b o => writeUInt32LE b v o).
Proof.
  intros b o b' o'. unfold writeUInt32LE.
  destruct ((0 <=? v)%Z && (v <=? 4294967295)%Z && (o + 4 <=? length b)) eqn:E;
    [|discriminate].
  apply andb_true_iff in E as [_ E]. apply Nat.leb_le in E.
  intros [= <- _]. apply splice_length. rewrite uint32le_length. lia.
Qed.

Lemma keeps_for_of {A} (xs : list A) body :
  (forall x, keeps (body x)) -> keeps (for_of xs body).
Proof.
  intros Hb. induction xs as [|x rest IH]; cbn [for_of].
  - apply keeps_ret.
  - exact (keeps_bind _ _ (Hb x) IH).
Qed.

End BufferFacts.

(** ** The writers of [./utils] and of the serializer write the wire format *)

Module WriterFacts.
Import Sizeof Utils Wire BufferFacts.

Lemma flat_map_id {A} (l : list (list A)) : flat_map (fun x => x) l = concat l.
Proof. induction l as [|x l IH]; simpl; [reflexivity | now rewrite IH]. Qed.

Lemma flat_map_singleton {A B} (f : A -> B) l : flat_map (fun x => [f x]) l = map f l.
Proof. induction l as [|x l IH]; simpl; [reflexivity | now rewrite IH]. Qed.

Lemma flat_map_flat_id {A} (m : list (list (list A))) :
  flat_map (fun c => flat_map (fun x => x) c) m = concat (map (@concat A) m).
Proof.
  induction m as [|c m IH]; simpl; [reflexivity|].
  now rewrite IH, flat_map_id.
Qed.

Lemma count_byte_range n : n <= 256 -> (0 <= count_byte n <= 255)%Z.
Proof.
  intros H. unfold count_byte. destruct (n =? 256) eqn:E; [lia|].
  apply Nat.eqb_neq in E. lia.
Qed.

Lemma writes_writeArray array :
  length array <= 256 ->
  writes (fun b o => writeArray b o array) (enc_array array).
Proof.
  intros H. unfold enc_array. rewrite <- flat_map_id.
  exact (writes_bind _ _ [_] _
           (writes_writeUInt8 _ (count_byte_range _ H))
           (writes_for_of array _ (fun x => x)
              (proj2 (Forall_forall _ _) (fun x _ => writes_copyTo x)))).
Qed.

Lemma writes_writeMatrix matrix :
  length matrix <= 255 ->
  Forall (fun column => length column <= 255) matrix ->
  writes (fun b o => writeMatrix b o matrix) (enc_matrix matrix).
Proof.
  intros H HF. unfold enc_matrix.
  rewrite <- flat_map_singleton, <- flat_map_flat_id.
  refine (writes_bind _ _ [_] _ (writes_writeUInt8 _ _)
            (writes_bind _ _ _ _ (writes_for_of matrix _ _ _) (writes_for_of matrix _ _ _))).
  - lia.
  - eapply Forall_impl; [|exact HF]. intros column Hc. cbv beta in Hc.
    apply writes_writeUInt8. lia.
  - apply Forall_forall. intros column _.
    apply writes_for_of. apply Forall_forall. intros x _. apply writes_copyTo.
Qed.

Lemma writeMatrix_ok_inv b o matrix r :
  writeMatrix b o matrix = Ok r -> length matrix <= 255.
Proof.
  unfold writeMatrix. intros H.
  apply bind_ok in H as ([b' o'] & H1 & _).
  apply writeUInt8_ok_inv in H1. lia.
Qed.

Lemma writes_writeMerkleProof proof leafSize :
  length (values proof) <= 256 ->
  Forall (fun column => length column <= 255) (nodes proof) ->
  fits_merkle proof ->
  writes (fun b o => writeMerkleProof b o proof leafSize) (enc_merkle proof).
Proof.
  intros Hv Hc [Hn Hd]. unfold enc_merkle.
  exact (writes_bind _ _ _ _ (writes_writeArray _ Hv)
           (writes_bind _ _ _ [_] (writes_writeMatrix _ Hn Hc) (writes_writeUInt8 _ Hd))).
Qed.

Lemma writeMerkleProof_ok_inv b o proof leafSize r :
  writeMerkleProof b o proof leafSize = Ok r -> fits_merkle proof.
Proof.
  unfold writeMerkleProof. intros H.
  apply bind_ok in H as ([b1 o1] & _ & H).
  apply bind_ok in H as ([b2 o2] & H2 & H3).
  split.
  - eapply writeMatrix_ok_inv; eauto.
  - eapply writeUInt8_ok_inv; eauto.
Qed.

Lemma le_bytes_length n v : length (le_bytes n v) = n.
Proof. revert v. induction n as [|n IH]; intros v; simpl; [reflexivity | now rewrite IH]. Qed.

Lemma writes_writeBigInt v elementSize :
  writes (fun b o => writeBigInt v b o elementSize) (le_bytes elementSize v).
Proof.
  intros buf off Hle. unfold writeBigInt. rewrite le_bytes_length in *.
  replace (off + elementSize <=? length buf) with true
    by (symmetry; apply Nat.leb_le; lia).
  reflexivity.
Qed.

Lemma keeps_writeArray array : keeps (fun b o => writeArray b o array).
Proof.
  exact (keeps_bind _ _ (keeps_writeUInt8 _)
           (keeps_for_of array _ (fun x => keeps_copyTo x))).
Qed.

Lemma keeps_writeMatrix matrix : keeps (fun b o => writeMatrix b o matrix).
Proof.
  refine (keeps_bind _ _ (keeps_writeUInt8 _)
            (keeps_bind _ _ (keeps_for_of matrix _ _) (keeps_for_of matrix _ _))).
  - intros column. apply keeps_writeUInt8.
  - intros column. apply keeps_for_of. intros x. apply keeps_copyTo.
Qed.

Lemma keeps_writeMerkleProof proof leafSize :
  keeps (fun b o => writeMerkleProof b o proof leafSize).
Proof.
  exact (keeps_bind _ _ (keeps_writeArray _)
           (keeps_bind _ _ (keeps_writeMatrix _) (keeps_writeUInt8 _))).
Qed.

Lemma keeps_writeBigInt v elementSize : keeps (fun b o => writeBigInt v b o elementSize).
Proof.
  intros b o b' o'. unfold writeBigInt.
  destruct (o + elementSize <=? length b) eqn:E; [|discriminate].
  apply Nat.leb_le in E.
  intros [= <- _]. apply splice_length. rewrite le_bytes_length. lia.
Qed.

Import Serializer.

Lemma keeps_writeComponent ldLeafSize c : keeps (writeComponent ldLeafSize c).
Proof.
  intros b o b' o' H. unfold writeComponent in H.
  apply bind_ok in H as ([b1 n] & E1 & H).
  apply bind_ok in H as ([b2 o2] & E2 & E3).
  rewrite (keeps_writeMerkleProof _ _ _ _ _ _ E3),
    (keeps_writeMerkleProof _ _ _ _ _ _ E2).
  eapply copy_keeps; eauto.
Qed.

Lemma keeps_writeRemainder this remainder : keeps (writeRemainder this remainder).
Proof.
  exact (keeps_bind _ _ (keeps_writeUInt8 _)
           (keeps_for_of remainder _ (fun v => keeps_writeBigInt v _))).
Qed.

Lemma keeps_writeTraceShape traceShape : keeps (writeTraceShape traceShape).
Proof.
  exact (keeps_bind _ _ (keeps_writeUInt8 _)
           (keeps_for_of traceShape _ (fun v => keeps_writeUInt32LE v))).
Qed.

Lemma writes_writeComponent ldLeafSize c :
  length (values (columnProof c)) <= 256 ->
  Forall (fun column => length column <= 255) (nodes (columnProof c)) ->
  fits_merkle (columnProof c) ->
  length (values (polyProof c)) <= 256 ->
  Forall (fun column => length column <= 255) (nodes (polyProof c)) ->
  fits_merkle (polyProof c) ->
  writes (writeComponent ldLeafSize c) (enc_component c).
Proof.
  intros A1 A2 A3 B1 B2 B3. unfold enc_component.
  pose proof (writes_bind _ _ _ _ (writes_copyTo (columnRoot c))
           (writes_bind _ _ _ _ (writes_writeMerkleProof _ ldLeafSize A1 A2 A3)
                        (writes_writeMerkleProof _ ldLeafSize B1 B2 B3))) as H.
  eapply writes_ext; [|exact H].
  intros buf off. unfold writeComponent. cbn beta.
  destruct (copyTo (columnRoot c) buf off) as [[b n]|e]; reflexivity.
Qed.

Lemma writeComponent_ok_inv ldLeafSize c b o r :
  writeComponent ldLeafSize c b o = Ok r ->
  fits_merkle (columnProof c) /\ fits_merkle (polyProof c).
Proof.
  unfold writeComponent. intros H.
  apply bind_ok in H as ([b1 n] & _ & H).
  apply bind_ok in H as ([b2 o2] & H2 & H3).
  split; eapply writeMerkleProof_ok_inv; eauto.
Qed.

Lemma writes_writeRemainder this remainder :
  length remainder <= 256 ->
  writes (writeRemainder this remainder)
         (enc_remainder (fieldElementSize this) remainder).
Proof.
  intros H. unfold enc_remainder.
  exact (writes_bind _ _ [_] _
           (writes_writeUInt8 _ (count_byte_range _ H))
           (writes_for_of remainder _ _
              (proj2 (Forall_forall _ _)
                 (fun v _ => writes_writeBigInt v (fieldElementSize this))))).
Qed.

Lemma writes_writeTraceShape traceShape :
  length traceShape <= 255 ->
  Forall (fun level => (0 <= level <= 4294967295)%Z) traceShape ->
  writes (writeTraceShape traceShape) (enc_shape traceShape).
Proof.
  intros H HF. unfold enc_shape.
  refine (writes_bind _ _ [_] _ (writes_writeUInt8 _ _) (writes_for_of traceShape _ _ _)).
  - lia.
  - eapply Forall_impl; [|exact HF]. intros level Hl. now apply writes_writeUInt32LE.
Qed.

Lemma writeTraceShape_ok_inv traceShape b o r :
  writeTraceShape traceShape b o = Ok r ->
  length traceShape <= 255
  /\ Forall (fun level => (0 <= level <= 4294967295)%Z) traceShape.
Proof.
  unfold writeTraceShape. intros H.
  apply bind_ok in H as ([b1 o1] & H1 & H2).
  apply writeUInt8_ok_inv in H1. split; [lia|].
  apply for_of_ok_inv in H2.
  eapply Forall_impl; [|exact H2].
  intros level (b' & o' & r' & Hw). eapply writeUInt32LE_ok_inv; eauto.
Qed.

End WriterFacts.

(** ** Size computation agrees with the wire format *)

Module SizeFacts.
Import Sizeof Utils Wire BufferFacts SizeofFacts WriterFacts.

Lemma concat_length_sum (bs : list Buffer) : length (concat bs) = sum_lengths bs.
Proof.
  induction bs as [|b bs IH]; simpl; [reflexivity|].
  now rewrite length_app, IH.
Qed.

Lemma concat_concat_length (m : list (list Buffer)) :
  length (concat (map (@concat Z) m)) = sum_columns m.
Proof.
  induction m as [|c m IH]; simpl; [reflexivity|].
  now rewrite length_app, IH, concat_length_sum.
Qed.

Lemma enc_array_length a : length (enc_array a) = 1 + sum_lengths a.
Proof. unfold enc_array. simpl. now rewrite concat_length_sum. Qed.

Lemma enc_matrix_length m : length (enc_matrix m) = 1 + length m + sum_columns m.
Proof.
  unfold enc_matrix. simpl.
  now rewrite length_app, length_map, concat_concat_length.
Qed.

Lemma enc_merkle_length mp :
  length (enc_merkle mp)
  = 1 + sum_lengths (values mp) + (1 + length (nodes mp) + sum_columns (nodes mp)) + 1.
Proof.
  unfold enc_merkle.
  rewrite !length_app, enc_array_length, enc_matrix_length. simpl. lia.
Qed.

Lemma sizeOfMerkleProof_ok mp :
  sizable_merkle mp -> sizeOfMerkleProof mp = Ok (length (enc_merkle mp)).
Proof.
  intros (Hv & Hn & Hc). unfold sizeOfMerkleProof.
  rewrite (sizeOfArray_ok _ Hv). cbn [bind].
  rewrite (sizeOfMatrix_ok _ Hn Hc). cbn [bind].
  rewrite enc_merkle_length. f_equal.
Qed.

Lemma sizeOfMerkleProof_ok_inv mp n :
  sizeOfMerkleProof mp = Ok n -> sizable_merkle mp /\ n = length (enc_merkle mp).
Proof.
  unfold sizeOfMerkleProof. intros H.
  apply bind_ok in H as (a & Ha & H).
  apply bind_ok in H as (m & Hm & H).
  apply sizeOfArray_ok_inv in Ha as (Hv & ->).
  apply sizeOfMatrix_ok_inv in Hm as (Hn & Hc & ->).
  injection H as <-.
  split; [repeat split; auto; lia | rewrite enc_merkle_length; reflexivity].
Qed.

Lemma add_components_ok ld hds cs :
  Forall (fun c => sizable_merkle (columnProof c) /\ sizable_merkle (polyProof c)) cs ->
  add_components ld hds cs = Ok (ld + components_size hds cs).
Proof.
  intros H. revert ld.
  induction H as [|c cs [Hc Hp] _ IH]; intros ld;
    cbn [add_components components_size fold_right].
  - f_equal. lia.
  - rewrite (sizeOfMerkleProof_ok _ Hc). cbn [bind].
    rewrite (sizeOfMerkleProof_ok _ Hp). cbn [bind].
    rewrite IH. f_equal. fold (components_size hds cs). lia.
Qed.

Lemma add_components_ok_inv ld hds cs n :
  add_components ld hds cs = Ok n ->
  Forall (fun c => sizable_merkle (columnProof c) /\ sizable_merkle (polyProof c)) cs.
Proof.
  revert ld. induction cs as [|c cs IH]; intros ld; cbn [add_components].
  - constructor.
  - intros H.
    apply bind_ok in H as (a & Ha & H).
    apply bind_ok in H as (b & Hb & H).
    apply sizeOfMerkleProof_ok_inv in Ha as (Ha & _).
    apply sizeOfMerkleProof_ok_inv in Hb as (Hb & _).
    constructor; eauto.
Qed.

Lemma sizeOf_ok p fes hds :
  sizable p ->
  exists sz, sizeOf p fes hds = Ok sz /\ total sz = wire_size fes hds p.
Proof.
  intros (Hev & Hlc & Hcs & Hr). unfold sizeOf.
  rewrite (sizeOfMerkleProof_ok _ Hev). cbn [bind].
  rewrite (sizeOfMerkleProof_ok _ Hlc). cbn [bind].
  rewrite (add_components_ok _ _ _ Hcs). cbn [bind].
  unfold MAX_ARRAY_LENGTH.
  destruct (256 <? length (remainder (ldProof p))) eqn:E1;
    [apply Nat.ltb_lt in E1; lia|].
  cbn [bind]. eexists. split; [reflexivity|].
  cbn [total]. unfold wire_size. lia.
Qed.

Lemma sizeOf_ok_inv p fes hds sz :
  sizeOf p fes hds = Ok sz -> sizable p /\ total sz = wire_size fes hds p.
Proof.
  intros H. assert (Hs : sizable p).
  { unfold sizeOf in H.
    apply bind_ok in H as (a & Ha & H).
    apply bind_ok in H as (b & Hb & H).
    apply bind_ok in H as (c & Hc & H).
    apply bind_ok in H as (d & Hd & H).
    apply sizeOfMerkleProof_ok_inv in Ha as (Ha & _).
    apply sizeOfMerkleProof_ok_inv in Hb as (Hb & _).
    apply add_components_ok_inv in Hc.
    unfold MAX_ARRAY_LENGTH in Hd.
    destruct (256 <? length (remainder (ldProof p))) eqn:E1; [discriminate|].
    apply Nat.ltb_ge in E1.
    refine (conj Ha (conj Hb (conj Hc _))); lia. }
  split; [exact Hs|].
  destruct (sizeOf_ok p fes hds Hs) as (sz' & E & Ht).
  rewrite E in H. now injection H as <-.
Qed.

Lemma flat_map_length_const {A} (f : A -> list Z) n l :
  (forall x, length (f x) = n) -> length (flat_map f l) = length l * n.
Proof.
  intros Hf. induction l as [|x l IH]; simpl; [reflexivity|].
  now rewrite length_app, IH, Hf.
Qed.

Lemma enc_components_length hds cs :
  Forall (fun c => length (columnRoot c) = hds) cs ->
  length (flat_map enc_component cs) = components_size hds cs.
Proof.
  induction 1 as [|c cs Hc _ IH]; cbn [flat_map components_size fold_right];
    [reflexivity|].
  rewrite length_app, IH. unfold enc_component.
  rewrite !length_app, Hc. fold (components_size hds cs). lia.
Qed.

Lemma enc_remainder_length fes r :
  length (enc_remainder fes r) = 1 + length r * fes.
Proof.
  unfold enc_remainder. simpl.
  now rewrite (flat_map_length_const _ fes r (fun v => le_bytes_length fes v)).
Qed.

Lemma enc_shape_length s : length (enc_shape s) = 1 + 4 * length s.
Proof.
  unfold enc_shape. simpl.
  rewrite (flat_map_length_const _ 4 s uint32le_length). lia.
Qed.

Lemma enc_proof_length fes hds p :
  length (evRoot p) = hds ->
  length (lcRoot (ldProof p)) = hds ->
  Forall (fun c => length (columnRoot c) = hds) (components (ldProof p)) ->
  length (enc_proof fes p) = wire_size fes hds p.
Proof.
  intros H1 H2 H3. unfold enc_proof, enc_head, wire_size.
  repeat (rewrite length_app || cbn [length]).
  rewrite (enc_components_length hds _ H3),
    enc_remainder_length, enc_shape_length, H1, H2.
  lia.
Qed.

End SizeFacts.

(** ** [serializeProof] produces the wire format *)

Module SerializeFacts.
Import Sizeof Utils Wire BufferFacts SizeofFacts WriterFacts SizeFacts Serializer.

Lemma writes_step W d buf0 acc :
  writes W d ->
  length acc + length d <= length buf0 ->
  W (splice buf0 0 acc) (length acc)
  = Ok (splice buf0 0 (acc ++ d), length (acc ++ d)).
Proof.
  intros Hw Hle.
  rewrite Hw by (rewrite splice_length; simpl; lia).
  change (length acc) with (0 + length acc) at 1.
  rewrite splice_splice by (simpl; lia).
  now rewrite length_app.
Qed.

Lemma copyTo_run src buf off :
  off + length src <= length buf ->
  copyTo src buf off = Ok (splice buf off src, length src).
Proof.
  intros Hle. pose proof (writes_copyTo src buf off Hle) as H. cbv beta in H.
  destruct (copyTo src buf off) as [[b n]|e]; [|discriminate].
  cbn [bind] in H. injection H as -> Hn. f_equal. f_equal. lia.
Qed.

Lemma copyTo_step src buf0 acc :
  length acc + length src <= length buf0 ->
  copyTo src (splice buf0 0 acc) (length acc)
  = Ok (splice buf0 0 (acc ++ src), length src).
Proof.
  intros Hle.
  rewrite copyTo_run by (rewrite splice_length; simpl; lia).
  change (length acc) with (0 + length acc).
  now rewrite splice_splice by (simpl; lia).
Qed.

Lemma sizable_merkle_writable mp :
  sizable_merkle mp ->
  length (values mp) <= 256
  /\ Forall (fun column => length column <= 255) (nodes mp).
Proof.
  intros (Hv & _ & Hc). split; [lia|].
  eapply Forall_impl; [|exact Hc]. simpl. intros; lia.
Qed.

Lemma writes_merkle mp leafSize :
  sizable_merkle mp -> fits_merkle mp ->
  writes (fun b o => writeMerkleProof b o mp leafSize) (enc_merkle mp).
Proof.
  intros Hs Hf. destruct (sizable_merkle_writable _ Hs) as [Hv Hc].
  now apply writes_writeMerkleProof.
Qed.

Lemma writes_components ldLeafSize cs :
  Forall (fun c => sizable_merkle (columnProof c) /\ sizable_merkle (polyProof c)) cs ->
  Forall (fun c => fits_merkle (columnProof c) /\ fits_merkle (polyProof c)) cs ->
  writes (for_of cs (writeComponent ldLeafSize)) (flat_map enc_component cs).
Proof.
  intros Hs Hf. apply writes_for_of.
  apply Forall_forall. intros c Hin.
  rewrite Forall_forall in Hs, Hf.
  destruct (Hs c Hin) as [S1 S2]. destruct (Hf c Hin) as [F1 F2].
  destruct (sizable_merkle_writable _ S1) as [A1 A2].
  destruct (sizable_merkle_writable _ S2) as [B1 B2].
  now apply writes_writeComponent.
Qed.

(** An accepted proof whose digests have the configured size is written out
    as its wire format, whatever the allocated memory held. *)
Lemma serializeProof_ok this junk p :
  roots_sized (hashDigestSize this) p -> sizable p -> fits p ->
  serializeProof this junk p = Ok (enc_proof (fieldElementSize this) p).
Proof.
  intros (R1 & R2 & R3) Hs Hf.
  pose proof Hs as (S1 & S2 & S3 & S4).
  destruct Hf as (F1 & F2 & F3 & F4 & F5 & F6).
  unfold serializeProof.
  destruct (sizeOf_ok p (fieldElementSize this) (hashDigestSize this) Hs) as (sz & E & Ht).
  rewrite E. cbn [bind].
  set (buf0 := allocUnsafe junk (total sz)).
  assert (Hlen : length buf0 = length (enc_proof (fieldElementSize this) p)).
  { unfold buf0. rewrite allocUnsafe_length, Ht. symmetry.
    now apply enc_proof_length. }
  unfold enc_proof, enc_head in *.
  set (d1 := evRoot p) in *.
  set (d2 := enc_merkle (evProof p)) in *.
  set (d3 := lcRoot (ldProof p)) in *.
  set (d4 := enc_merkle (lcProof (ldProof p))) in *.
  set (d5 := Z.of_nat (length (components (ldProof p)))) in *.
  set (d6 := flat_map enc_component (components (ldProof p))) in *.
  set (d7 := enc_remainder (fieldElementSize this) (remainder (ldProof p))) in *.
  set (d8 := enc_shape (traceShape p)) in *.
  repeat (rewrite length_app in Hlen || cbn [length] in Hlen).
  rewrite copyTo_run by (simpl; lia). cbn [bind].
  pose proof (writes_step _ _ buf0 d1 (writes_merkle (evProof p)
                (getValueCount this * fieldElementSize this) S1 F1)) as W2.
  cbv beta in W2. fold d2 in W2. rewrite W2 by lia. cbn [bind]. clear W2.
  rewrite copyTo_step by (repeat (rewrite length_app || cbn [length]); lia). cbn [bind].
  rewrite <- length_app.
  pose proof (writes_step _ _ buf0 ((d1 ++ d2) ++ d3) (writes_merkle (lcProof (ldProof p))
                (fieldElementSize this * 4) S2 F2)) as W4.
  cbv beta in W4. fold d4 in W4.
  rewrite W4 by (repeat (rewrite length_app || cbn [length]); lia). cbn [bind]. clear W4.
  assert (Hd5 : (0 <= d5 <= 255)%Z) by (unfold d5; lia).
  pose proof (writes_step _ _ buf0 (((d1 ++ d2) ++ d3) ++ d4)
                (writes_writeUInt8 d5 Hd5)) as W5.
  cbv beta in W5. rewrite W5 by (repeat (rewrite length_app || cbn [length]); lia). cbn [bind]. clear W5.
  pose proof (writes_step _ _ buf0 ((((d1 ++ d2) ++ d3) ++ d4) ++ [d5])
                (writes_components (fieldElementSize this * 4) _ S3 F4)) as W6.
  fold d6 in W6. rewrite W6 by (repeat (rewrite length_app || cbn [length]); lia). cbn [bind]. clear W6.
  pose proof (writes_step _ _ buf0 (((((d1 ++ d2) ++ d3) ++ d4) ++ [d5]) ++ d6)
                (writes_writeRemainder this (remainder (ldProof p)) S4)) as W7.
  fold d7 in W7. rewrite W7 by (repeat (rewrite length_app || cbn [length]); lia). cbn [bind]. clear W7.
  pose proof (writes_step _ _ buf0 ((((((d1 ++ d2) ++ d3) ++ d4) ++ [d5]) ++ d6) ++ d7)
                (writes_writeTraceShape (traceShape p) F5 F6)) as W8.
  fold d8 in W8. rewrite W8 by (repeat (rewrite length_app || cbn [length]); lia). cbn [bind]. clear W8.
  rewrite splice_all by (repeat (rewrite length_app || cbn [length]); lia).
  f_equal. repeat rewrite <- app_assoc. reflexivity.
Qed.

(** What acceptance by [serializeProof] implies about the proof. *)
Lemma serializeProof_ok_inv this junk p buf :
  serializeProof this junk p = Ok buf ->
  (exists sz, sizeOf p (fieldElementSize this) (hashDigestSize this) = Ok sz
              /\ length buf = total sz)
  /\ sizable p /\ fits p.
Proof.
  unfold serializeProof. intros H.
  apply bind_ok in H as (sz & Hsz & H).
  destruct (sizeOf_ok_inv _ _ _ _ Hsz) as [Hs _].
  apply bind_ok in H as ([b1 o1] & H1 & H).
  apply bind_ok in H as ([b2 o2] & H2 & H).
  apply bind_ok in H as ([b3 n3] & H3 & H).
  apply bind_ok in H as ([b4 o4] & H4 & H).
  apply bind_ok in H as ([b5 o5] & H5 & H).
  apply bind_ok in H as ([b6 o6] & H6 & H).
  apply bind_ok in H as ([b7 o7] & H7 & H).
  apply bind_ok in H as ([b8 o8] & H8 & H).
  injection H as <-.
  split; [|split; [exact Hs|]].
  - exists sz. split; [exact Hsz|].
    rewrite (keeps_writeTraceShape _ _ _ _ _ H8),
      (keeps_writeRemainder _ _ _ _ _ _ H7),
      (keeps_for_of _ _ (keeps_writeComponent _) _ _ _ _ H6),
      (keeps_writeUInt8 _ _ _ _ _ H5),
      (keeps_writeMerkleProof _ _ _ _ _ _ H4),
      (copy_keeps _ _ _ _ _ _ _ H3),
      (keeps_writeMerkleProof _ _ _ _ _ _ H2),
      (copy_keeps _ _ _ _ _ _ _ H1).
    apply allocUnsafe_length.
  - apply writeMerkleProof_ok_inv in H2, H4.
    apply writeUInt8_ok_inv in H5.
    apply for_of_ok_inv in H6.
    apply writeTraceShape_ok_inv in H8 as [T1 T2].
    refine (conj H2 (conj H4 (conj _ (conj _ (conj T1 T2))))); [lia|].
    eapply Forall_impl; [|exact H6].
    intros c (b & o & r & Hc). eapply writeComponent_ok_inv; eauto.
Qed.

End SerializeFacts.

(** ** The readers of [./utils] and of the serializer read the wire format *)

Module ReaderFacts.
Import Sizeof Utils Wire BufferFacts SizeofFacts WriterFacts SizeFacts Serializer.

Lemma firstn_add {A} a b (l : list A) :
  firstn (a + b) l = firstn a l ++ firstn b (skipn a l).
Proof.
  revert l. induction a as [|a IH]; intros l; simpl; [reflexivity|].
  destruct l as [|x l]; simpl.
  - now rewrite firstn_nil.
  - now rewrite IH.
Qed.

Lemma window_add buf off a b :
  window buf off (a + b) = window buf off a ++ window buf (off + a) b.
Proof.
  unfold window. rewrite firstn_add, skipn_skipn.
  now rewrite (Nat.add_comm a off).
Qed.

Lemma window_length buf off n :
  off + n <= length buf -> length (window buf off n) = n.
Proof. intros H. unfold window. rewrite length_firstn, length_skipn. lia. Qed.

Lemma app_eq_length {A} (l1 l2 d1 d2 : list A) :
  length l1 = length d1 -> l1 ++ l2 = d1 ++ d2 -> l1 = d1 /\ l2 = d2.
Proof.
  revert d1. induction l1 as [|x l1 IH]; intros [|y d1] Hl H; simpl in *; try lia.
  - auto.
  - injection H as -> H. destruct (IH d1 ltac:(lia) H) as [-> ->]. auto.
Qed.

Lemma window_split buf off d1 d2 :
  off + length (d1 ++ d2) <= length buf ->
  window buf off (length (d1 ++ d2)) = d1 ++ d2 ->
  window buf off (length d1) = d1
  /\ window buf (off + length d1) (length d2) = d2.
Proof.
  rewrite length_app. intros Hle H. rewrite window_add in H.
  apply app_eq_length in H; [exact H|].
  apply window_length. lia.
Qed.

Lemma window_mid pre d post :
  window (pre ++ d ++ post) (length pre) (length d) = d.
Proof.
  unfold window. rewrite skipn_app, skipn_all, Nat.sub_diag. simpl.
  rewrite firstn_app, firstn_all, Nat.sub_diag. simpl. apply app_nil_r.
Qed.

Lemma reads_at {A} (R : Buffer -> nat -> result (A * nat)) d a buf pre post :
  buf = pre ++ d ++ post -> reads R d a ->
  R buf (length pre) = Ok (a, length (pre ++ d)).
Proof.
  intros -> H. rewrite length_app. apply H.
  - rewrite !length_app. lia.
  - apply window_mid.
Qed.

Lemma reads_ext {A} (R R' : Buffer -> nat -> result (A * nat)) d a :
  (forall buf off, R buf off = R' buf off) -> reads R d a -> reads R' d a.
Proof. intros E H buf off Hle Hw. rewrite <- E. now apply H. Qed.

Lemma reads_ret {A} (a : A) : reads (fun _ off => Ok (a, off)) [] a.
Proof. intros buf off _ _. simpl. now rewrite Nat.add_0_r. Qed.

Lemma reads_bind {A B} (R1 : Buffer -> nat -> result (A * nat))
  (K : A -> Buffer -> nat -> result (B * nat)) d1 d2 a b :
  reads R1 d1 a -> reads (K a) d2 b ->
  reads (fun buf off => let* (x, off) := R1 buf off in K x buf off) (d1 ++ d2) b.
Proof.
  intros H1 H2 buf off Hle Hw.
  destruct (window_split _ _ _ _ Hle Hw) as [W1 W2].
  rewrite length_app in *.
  rewrite (H1 buf off) by (auto; lia). cbn [bind].
  rewrite (H2 buf (off + length d1)) by (auto; lia).
  now rewrite Nat.add_assoc.
Qed.

Lemma window_one buf off v :
  off + 1 <= length buf -> window buf off 1 = [v] -> nth_error buf off = Some v.
Proof.
  unfold window. intros Hle H.
  rewrite <- (firstn_skipn off buf) at 1.
  rewrite nth_error_app2 by (rewrite length_firstn; lia).
  rewrite length_firstn.
  replace (off - Nat.min off (length buf)) with 0 by lia.
  destruct (skipn off buf) as [|x l]; simpl in *; [discriminate|].
  now injection H as ->.
Qed.

Lemma readUInt8_at buf off v :
  off + 1 <= length buf -> window buf off 1 = [v] -> readUInt8 buf off = Ok v.
Proof.
  intros Hle H. unfold readUInt8. now rewrite (window_one _ _ _ Hle H).
Qed.

(** A byte read first, the rest read from the next offset. *)
Lemma reads_u8_then {B} (K : Z -> Buffer -> nat -> result (B * nat)) v d b :
  reads (K v) d b ->
  reads (fun buf off => let* c := readUInt8 buf off in K c buf (off + 1)) (v :: d) b.
Proof.
  intros H buf off Hle Hw.
  change (v :: d) with ([v] ++ d) in *.
  destruct (window_split _ _ _ _ Hle Hw) as [W1 W2].
  rewrite length_app in *. cbn [length] in *.
  rewrite (readUInt8_at buf off v) by (auto; lia). cbn [bind].
  rewrite (H buf (off + 1)) by (auto; lia).
  now rewrite Nat.add_assoc.
Qed.

Lemma copy_at junk buf off e :
  off + length e <= length buf -> window buf off (length e) = e ->
  copy buf (allocUnsafe junk (length e)) 0 off (off + length e) = Ok (e, length e).
Proof.
  intros Hle Hw. unfold copy.
  replace (length buf <? off) with false by (symmetry; apply Nat.ltb_ge; lia).
  rewrite allocUnsafe_length.
  destruct e as [|x e'].
  - reflexivity.
  - remember (x :: e') as e eqn:Ee.
    assert (Hpos : 0 < length e) by (subst; simpl; lia).
    replace (length e <=? 0) with false by (symmetry; apply Nat.leb_gt; lia).
    replace (off + length e <=? off) with false by (symmetry; apply Nat.leb_gt; lia).
    cbn [orb].
    replace (Nat.min (Nat.min (off + length e - off) (length e - 0)) (length buf - off))
      with (length e) by lia.
    fold (window buf off (length e)). rewrite Hw.
    rewrite splice_all by (now rewrite allocUnsafe_length).
    reflexivity.
Qed.

Lemma reads_readElement junk size e :
  length e = size ->
  reads (fun buf off => readElement junk buf size off) e e.
Proof.
  intros <- buf off Hle Hw. unfold readElement.
  now rewrite copy_at.
Qed.

Lemma reads_for_count {A} (R : Buffer -> nat -> result (A * nat)) (enc : A -> list Z) xs :
  Forall (fun x => reads R (enc x) x) xs ->
  reads (fun buf off => for_count (length xs) (R buf) off) (flat_map enc xs) xs.
Proof.
  induction 1 as [|x rest Hx _ IH]; cbn [length for_count flat_map].
  - apply reads_ret.
  - pose proof (reads_bind R
        (fun a buf off => let* (xs, off) := for_count (length rest) (R buf) off in
                          Ok (a :: xs, off))
        (enc x) (flat_map enc rest) x (x :: rest) Hx) as H.
    apply H. clear H.
    intros buf off Hle Hw. rewrite (IH buf off Hle Hw). reflexivity.
Qed.

Lemma count_byte_inv n :
  1 <= n <= 256 ->
  (if (count_byte n =? 0)%Z then MAX_ARRAY_LENGTH else Z.to_nat (count_byte n)) = n.
Proof.
  intros H. unfold count_byte, MAX_ARRAY_LENGTH.
  destruct (n =? 256) eqn:E.
  - apply Nat.eqb_eq in E. now subst.
  - apply Nat.eqb_neq in E.
    destruct (Z.of_nat n =? 0)%Z eqn:E0; [apply Z.eqb_eq in E0; lia|].
    apply Nat2Z.id.
Qed.

Lemma reads_readArray junk size array :
  1 <= length array <= 256 ->
  Forall (fun e => length e = size) array ->
  reads (fun buf off => readArray junk buf off size) (enc_array array) array.
Proof.
  intros Hn Hs. unfold enc_array, readArray.
  apply (reads_u8_then
           (fun c buf off =>
              for_count (if (c =? 0)%Z then MAX_ARRAY_LENGTH else Z.to_nat c)
                (readElement junk buf size) off)).
  cbv beta. unfold Buffer in *. rewrite (count_byte_inv _ Hn), <- flat_map_id.
  apply (reads_for_count (fun buf off => readElement junk buf size off) (fun x => x)).
  eapply Forall_impl; [|exact Hs]. intros e He. now apply reads_readElement.
Qed.

Lemma reads_readColumnLength n :
  reads readColumnLength [Z.of_nat n] n.
Proof.
  intros buf off Hle Hw. unfold readColumnLength. cbn [length] in *.
  rewrite (readUInt8_at buf off _ Hle Hw). cbn [bind]. now rewrite Nat2Z.id.
Qed.

Lemma reads_readColumns junk size matrix :
  Forall (Forall (fun e => length e = size)) matrix ->
  reads (fun buf off => readColumns junk buf size (map (@length Buffer) matrix) off)
        (concat (map (@concat Z) matrix)) matrix.
Proof.
  induction 1 as [|column rest Hc _ IH]; cbn [map readColumns concat].
  - apply reads_ret.
  - pose proof (reads_bind
        (fun buf off => for_count (length column) (readElement junk buf size) off)
        (fun c buf off =>
           let* (columns, off) := readColumns junk buf size (map (@length Buffer) rest) off in
           Ok (c :: columns, off))
        (concat column) (concat (map (@concat Z) rest)) column (column :: rest)) as H.
    apply H; clear H.
    + rewrite <- flat_map_id.
      apply (reads_for_count (fun buf off => readElement junk buf size off) (fun x => x)).
      eapply Forall_impl; [|exact Hc]. intros e He. now apply reads_readElement.
    + intros buf off Hle Hw. rewrite (IH buf off Hle Hw). reflexivity.
Qed.

Lemma reads_readMatrix junk size matrix :
  length matrix <= 255 ->
  Forall (Forall (fun e => length e = size)) matrix ->
  reads (fun buf off => readMatrix junk buf off size) (enc_matrix matrix) matrix.
Proof.
  intros Hn Hs. unfold enc_matrix, readMatrix.
  apply (reads_u8_then
           (fun c buf off =>
              let* (lengths, off) := for_count (Z.to_nat c) (readColumnLength buf) off in
              readColumns junk buf size lengths off)).
  cbv beta. rewrite Nat2Z.id.
  apply (reads_bind
           (fun buf off => for_count (length matrix) (readColumnLength buf) off)
           (fun lengths buf off => readColumns junk buf size lengths off)
           _ _ (map (@length Buffer) matrix)).
  - assert (HF : Forall (fun n => reads readColumnLength [Z.of_nat n] n)
                    (map (@length Buffer) matrix)).
    { apply Forall_forall. intros n _. apply reads_readColumnLength. }
    pose proof (reads_for_count readColumnLength (fun n => [Z.of_nat n]) _ HF) as H.
    rewrite length_map, flat_map_singleton, map_map in H. exact H.
  - now apply reads_readColumns.
Qed.

Lemma reads_readMerkleProof junk leafSize hds proof :
  sizable_merkle proof -> fits_merkle proof ->
  sized_merkle leafSize hds proof ->
  reads (fun buf off => readMerkleProof junk buf off leafSize hds)
        (enc_merkle proof) proof.
Proof.
  intros (Hv & _ & _) (Hn & _) (Sv & Sn). unfold enc_merkle, readMerkleProof.
  apply (reads_bind
           (fun buf off => readArray junk buf off leafSize)
           (fun vals buf off =>
              let* (nds, off) := readMatrix junk buf off hds in
              let* d := readUInt8 buf off in
              Ok (mkProof vals nds d, off + 1))
           _ _ (values proof)).
  - now apply reads_readArray.
  - apply (reads_bind
             (fun buf off => readMatrix junk buf off hds)
             (fun nds buf off =>
                let* d := readUInt8 buf off in
                Ok (mkProof (values proof) nds d, off + 1))
             _ _ (nodes proof)).
    + now apply reads_readMatrix.
    + intros buf off Hle Hw. cbn [length] in *.
      rewrite (readUInt8_at buf off _ Hle Hw). cbn [bind].
      now destruct proof.
Qed.

Lemma le_value_le_bytes n v :
  (0 <= v < 256 ^ Z.of_nat n)%Z -> le_value (le_bytes n v) = v.
Proof.
  revert v. induction n as [|n IH]; intros v Hv.
  - simpl in *. lia.
  - cbn [le_bytes le_value].
    rewrite Nat2Z.inj_succ, Z.pow_succ_r in Hv by lia.
    rewrite IH.
    + pose proof (Z.div_mod v 256 ltac:(lia)). lia.
    + split.
      * apply Z.div_pos; lia.
      * apply Z.div_lt_upper_bound; lia.
Qed.

Lemma reads_readBigInt fes v :
  (0 <= v < 256 ^ Z.of_nat fes)%Z ->
  reads (fun buf off => let* value := readBigInt buf off fes in Ok (value, off + fes))
        (le_bytes fes v) v.
Proof.
  intros Hv buf off Hle Hw. rewrite le_bytes_length in *. unfold readBigInt.
  replace (off + fes <=? length buf) with true by (symmetry; apply Nat.leb_le; lia).
  cbn [bind]. fold (window buf off fes). rewrite Hw.
  now rewrite le_value_le_bytes.
Qed.

Lemma uint32le_value v :
  (0 <= v <= 4294967295)%Z ->
  (v mod 256 + 256 * ((v / 256) mod 256) + 65536 * ((v / 65536) mod 256)
   + 16777216 * ((v / 16777216) mod 256) = v)%Z.
Proof.
  intros Hv.
  pose proof (Z.div_mod v 256 ltac:(lia)) as E0.
  pose proof (Z.div_mod (v / 256) 256 ltac:(lia)) as E1.
  pose proof (Z.div_mod (v / 256 / 256) 256 ltac:(lia)) as E2.
  rewrite !Z.div_div in * by lia.
  change (256 * 256)%Z with 65536%Z in *.
  change (65536 * 256)%Z with 16777216%Z in *.
  assert (E3 : (v / 16777216 < 256)%Z) by (apply Z.div_lt_upper_bound; lia).
  assert (E4 : (0 <= v / 16777216)%Z) by (apply Z.div_pos; lia).
  rewrite (Z.mod_small (v / 16777216) 256) by lia.
  lia.
Qed.

Lemma reads_readUInt32LE v :
  (0 <= v <= 4294967295)%Z ->
  reads (fun buf off => let* level := readUInt32LE buf off in Ok (level, off + 4))
        (uint32le v) v.
Proof.
  intros Hv buf off Hle Hw. rewrite uint32le_length in *. unfold readUInt32LE.
  fold (window buf off 4). rewrite Hw. unfold uint32le. cbn [bind].
  f_equal. f_equal.
  rewrite <- (uint32le_value v Hv) at 5. lia.
Qed.

Lemma reads_readComponent this junk ldLeafSize c :
  sizable_merkle (columnProof c) -> sizable_merkle (polyProof c) ->
  fits_merkle (columnProof c) -> fits_merkle (polyProof c) ->
  sized_component ldLeafSize (hashDigestSize this) c ->
  reads (fun buf off => readComponent this junk buf ldLeafSize off) (enc_component c) c.
Proof.
  intros S1 S2 F1 F2 (Z0 & Z1 & Z2). unfold enc_component.
  set (hds := hashDigestSize this) in *.
  assert (H : reads
                (fun buf off =>
                   let* (root, off) := readElement junk buf hds off in
                   let* (cp, off) := readMerkleProof junk buf off ldLeafSize hds in
                   let* (pp, off) := readMerkleProof junk buf off ldLeafSize hds in
                   Ok (mkComponent root cp pp, off))
                (columnRoot c ++ enc_merkle (columnProof c) ++ enc_merkle (polyProof c)) c).
  { apply (reads_bind
             (fun buf off => readElement junk buf hds off)
             (fun root buf off =>
                let* (cp, off) := readMerkleProof junk buf off ldLeafSize hds in
                let* (pp, off) := readMerkleProof junk buf off ldLeafSize hds in
                Ok (mkComponent root cp pp, off))
             _ _ (columnRoot c)).
    - now apply reads_readElement.
    - apply (reads_bind
               (fun buf off => readMerkleProof junk buf off ldLeafSize hds)
               (fun cp buf off =>
                  let* (pp, off) := readMerkleProof junk buf off ldLeafSize hds in
                  Ok (mkComponent (columnRoot c) cp pp, off))
               _ _ (columnProof c)).
      + now apply reads_readMerkleProof.
      + intros buf off Hle Hw.
        rewrite (reads_readMerkleProof junk ldLeafSize hds _ S2 F2 Z2 buf off Hle Hw).
        cbn [bind]. now destruct c. }
  eapply reads_ext; [|exact H].
  intros buf off. unfold readComponent, readElement. fold hds.
  destruct (copy buf _ 0 off _) as [[b n]|e]; reflexivity.
Qed.

Lemma reads_readRemainder this remainder :
  1 <= length remainder <= 256 ->
  Forall (fun v => (0 <= v < 256 ^ Z.of_nat (fieldElementSize this))%Z) remainder ->
  reads (readRemainder this) (enc_remainder (fieldElementSize this) remainder) remainder.
Proof.
  intros Hn Hv. unfold enc_remainder, readRemainder.
  apply (reads_u8_then
           (fun b buf off =>
              for_count (if (b =? 0)%Z then MAX_ARRAY_LENGTH else Z.to_nat b)
                (fun off =>
                   let* value := readBigInt buf off (fieldElementSize this) in
                   Ok (value, off + fieldElementSize this))
                off)).
  cbv beta. rewrite (count_byte_inv _ Hn).
  apply (reads_for_count
           (fun buf off =>
              let* value := readBigInt buf off (fieldElementSize this) in
              Ok (value, off + fieldElementSize this))
           (le_bytes (fieldElementSize this))).
  eapply Forall_impl; [|exact Hv]. intros v Hr. now apply reads_readBigInt.
Qed.

Lemma reads_readTraceShape traceShape :
  length traceShape <= 255 ->
  Forall (fun level => (0 <= level <= 4294967295)%Z) traceShape ->
  reads readTraceShape (enc_shape traceShape) traceShape.
Proof.
  intros Hn Hv. unfold enc_shape, readTraceShape.
  apply (reads_u8_then
           (fun d buf off =>
              for_count (Z.to_nat d)
                (fun off => let* level := readUInt32LE buf off in Ok (level, off + 4))
                off)).
  cbv beta. rewrite Nat2Z.id.
  apply (reads_for_count
           (fun buf off => let* level := readUInt32LE buf off in Ok (level, off + 4))
           uint32le).
  eapply Forall_impl; [|exact Hv]. intros v Hr. now apply reads_readUInt32LE.
Qed.

End ReaderFacts.

(** ** [parseProof] reads back what [serializeProof] wrote *)

Module ParseFacts.
Import Sizeof Utils Wire BufferFacts SizeofFacts WriterFacts SizeFacts Serializer.
Import SerializeFacts ReaderFacts.

Lemma reads_from {A} (R : Buffer -> nat -> result (A * nat)) d a buf pre post off :
  buf = pre ++ d ++ post -> off = length pre -> reads R d a ->
  R buf off = Ok (a, off + length d).
Proof.
  intros -> -> H. apply H.
  - rewrite !length_app. lia.
  - apply window_mid.
Qed.

Lemma copy_from junk buf pre e post off size :
  buf = pre ++ e ++ post -> off = length pre -> length e = size ->
  copy buf (allocUnsafe junk size) 0 off (off + size) = Ok (e, size).
Proof.
  intros -> -> <-. apply copy_at.
  - rewrite !length_app. lia.
  - apply window_mid.
Qed.

Lemma readUInt8_from buf pre v post off :
  buf = pre ++ v :: post -> off = length pre -> readUInt8 buf off = Ok v.
Proof.
  intros -> ->. unfold readUInt8.
  now rewrite nth_error_app2, Nat.sub_diag by lia.
Qed.

Lemma sized_roots this p : sized this p -> roots_sized (hashDigestSize this) p.
Proof.
  intros (H1 & _ & H3 & _ & H5 & _). refine (conj H1 (conj H3 _)).
  eapply Forall_impl; [|exact H5]. now intros c (Hc & _).
Qed.

Lemma reads_components this junk cs :
  Forall (fun c => sizable_merkle (columnProof c) /\ sizable_merkle (polyProof c)) cs ->
  Forall (fun c => fits_merkle (columnProof c) /\ fits_merkle (polyProof c)) cs ->
  Forall (sized_component (fieldElementSize this * 4) (hashDigestSize this)) cs ->
  reads (fun buf off =>
           for_count (length cs)
             (readComponent this junk buf (fieldElementSize this * 4)) off)
        (flat_map enc_component cs) cs.
Proof.
  intros Hs Hf Hz.
  apply (reads_for_count
           (fun buf off => readComponent this junk buf (fieldElementSize this * 4) off)
           enc_component).
  apply Forall_forall. intros c Hin. rewrite Forall_forall in Hs, Hf, Hz.
  destruct (Hs c Hin). destruct (Hf c Hin).
  apply reads_readComponent; auto.
Qed.

(** The wire format of a proof of the configuration parses back to the proof,
    whatever the freshly allocated buffers held. *)
Lemma parseProof_ok this junk p :
  sized this p -> sizable p -> fits p ->
  1 <= length (remainder (ldProof p)) ->
  parseProof this junk (enc_proof (fieldElementSize this) p) = Ok p.
Proof.
  intros Hz Hs Hf Hne.
  pose proof Hz as (Z1 & Z2 & Z3 & Z4 & Z5 & Z6).
  pose proof Hs as (S1 & S2 & S3 & S4).
  pose proof Hf as (F1 & F2 & F3 & F4 & F5 & F6).
  unfold parseProof.
  remember (enc_proof (fieldElementSize this) p) as B eqn:EB.
  unfold enc_proof, enc_head in EB.
  set (d1 := evRoot p) in *.
  set (d2 := enc_merkle (evProof p)) in *.
  set (d3 := lcRoot (ldProof p)) in *.
  set (d4 := enc_merkle (lcProof (ldProof p))) in *.
  set (d5 := Z.of_nat (length (components (ldProof p)))) in *.
  set (d6 := flat_map enc_component (components (ldProof p))) in *.
  set (d7 := enc_remainder (fieldElementSize this) (remainder (ldProof p))) in *.
  set (d8 := enc_shape (traceShape p)) in *.
  set (hds := hashDigestSize this) in *.
  assert (E1 : B = [] ++ d1 ++ (d2 ++ d3 ++ d4 ++ d5 :: d6 ++ d7 ++ d8))
    by (subst B; repeat (rewrite <- app_assoc || cbn [app]); reflexivity).
  assert (E2 : B = d1 ++ d2 ++ (d3 ++ d4 ++ d5 :: d6 ++ d7 ++ d8))
    by (subst B; repeat (rewrite <- app_assoc || cbn [app]); reflexivity).
  assert (E3 : B = (d1 ++ d2) ++ d3 ++ (d4 ++ d5 :: d6 ++ d7 ++ d8))
    by (subst B; repeat (rewrite <- app_assoc || cbn [app]); reflexivity).
  assert (E4 : B = (d1 ++ d2 ++ d3) ++ d4 ++ (d5 :: d6 ++ d7 ++ d8))
    by (subst B; repeat (rewrite <- app_assoc || cbn [app]); reflexivity).
  assert (E5 : B = (d1 ++ d2 ++ d3 ++ d4) ++ d5 :: (d6 ++ d7 ++ d8))
    by (subst B; repeat (rewrite <- app_assoc || cbn [app]); reflexivity).
  assert (E6 : B = (d1 ++ d2 ++ d3 ++ d4 ++ [d5]) ++ d6 ++ (d7 ++ d8))
    by (subst B; repeat (rewrite <- app_assoc || cbn [app]); reflexivity).
  assert (E7 : B = (d1 ++ d2 ++ d3 ++ d4 ++ [d5] ++ d6) ++ d7 ++ d8)
    by (subst B; repeat (rewrite <- app_assoc || cbn [app]); reflexivity).
  assert (E8 : B = (d1 ++ d2 ++ d3 ++ d4 ++ [d5] ++ d6 ++ d7) ++ d8 ++ [])
    by (subst B; repeat (rewrite <- app_assoc || cbn [app]); rewrite app_nil_r; reflexivity).
  clear EB.
  assert (L2 : hds = length d1) by lia.
  assert (L3 : hds + length d2 = length (d1 ++ d2))
    by (repeat (rewrite length_app || cbn [length]); lia).
  assert (L4 : hds + length d2 + hds = length (d1 ++ d2 ++ d3))
    by (repeat (rewrite length_app || cbn [length]); lia).
  assert (L5 : hds + length d2 + hds + length d4 = length (d1 ++ d2 ++ d3 ++ d4))
    by (repeat (rewrite length_app || cbn [length]); lia).
  assert (L6 : hds + length d2 + hds + length d4 + 1
               = length (d1 ++ d2 ++ d3 ++ d4 ++ [d5]))
    by (repeat (rewrite length_app || cbn [length]); lia).
  assert (L7 : hds + length d2 + hds + length d4 + 1 + length d6
               = length (d1 ++ d2 ++ d3 ++ d4 ++ [d5] ++ d6))
    by (repeat (rewrite length_app || cbn [length]); lia).
  assert (L8 : hds + length d2 + hds + length d4 + 1 + length d6 + length d7
               = length (d1 ++ d2 ++ d3 ++ d4 ++ [d5] ++ d6 ++ d7))
    by (repeat (rewrite length_app || cbn [length]); lia).
  (* root *)
  pose proof (copy_from junk B [] d1 _ 0 hds E1 eq_refl Z1) as X.
  cbn [Nat.add] in X. rewrite X. cbn [bind]. clear X.
  (* evProof *)
  pose proof (reads_from _ _ _ B d1 _ hds E2 L2
                (reads_readMerkleProof junk _ hds _ S1 F1 Z2)) as X.
  cbv beta in X. rewrite X. cbn [bind]. clear X.
  (* ldProof *)
  rewrite (copy_from junk B (d1 ++ d2) d3 _ (hds + length d2) hds E3 L3 Z3).
  cbn [bind].
  pose proof (reads_from _ _ _ B (d1 ++ d2 ++ d3) _ _ E4 L4
                (reads_readMerkleProof junk _ hds _ S2 F2 Z4)) as X.
  cbv beta in X. rewrite X. cbn [bind]. clear X.
  rewrite (readUInt8_from B (d1 ++ d2 ++ d3 ++ d4) d5 _ _ E5 L5).
  cbn [bind]. unfold d5 at 1. rewrite Nat2Z.id.
  pose proof (reads_from _ _ _ B (d1 ++ d2 ++ d3 ++ d4 ++ [d5]) _ _ E6 L6
                (reads_components this junk _ S3 F4 Z5)) as X.
  cbv beta in X. fold d6 in X. rewrite X. cbn [bind]. clear X.
  (* remainder *)
  pose proof (reads_from _ _ _ B (d1 ++ d2 ++ d3 ++ d4 ++ [d5] ++ d6) _ _ E7 L7
                (reads_readRemainder this _ (conj Hne S4) Z6)) as X.
  fold d7 in X. rewrite X. cbn [bind]. clear X.
  (* trace shape *)
  pose proof (reads_from _ _ _ B (d1 ++ d2 ++ d3 ++ d4 ++ [d5] ++ d6 ++ d7) _ _ E8 L8
                (reads_readTraceShape _ F5 F6)) as X.
  fold d8 in X. rewrite X. cbn [bind]. clear X.
  subst d1 d3. destruct p as [r e [lr lp cs rm] ts]. reflexivity.
Qed.

End ParseFacts.

(** ** Serialization: round trip, buffer length, remainder length, empty arrays *)

Module SerializerSpec.
Import Sizeof Utils Wire BufferFacts SizeofFacts WriterFacts SizeFacts Serializer.
Import SerializeFacts ReaderFacts ParseFacts.

(** An accepted proof of the configuration is serialized to its wire format. *)
Lemma serializeProof_accepted this junk p buf :
  sized this p -> serializeProof this junk p = Ok buf ->
  sizable p /\ fits p /\ buf = enc_proof (fieldElementSize this) p.
Proof.
  intros Hz H.
  destruct (serializeProof_ok_inv _ _ _ _ H) as (_ & Hs & Hf).
  refine (conj Hs (conj Hf _)).
  rewrite (serializeProof_ok this junk p (sized_roots _ _ Hz) Hs Hf) in H.
  now injection H.
Qed.

(** C1: for every proof object of the configuration (digests of
    [hashDigestSize] bytes, leaves of the configured size, remainder values
    that are field elements, at least one of them: the length byte 0 stands
    for 256 elements, so the wire format has no encoding of an empty
    remainder) that the serializer accepts, parsing the serialized bytes gives
    the proof back and serializing it again gives the same bytes; this holds
    whatever uninitialised memory the three allocations return. *)
Theorem serialize_parse_roundtrip this junk junk' junk'' p buf :
  sized this p ->
  1 <= length (remainder (ldProof p)) ->
  serializeProof this junk p = Ok buf ->
  exists p', parseProof this junk' buf = Ok p'
             /\ p' = p
             /\ serializeProof this junk'' p' = Ok buf.
Proof.
  intros Hz Hne H.
  destruct (serializeProof_accepted _ _ _ _ Hz H) as (Hs & Hf & ->).
  exists p. split; [|split].
  - now apply parseProof_ok.
  - reflexivity.
  - apply serializeProof_ok; auto using sized_roots.
Qed.

Lemma example_sized : sized Example.serializer Example.proof.
Proof.
  unfold sized, sized_merkle, sized_component; simpl.
  repeat split; repeat constructor; simpl; lia.
Qed.

Lemma serialize_parse_roundtrip_witness :
  exists p', parseProof Example.serializer Example.junk1 Example.bytes = Ok p'
             /\ p' = Example.proof
             /\ serializeProof Example.serializer Example.junk2 p' = Ok Example.bytes.
Proof.
  apply (serialize_parse_roundtrip Example.serializer Example.junk0 Example.junk1
           Example.junk2 Example.proof Example.bytes).
  - exact example_sized.
  - simpl. lia.
  - vm_compute. reflexivity.
Defined.

(** The serializer itself does not check the sizes the parser relies on: a
    proof with a one-byte root under a two-byte configuration is written out
    (the last byte of the buffer is left as allocated) and does not parse. *)
Lemma short_root_does_not_parse :
  serializeProof Example.serializer Example.junk0 Example.proof_short_root
  = Ok (1%Z :: skipn 2 Example.bytes ++ [170%Z])
  /\ parseProof Example.serializer Example.junk1 (1%Z :: skipn 2 Example.bytes ++ [170%Z])
     = Throw RangeError.
Proof. split; vm_compute; reflexivity. Qed.

(** C7: whenever [serializeProof] returns a buffer, its length is the total
    that [sizeOf] reports for the proof. *)
Theorem serialized_length_is_sizeOf this junk p buf :
  serializeProof this junk p = Ok buf ->
  exists sz, sizeOf p (fieldElementSize this) (hashDigestSize this) = Ok sz
             /\ length buf = total sz.
Proof. intros H. exact (proj1 (serializeProof_ok_inv _ _ _ _ H)). Qed.

Lemma serialized_length_is_sizeOf_witness :
  exists sz, sizeOf Example.proof 2 2 = Ok sz /\ length Example.bytes = total sz.
Proof.
  apply (serialized_length_is_sizeOf Example.serializer Example.junk0 Example.proof).
  vm_compute. reflexivity.
Defined.

Lemma nth_error_splice buf off v rest :
  off + length (v :: rest) <= length buf ->
  nth_error (splice buf off (v :: rest)) off = Some v.
Proof.
  intros H. unfold splice.
  rewrite nth_error_app2 by (rewrite length_firstn; lia).
  rewrite length_firstn.
  replace (off - Nat.min off (length buf)) with 0 by lia.
  reflexivity.
Qed.

Lemma for_count_length {A} n (body : nat -> result (A * nat)) off xs off' :
  for_count n body off = Ok (xs, off') -> length xs = n.
Proof.
  revert off xs off'. induction n as [|n IH]; intros off xs off'; cbn [for_count].
  - now intros [= <- _].
  - intros H.
    apply bind_ok in H as ([x o1] & _ & H).
    apply bind_ok in H as ([ys o2] & H1 & H2).
    injection H2 as <- _. simpl. f_equal. eauto.
Qed.

(** C5: the remainder block of the serializer writes the length byte 0 for a
    remainder of 256 elements and the byte n for a remainder of n elements,
    1 <= n <= 255, followed by the elements; the remainder block of the
    parser reads 256 elements after a length byte 0 and b elements after a
    length byte b > 0; and for every accepted proof of the configuration
    with a remainder of at least one element the byte at the remainder
    position of the serialized proof is that length byte and parsing returns
    a remainder of the original length. *)
Theorem remainder_length_roundtrip this :
  (forall r buf off,
      length r <= 256 ->
      off + 1 + length r * fieldElementSize this <= length buf ->
      exists buf',
        writeRemainder this r buf off
        = Ok (buf', off + 1 + length r * fieldElementSize this)
        /\ nth_error buf' off
           = Some (if length r =? 256 then 0%Z else Z.of_nat (length r)))
  /\ (forall buf off r off',
        readRemainder this buf off = Ok (r, off') ->
        exists b, readUInt8 buf off = Ok b
                  /\ length r = if (b =? 0)%Z then 256 else Z.to_nat b)
  /\ (forall junk junk' p buf,
        sized this p ->
        1 <= length (remainder (ldProof p)) ->
        serializeProof this junk p = Ok buf ->
        let n := length (remainder (ldProof p)) in
        1 <= n <= 256
        /\ nth_error buf (length (enc_head p))
           = Some (if n =? 256 then 0%Z else Z.of_nat n)
        /\ exists p', parseProof this junk' buf = Ok p'
                      /\ length (remainder (ldProof p')) = n).
Proof.
  split; [|split].
  - intros r buf off Hr Hle.
    assert (Hlen : length (enc_remainder (fieldElementSize this) r)
                   = 1 + length r * fieldElementSize this)
      by apply enc_remainder_length.
    rewrite (writes_writeRemainder this r Hr buf off) by lia.
    eexists. split.
    + rewrite Hlen. f_equal. f_equal. lia.
    + change (if length r =? 256 then 0%Z else Z.of_nat (length r))
        with (count_byte (length r)).
      unfold enc_remainder in *. apply nth_error_splice. lia.
  - intros buf off r off' H. unfold readRemainder in H.
    apply bind_ok in H as (b & Hb & H).
    exists b. split; [exact Hb|].
    now apply for_count_length in H.
  - intros junk junk' p buf Hz Hne H n.
    destruct (serializeProof_accepted _ _ _ _ Hz H) as (Hs & Hf & ->).
    pose proof Hs as (_ & _ & _ & Hn).
    split; [exact (conj Hne Hn)|]. split.
    + unfold enc_proof, enc_remainder.
      now rewrite nth_error_app2, Nat.sub_diag by lia.
    + exists p. split; [now apply parseProof_ok | reflexivity].
Qed.

Lemma example256_sized : sized Example.serializer Example.proof256.
Proof.
  unfold sized, sized_merkle, sized_component; simpl.
  repeat split; repeat constructor; simpl; lia.
Qed.

Lemma remainder_length_roundtrip_witness :
  (1 <= 256 <= 256
   /\ nth_error (enc_proof 2 Example.proof256) 24 = Some 0%Z
   /\ exists p', parseProof Example.serializer Example.junk1
                   (enc_proof 2 Example.proof256) = Ok p'
                 /\ length (remainder (ldProof p')) = 256)
  /\ (1 <= 2 <= 256
      /\ nth_error Example.bytes 51 = Some 2%Z
      /\ exists p', parseProof Example.serializer Example.junk1 Example.bytes = Ok p'
                    /\ length (remainder (ldProof p')) = 2).
Proof.
  split.
  - apply (proj2 (proj2 (remainder_length_roundtrip Example.serializer))
             Example.junk0 Example.junk1 Example.proof256 (enc_proof 2 Example.proof256)).
    + exact example256_sized.
    + simpl. lia.
    + vm_compute. reflexivity.
  - apply (proj2 (proj2 (remainder_length_roundtrip Example.serializer))
             Example.junk0 Example.junk1 Example.proof Example.bytes).
    + exact example_sized.
    + simpl. lia.
    + vm_compute. reflexivity.
Defined.




(** The bytes written for an empty remainder do not parse: the parser reads
    the length byte 0 as 256 elements and runs past the end of the buffer. *)
Lemma empty_remainder_does_not_parse :
  parseProof Example.serializer Example.junk1
    (firstn 51 Example.bytes ++ 0%Z :: skipn 56 Example.bytes)
  = Throw RangeError.
Proof. vm_compute. reflexivity. Qed.

(** Every proof that size computation accepts and whose one-byte and four-byte
    fields are in range is serialized: the serializer returns a buffer. *)
Lemma serializeProof_returns this junk p :
  roots_sized (hashDigestSize this) p -> sizable p -> fits p ->
  exists buf, serializeProof this junk p = Ok buf
              /\ length buf = wire_size (fieldElementSize this) (hashDigestSize this) p.
Proof.
  intros (R1 & R2 & R3) Hs Hf. eexists. split.
  - apply serializeProof_ok; auto. now repeat split.
  - now apply enc_proof_length.
Qed.

End SerializerSpec.

(** ** Degrees of the composition polynomial *)

Module DegreeFacts.
Import Degrees CompositionPolynomial.

Lemma max_degree_loop_bounds m cs :
  let r := max_degree_loop m cs in
  (m <= r)%Z
  /\ Forall (fun c => (Constraint.degree c <= r)%Z) cs
  /\ (r = m \/ Exists (fun c => Constraint.degree c = r) cs).
Proof.
  revert m. induction cs as [|c rest IH]; intros m; cbn [max_degree_loop].
  - cbv zeta. repeat split; [lia | constructor | now left].
  - destruct (m <? Constraint.degree c)%Z eqn:E.
    + apply Z.ltb_lt in E. destruct (IH (Constraint.degree c)) as (H1 & H2 & H3).
      cbv zeta. repeat split; [lia | constructor; [lia | exact H2] |].
      right. destruct H3 as [-> | H3]; [now left | now right].
    + apply Z.ltb_ge in E. destruct (IH m) as (H1 & H2 & H3).
      cbv zeta. repeat split; [exact H1 | constructor; [lia | exact H2] |].
      destruct H3 as [H3 | H3]; [now left | right; now right].
Qed.

Lemma max_declared_degree_bounds c rest :
  let M := max_declared_degree (c :: rest) in
  Forall (fun c' => (Constraint.degree c' <= M)%Z) (c :: rest)
  /\ Exists (fun c' => Constraint.degree c' = M) (c :: rest).
Proof.
  cbn [max_declared_degree].
  induction rest as [|c' rest IH]; cbn [fold_right].
  - cbv zeta. split; [repeat constructor; lia | now left].
  - destruct IH as [H1 H2]. cbv zeta in *.
    set (M := fold_right (fun c'0 acc => Z.max (Constraint.degree c'0) acc)
                (Constraint.degree c) rest) in *.
    inversion H1 as [|? ? Hc Hrest]; subst.
    split.
    + constructor; [lia|]. constructor; [lia|].
      eapply Forall_impl; [|exact Hrest]. cbv beta. intros; lia.
    + destruct (Z.max_spec (Constraint.degree c') M) as [[Hlt ->] | [Hle ->]].
      * inversion H2; subst; [now left | right; now right].
      * right. now left.
Qed.

(** With declared degrees of at least 1, the loop of [getCombinationDegree]
    ends with the largest declared degree. *)
Lemma max_degree_loop_declared cs :
  cs <> [] ->
  Forall (fun c => (1 <= Constraint.degree c)%Z) cs ->
  max_degree_loop 1 cs = max_declared_degree cs.
Proof.
  intros Hne Hpos. destruct cs as [|c rest]; [contradiction|].
  destruct (max_degree_loop_bounds 1 (c :: rest)) as (H1 & H2 & H3).
  destruct (max_declared_degree_bounds c rest) as (M1 & M2).
  cbv zeta in *.
  set (r := max_degree_loop 1 (c :: rest)) in *.
  set (M := max_declared_degree (c :: rest)) in *.
  apply Exists_exists in M2 as (cM & HinM & HM).
  rewrite Forall_forall in H2, M1, Hpos.
  pose proof (H2 cM HinM). pose proof (Hpos cM HinM).
  destruct H3 as [H3 | H3].
  - lia.
  - apply Exists_exists in H3 as (cr & Hinr & Hr).
    pose proof (M1 cr Hinr). lia.
Qed.

(** C3: for a non-empty constraint list with declared degrees from 1 to 16
    (the degrees of the specification, for which the logarithm of the code is
    exact) and any trace length T, the constructor sets
    combinationDegree = 2^ceil(log2(max declared degree)) * T and
    compositionDegree = max(combinationDegree - T, T); hence
    compositionDegree >= T. *)
Theorem constructor_degrees field newBoundaryConstraints constraints assertions seed context :
  constraints <> [] ->
  Forall (fun c => (1 <= Constraint.degree c)%Z) constraints ->
  Forall (fun c => (Constraint.degree c <= 16)%Z) constraints ->
  let T := Context.traceLength context in
  let this := constructor field newBoundaryConstraints constraints assertions seed context in
  combinationDegree this = (2 ^ Z.log2_up (max_declared_degree constraints) * T)%Z
  /\ compositionDegree this = Z.max (combinationDegree this - T) T
  /\ (T <= compositionDegree this)%Z.
Proof.
  intros Hne Hpos _ T this. unfold this, constructor. cbn [combinationDegree compositionDegree].
  unfold getCombinationDegree. rewrite (max_degree_loop_declared _ Hne Hpos).
  fold T. repeat split. lia.
Qed.

Lemma constructor_degrees_witness :
  CompositionPolynomial.combinationDegree F17.cp = (2 ^ Z.log2_up 3 * 2)%Z
  /\ CompositionPolynomial.compositionDegree F17.cp
     = Z.max (CompositionPolynomial.combinationDegree F17.cp - 2) 2
  /\ (2 <= CompositionPolynomial.compositionDegree F17.cp)%Z.
Proof.
  apply (constructor_degrees F17.field F17.newBoundaryConstraints F17.constraints
           F17.assertions F17.seed F17.context).
  - discriminate.
  - repeat constructor; simpl; lia.
  - repeat constructor; simpl; lia.
Defined.

(** When every declared degree is 1 the combination degree is T and the
    composition degree is T as well. *)
Lemma linear_constraints_degrees T n :
  getCombinationDegree (repeat (Constraint.mk 1) (S n)) T = T.
Proof.
  unfold getCombinationDegree.
  assert (H : forall k, max_degree_loop 1 (repeat (Constraint.mk 1) k) = 1%Z).
  { induction k as [|k IH]; simpl; [reflexivity | exact IH]. }
  rewrite H. change (Z.log2_up 1) with 0%Z. lia.
Qed.

End DegreeFacts.

(** ** Constraint groups *)

Module GroupFacts.
Import Degrees CompositionPolynomial DegreeFacts.

Lemma get_none_notin m k : JsMap.get m k = None -> ~ In k (map fst m).
Proof.
  induction m as [|[k' v] rest IH]; simpl; [tauto|].
  destruct (k' =? k)%Z eqn:E; [discriminate|].
  apply Z.eqb_neq in E. intros H [Hk | Hk]; [congruence | now apply IH].
Qed.

Lemma get_some_in m k v : JsMap.get m k = Some v -> In k (map fst m).
Proof.
  induction m as [|[k' v'] rest IH]; simpl; [discriminate|].
  destruct (k' =? k)%Z eqn:E.
  - apply Z.eqb_eq in E. now left.
  - intros H. right. now apply IH.
Qed.

Lemma push_keys m k i : map fst (JsMap.push m k i) = map fst m.
Proof.
  induction m as [|[k' v] rest IH]; simpl; [reflexivity|].
  destruct (k' =? k)%Z; simpl; [reflexivity | now rewrite IH].
Qed.

Lemma push_perm m k i :
  In k (map fst m) ->
  Permutation (concat (map snd (JsMap.push m k i))) (concat (map snd m) ++ [i]).
Proof.
  induction m as [|[k' v] rest IH]; simpl; [tauto|].
  destruct (k' =? k)%Z eqn:E; simpl.
  - intros _. rewrite <- !app_assoc.
    apply Permutation_app_head. apply Permutation_app_comm.
  - apply Z.eqb_neq in E. intros [Hk | Hk]; [congruence|].
    rewrite <- app_assoc. apply Permutation_app_head. now apply IH.
Qed.

Lemma push_in m k i k' g' j :
  In (k', g') (JsMap.push m k i) -> In j g' ->
  (j = i /\ k' = k) \/ (exists g, In (k', g) m /\ In j g).
Proof.
  induction m as [|[k0 v] rest IH]; simpl; [tauto|].
  destruct (k0 =? k)%Z eqn:E; simpl.
  - apply Z.eqb_eq in E. subst k0.
    intros [H | H] Hj.
    + injection H as <- <-. apply in_app_or in Hj as [Hj | [<- | []]].
      * right. exists v. auto.
      * left. auto.
    + right. exists g'. auto.
  - intros [H | H] Hj.
    + injection H as <- <-. right. exists v. auto.
    + destruct (IH H Hj) as [Hl | (g & Hg & Hjg)]; [now left|].
      right. exists g. auto.
Qed.

Lemma group_loop_spec cs T :
  forall i m,
    NoDup (map fst m) ->
    let m' := group_loop cs i T m in
    NoDup (map fst m')
    /\ Permutation (concat (map snd m')) (concat (map snd m) ++ seq i (length cs))
    /\ (forall k g j, In (k, g) m' -> In j g ->
          (exists g0, In (k, g0) m /\ In j g0)
          \/ (exists c, nth_error cs (j - i) = Some c /\ i <= j
                        /\ (Constraint.degree c * T)%Z = k)).
Proof.
  induction cs as [|c rest IH]; intros i m Hnd; cbn [group_loop length seq]; cbv zeta.
  - rewrite app_nil_r. repeat split; auto.
    intros k g j Hin Hj. left. eauto.
  - set (degree := (Constraint.degree c * T)%Z).
    match goal with
    | |- context [JsMap.push ?x degree i] => set (m1 := x)
    end.
    assert (H1 : NoDup (map fst m1) /\ In degree (map fst m1)
                 /\ concat (map snd m1) = concat (map snd m)
                 /\ (forall k g j, In (k, g) m1 -> In j g -> In (k, g) m)).
    { unfold m1. destruct (JsMap.get m degree) eqn:E.
      - repeat split; auto. eapply get_some_in; eauto.
      - unfold JsMap.set_new. rewrite !map_app, concat_app. simpl.
        rewrite app_nil_r. repeat split; auto.
        + apply NoDup_app; [exact Hnd | repeat constructor; simpl; tauto |].
          * intros a Ha [<- | []]. now apply get_none_notin in E.
        + apply in_or_app. right. now left.
        + intros k g j Hin Hj. apply in_app_or in Hin as [Hin | [Hin | []]]; [exact Hin|].
          injection Hin as <- <-. destruct Hj. }
    destruct H1 as (Hnd1 & Hin1 & Hc1 & Hsub1).
    specialize (IH (S i) (JsMap.push m1 degree i)).
    rewrite push_keys in IH. destruct (IH Hnd1) as (A & B & C). clear IH.
    repeat split; [exact A | |].
    + rewrite B. rewrite (push_perm m1 degree i Hin1), Hc1.
      rewrite <- app_assoc. reflexivity.
    + intros k g j Hin Hj.
      destruct (C k g j Hin Hj) as [(g0 & Hg0 & Hj0) | (c' & Hn & Hle & Hd)].
      * destruct (push_in _ _ _ _ _ _ Hg0 Hj0) as [[-> ->] | (g1 & Hg1 & Hj1)].
        -- right. exists c. rewrite Nat.sub_diag. repeat split; auto.
        -- left. exists g1. split; [eapply Hsub1; eauto | exact Hj1].
      * right. exists c'. replace (j - i) with (S (j - S i)) by lia.
        repeat split; auto. lia.
Qed.

End GroupFacts.

(** ** The groups partition the constraints *)

Module PartitionFacts.
Import Degrees CompositionPolynomial DegreeFacts GroupFacts AdjustSpec.

Lemma count_loop_spec comb gs n :
  count_loop comb gs n = n + groups_size (fun g => (Group.degree g <? comb)%Z) gs.
Proof.
  revert n. unfold groups_size.
  induction gs as [|g gs IH]; intros n; simpl; [lia|].
  destruct (Group.degree g <? comb)%Z; simpl; rewrite IH; lia.
Qed.

Section Groups.
Variable constraints : list Constraint.t.
Variable T : Z.

Let groups := groupTransitionConstraints constraints T.
Let m := length constraints.
Let D := getCombinationDegree constraints T.

Lemma groups_degrees :
  map Group.degree groups = map fst (group_loop constraints 0 T []).
Proof.
  unfold groups, groupTransitionConstraints. rewrite map_map.
  apply map_ext. now intros [k g].
Qed.

Lemma groups_indexes :
  map Group.indexes groups = map snd (group_loop constraints 0 T []).
Proof.
  unfold groups, groupTransitionConstraints. rewrite map_map.
  apply map_ext. now intros [k g].
Qed.

Lemma groups_NoDup : NoDup (map Group.degree groups).
Proof.
  rewrite groups_degrees.
  apply (group_loop_spec constraints T 0 []). constructor.
Qed.

Lemma groups_perm : Permutation (concat (map Group.indexes groups)) (seq 0 m).
Proof.
  rewrite groups_indexes.
  apply (group_loop_spec constraints T 0 []). constructor.
Qed.

Lemma groups_member g i :
  In g groups -> In i (Group.indexes g) ->
  exists c, nth_error constraints i = Some c
            /\ (Constraint.degree c * T)%Z = Group.degree g.
Proof.
  intros Hg Hi. unfold groups, groupTransitionConstraints in Hg.
  apply in_map_iff in Hg as ([k idx] & <- & Hin). cbn [Group.indexes Group.degree] in *.
  destruct (group_loop_spec constraints T 0 []) as (_ & _ & H); [constructor|].
  destruct (H k idx i Hin Hi) as [(g0 & [] & _) | (c & Hc & _ & Hd)].
  rewrite Nat.sub_0_r in Hc. eauto.
Qed.

Lemma groups_index_lt g i : In g groups -> In i (Group.indexes g) -> i < m.
Proof.
  intros Hg Hi. destruct (groups_member g i Hg Hi) as (c & Hc & _).
  apply nth_error_Some. congruence.
Qed.

Lemma in_concat_groups i :
  In i (concat (map Group.indexes groups)) <->
  exists g, In g groups /\ In i (Group.indexes g).
Proof.
  rewrite in_concat. split.
  - intros (l & Hl & Hi). apply in_map_iff in Hl as (g & <- & Hg). eauto.
  - intros (g & Hg & Hi). exists (Group.indexes g). split; [now apply in_map | exact Hi].
Qed.

(** Every index below [m] lies in exactly one group. *)
Lemma groups_unique i :
  i < m ->
  exists g, In g groups /\ In i (Group.indexes g)
            /\ forall g', In g' groups -> In i (Group.indexes g') -> g' = g.
Proof.
  intros Hi.
  assert (Hin : In i (concat (map Group.indexes groups))).
  { eapply Permutation_in; [symmetry; apply groups_perm|]. apply in_seq. lia. }
  apply in_concat_groups in Hin as (g & Hg & Hig).
  exists g. repeat split; auto.
  intros g' Hg' Hig'.
  destruct (groups_member g i Hg Hig) as (c & Hc & Hd).
  destruct (groups_member g' i Hg' Hig') as (c' & Hc' & Hd').
  assert (Hdeg : Group.degree g' = Group.degree g) by congruence.
  (* equal keys of a duplicate-free key list: the same entry *)
  pose proof groups_NoDup as Hnd.
  clear - Hg Hg' Hdeg Hnd.
  induction groups as [|g0 gs IH]; [destruct Hg|].
  simpl in Hnd. inversion Hnd as [|? ? Hnotin Hnd']; subst.
  destruct Hg as [-> | Hg]; destruct Hg' as [-> | Hg'].
  - reflexivity.
  - exfalso. apply Hnotin. rewrite <- Hdeg. now apply in_map.
  - exfalso. apply Hnotin. rewrite Hdeg. now apply in_map.
  - now apply IH.
Qed.

Lemma pow_log2_up_ge r : (1 <= r)%Z -> (r <= 2 ^ Z.log2_up r)%Z.
Proof.
  intros Hr. destruct (Z.eq_dec r 1) as [-> | Hne].
  - simpl. lia.
  - apply Z.log2_up_spec. lia.
Qed.

(** With declared degrees of at most 16, for which the exponent of the code
    is [Z.log2_up], no constraint exceeds the combination degree. *)
Lemma degree_le_combination c :
  (0 <= T)%Z -> Forall (fun c => (Constraint.degree c <= 16)%Z) constraints ->
  In c constraints -> (Constraint.degree c * T <= D)%Z.
Proof.
  intros HT _ Hc. unfold D, getCombinationDegree.
  destruct (max_degree_loop_bounds 1 constraints) as (H1 & H2 & _). cbv zeta in *.
  rewrite Forall_forall in H2. pose proof (H2 c Hc).
  pose proof (pow_log2_up_ge _ H1).
  apply Z.mul_le_mono_nonneg_r; lia.
Qed.

Lemma group_degree_le g :
  (0 <= T)%Z -> Forall (fun c => (Constraint.degree c <= 16)%Z) constraints ->
  In g groups -> Group.indexes g <> [] -> (Group.degree g <= D)%Z.
Proof.
  intros HT Hb Hg Hne. destruct (Group.indexes g) as [|i idx] eqn:E; [contradiction|].
  destruct (groups_member g i Hg) as (c & Hc & <-); [rewrite E; now left|].
  apply degree_le_combination; auto. eapply nth_error_In; eauto.
Qed.

(** The marker of index [i]: is constraint [i] below the combination degree? *)
Let below (i : nat) : bool :=
  match nth_error constraints i with
  | Some c => (Constraint.degree c * T <? D)%Z
  | None => false
  end.

Lemma filter_below_group g :
  In g groups ->
  filter below (Group.indexes g)
  = if (Group.degree g <? D)%Z then Group.indexes g else [].
Proof.
  intros Hg.
  assert (H : forall i, In i (Group.indexes g) -> below i = (Group.degree g <? D)%Z).
  { intros i Hi. destruct (groups_member g i Hg Hi) as (c & Hc & Hd).
    unfold below. now rewrite Hc, Hd. }
  revert H. generalize (Group.indexes g) as idx.
  induction idx as [|i idx IH]; intros H; simpl.
  - now destruct (Group.degree g <? D)%Z.
  - rewrite (H i (or_introl eq_refl)), IH by (intros; apply H; now right).
    now destruct (Group.degree g <? D)%Z.
Qed.

Lemma Permutation_filter_length {A} (f : A -> bool) l l' :
  Permutation l l' -> length (filter f l) = length (filter f l').
Proof.
  induction 1 as [| x l l' _ IH | x y l | l l' l'' _ IH1 _ IH2]; simpl.
  - reflexivity.
  - destruct (f x); simpl; now rewrite IH.
  - destruct (f x), (f y); reflexivity.
  - now rewrite IH1.
Qed.

Lemma filter_seq_nth (cs : list Constraint.t) (f : Constraint.t -> bool) :
  length (filter (fun i => match nth_error cs i with
                           | Some c => f c
                           | None => false
                           end) (seq 0 (length cs)))
  = length (filter f cs).
Proof.
  induction cs as [|c cs IH] using rev_ind; [reflexivity|].
  rewrite length_app, Nat.add_comm. cbn [length Nat.add].
  rewrite seq_S, !filter_app, !length_app. cbn [Nat.add filter].
  rewrite nth_error_app2, Nat.sub_diag by lia. cbn [nth_error].
  f_equal; [|now destruct (f c)].
  rewrite <- IH. f_equal.
  apply filter_ext_in. intros i Hi. apply in_seq in Hi.
  now rewrite nth_error_app1 by lia.
Qed.

Lemma groups_size_below :
  groups_size (fun g => (Group.degree g <? D)%Z) groups = below_count constraints T.
Proof.
  unfold below_count. fold D.
  rewrite <- (filter_seq_nth constraints (fun c => (Constraint.degree c * T <? D)%Z)).
  fold below. fold m.
  rewrite <- (Permutation_filter_length below _ _ groups_perm).
  unfold groups_size.
  assert (H : forall gs, (forall g, In g gs -> In g groups) ->
              list_sum (map (fun g => length (Group.indexes g))
                            (filter (fun g => (Group.degree g <? D)%Z) gs))
              = length (filter below (concat (map Group.indexes gs)))).
  { induction gs as [|g gs IH]; intros Hsub; simpl; [reflexivity|].
    rewrite filter_app, length_app, (filter_below_group g) by (apply Hsub; now left).
    rewrite <- IH by (intros; apply Hsub; now right).
    destruct (Group.degree g <? D)%Z; reflexivity. }
  apply H. auto.
Qed.

Lemma groups_size_neq :
  (0 <= T)%Z -> Forall (fun c => (Constraint.degree c <= 16)%Z) constraints ->
  groups_size (fun g => negb (Group.degree g =? D)%Z) groups
  = groups_size (fun g => (Group.degree g <? D)%Z) groups.
Proof.
  intros HT Hb. unfold groups_size.
  assert (H : forall gs, (forall g, In g gs -> In g groups) ->
              list_sum (map (fun g => length (Group.indexes g))
                            (filter (fun g => negb (Group.degree g =? D)%Z) gs))
              = list_sum (map (fun g => length (Group.indexes g))
                            (filter (fun g => (Group.degree g <? D)%Z) gs))).
  { induction gs as [|g gs IH]; intros Hsub; simpl; [reflexivity|].
    specialize (IH (fun g' Hg' => Hsub g' (or_intror Hg'))).
    destruct (Group.indexes g) as [|i idx] eqn:E.
    - destruct (Group.degree g =? D)%Z, (Group.degree g <? D)%Z; simpl;
        rewrite ?E; simpl; exact IH.
    - assert (Hle : (Group.degree g <= D)%Z).
      { apply group_degree_le; [exact HT | exact Hb | apply Hsub; now left |].
        rewrite E. discriminate. }
      destruct (Group.degree g =? D)%Z eqn:E1; destruct (Group.degree g <? D)%Z eqn:E2;
        simpl; rewrite ?IH; try reflexivity.
      + apply Z.eqb_eq in E1. apply Z.ltb_lt in E2. lia.
      + apply Z.eqb_neq in E1. apply Z.ltb_ge in E2. lia. }
  apply H. auto.
Qed.

End Groups.

End PartitionFacts.

(** ** The degree adjustment loops append one copy per adjusted constraint *)

Module AdjustFacts.
Import Degrees CompositionPolynomial Evaluation DegreeFacts GroupFacts AdjustSpec.
Import PartitionFacts.

Section Loops.
Variable field : FiniteField.

Lemma nth_error_default {A} (l : list A) i d :
  i < length l -> nth_error l i = Some (nth i l d).
Proof. intros H. now apply nth_error_nth'. Qed.

Lemma adjustAt_indexes_spec power idxs (q0 acc : list (elt field)) :
  (forall i, In i idxs -> i < length q0) ->
  adjustAt_indexes field power idxs (q0 ++ acc)
  = Ok (q0 ++ acc ++ map (fun i => mul field (nth i q0 (zero field)) power) idxs).
Proof.
  revert acc. induction idxs as [|i idxs IH]; intros acc H; cbn [adjustAt_indexes map].
  - now rewrite app_nil_r.
  - assert (Hi : i < length q0) by (apply H; now left).
    rewrite nth_error_app1, (nth_error_default _ _ (zero field)) by lia.
    rewrite <- app_assoc, IH by (intros; apply H; now right).
    now rewrite <- app_assoc.
Qed.

Lemma adjustAt_groups_spec comb x groups (q0 acc : list (elt field)) :
  (forall g i, In g groups -> In i (Group.indexes g) -> i < length q0) ->
  adjustAt_groups field comb x groups (q0 ++ acc)
  = Ok (q0 ++ acc ++ adjusted_copies field comb x groups q0).
Proof.
  revert acc. induction groups as [|g groups IH]; intros acc H;
    cbn [adjustAt_groups adjusted_copies flat_map].
  - now rewrite app_nil_r.
  - fold (adjusted_copies field comb x groups q0).
    destruct (Group.degree g =? comb)%Z.
    + apply IH. intros g' i Hg'. apply H. now right.
    + rewrite adjustAt_indexes_spec by (intros i Hi; eapply H; [now left | exact Hi]).
      cbn [bind]. rewrite IH by (intros g' i Hg'; apply H; now right).
      now rewrite <- !app_assoc.
Qed.

Lemma adjustAll_indexes_spec powers idxs (rows acc : list (Vector field)) :
  (forall i, In i idxs -> i < length rows) ->
  adjustAll_indexes field powers idxs (rows ++ acc)
  = Ok (rows ++ acc ++ map (fun i => mulVectorElements field (nth i rows []) powers) idxs).
Proof.
  revert acc. induction idxs as [|i idxs IH]; intros acc H; cbn [adjustAll_indexes map].
  - now rewrite app_nil_r.
  - assert (Hi : i < length rows) by (apply H; now left).
    rewrite nth_error_app1, (@nth_error_default (Vector field) _ _ []) by lia.
    rewrite <- app_assoc, IH by (intros; apply H; now right).
    now rewrite <- app_assoc.
Qed.

Lemma adjustAll_groups_spec comb rou n groups (rows acc : list (Vector field)) :
  (forall g i, In g groups -> In i (Group.indexes g) -> i < length rows) ->
  adjustAll_groups field comb rou n groups (rows ++ acc)
  = Ok (rows ++ acc ++ adjusted_rows field comb rou n groups rows).
Proof.
  revert acc. induction groups as [|g groups IH]; intros acc H;
    cbn [adjustAll_groups adjusted_rows flat_map].
  - now rewrite app_nil_r.
  - fold (adjusted_rows field comb rou n groups rows).
    destruct (Group.degree g =? comb)%Z.
    + apply IH. intros g' i Hg'. apply H. now right.
    + rewrite adjustAll_indexes_spec by (intros i Hi; eapply H; [now left | exact Hi]).
      cbn [bind]. rewrite IH by (intros g' i Hg'; apply H; now right).
      now rewrite <- !app_assoc.
Qed.

Lemma adjusted_copies_length comb x groups (q0 : list (elt field)) :
  length (adjusted_copies field comb x groups q0)
  = groups_size (fun g => negb (Group.degree g =? comb)%Z) groups.
Proof.
  unfold groups_size.
  induction groups as [|g groups IH]; cbn [adjusted_copies flat_map filter]; [reflexivity|].
  fold (adjusted_copies field comb x groups q0).
  rewrite length_app, IH.
  destruct (Group.degree g =? comb)%Z; cbn [negb map list_sum length]; [reflexivity|].
  now rewrite length_map.
Qed.

Lemma adjusted_rows_length comb rou n groups (rows : list (Vector field)) :
  length (adjusted_rows field comb rou n groups rows)
  = groups_size (fun g => negb (Group.degree g =? comb)%Z) groups.
Proof.
  unfold groups_size.
  induction groups as [|g groups IH]; cbn [adjusted_rows flat_map filter]; [reflexivity|].
  fold (adjusted_rows field comb rou n groups rows).
  rewrite length_app, IH.
  destruct (Group.degree g =? comb)%Z; cbn [negb map list_sum length]; [reflexivity|].
  now rewrite length_map.
Qed.

End Loops.

(** C9: [groupTransitionConstraints] partitions the constraint indexes: the
    indexes of all groups together are a rearrangement of 0 .. m-1, so every
    index lies in exactly one group; every index of a group has
    constraint.degree * traceLength equal to the group's degree; the group
    degrees are pairwise distinct; and so, for a trace length that is not
    negative and declared degrees of at most 16 (the degrees of the
    specification, for which the logarithm of the code is exact), the
    adjustment loops of [evaluateAt] and [evaluateAll] return the m original
    entries followed by exactly one entry per constraint of a group below the
    combination degree. *)
Theorem groups_partition_constraints (constraints : list Constraint.t) (T : Z) :
  let groups := groupTransitionConstraints constraints T in
  let m := length constraints in
  let D := getCombinationDegree constraints T in
  Permutation (concat (map Group.indexes groups)) (seq 0 m)
  /\ (forall i, i < m ->
        exists g, In g groups /\ In i (Group.indexes g)
                  /\ forall g', In g' groups -> In i (Group.indexes g') -> g' = g)
  /\ (forall g i, In g groups -> In i (Group.indexes g) ->
        exists c, nth_error constraints i = Some c
                  /\ (Constraint.degree c * T)%Z = Group.degree g)
  /\ NoDup (map Group.degree groups)
  /\ ((0 <= T)%Z ->
      Forall (fun c => (Constraint.degree c <= 16)%Z) constraints ->
      forall field x (qValues : list (elt field)),
        length qValues = m ->
        exists out, adjustAt_groups field D x groups qValues = Ok out
                    /\ firstn m out = qValues
                    /\ length out = m + below_count constraints T)
  /\ ((0 <= T)%Z ->
      Forall (fun c => (Constraint.degree c <= 16)%Z) constraints ->
      forall field rou n (rows : list (Vector field)),
        length rows = m ->
        exists out, adjustAll_groups field D rou n groups rows = Ok out
                    /\ firstn m out = rows
                    /\ length out = m + below_count constraints T).
Proof.
  intros groups m D.
  split; [apply groups_perm|].
  split; [apply groups_unique|].
  split; [apply groups_member|].
  split; [apply groups_NoDup|].
  assert (Hlt : forall n, n = m -> forall g i,
                  In g groups -> In i (Group.indexes g) -> i < n).
  { intros n -> g i Hg Hi. eapply groups_index_lt; eauto. }
  split.
  - intros HT Hb field x qValues Hlen.
    pose proof (adjustAt_groups_spec field D x groups qValues [] (Hlt _ Hlen)) as H.
    rewrite app_nil_r in H. cbn [app] in H.
    eexists. split; [exact H|]. split.
    + rewrite <- Hlen. now rewrite firstn_app, firstn_all, Nat.sub_diag, firstn_O, app_nil_r.
    + rewrite length_app, adjusted_copies_length, Hlen. f_equal.
      unfold groups, D. rewrite (groups_size_neq constraints T HT Hb).
      apply groups_size_below.
  - intros HT Hb field rou n rows Hlen.
    pose proof (adjustAll_groups_spec field D rou n groups rows [] (Hlt _ Hlen)) as H.
    rewrite app_nil_r in H. cbn [app] in H.
    eexists. split; [exact H|]. split.
    + rewrite <- Hlen. now rewrite firstn_app, firstn_all, Nat.sub_diag, firstn_O, app_nil_r.
    + rewrite length_app, adjusted_rows_length, Hlen. f_equal.
      unfold groups, D. rewrite (groups_size_neq constraints T HT Hb).
      apply groups_size_below.
Qed.

Lemma groups_partition_constraints_witness :
  (exists g, In g (groupTransitionConstraints F17.constraints 2)
             /\ In 1 (Group.indexes g)
             /\ forall g', In g' (groupTransitionConstraints F17.constraints 2) ->
                           In 1 (Group.indexes g') -> g' = g)
  /\ (exists c, nth_error F17.constraints 1 = Some c
                /\ (Constraint.degree c * 2)%Z = 6%Z)
  /\ (exists out, adjustAt_groups F17.field 8 3%Z
                    (groupTransitionConstraints F17.constraints 2) [4; 5]%Z = Ok out
                  /\ firstn 2 out = [4; 5]%Z
                  /\ length out = 2 + 2)
  /\ (exists out, adjustAll_groups F17.field 8 9%Z 2
                    (groupTransitionConstraints F17.constraints 2)
                    [[4; 5]; [6; 7]]%Z = Ok out
                  /\ firstn 2 out = [[4; 5]; [6; 7]]%Z
                  /\ length out = 2 + 2).
Proof.
  pose proof (groups_partition_constraints F17.constraints 2) as (_ & H2 & H3 & _ & H5 & H6).
  refine (conj _ (conj _ (conj _ _))).
  - apply (H2 1). simpl. lia.
  - apply (H3 (Group.mk 6 [1]) 1); simpl; auto.
  - apply (H5 ltac:(lia) ltac:(repeat constructor; simpl; lia) F17.field 3%Z [4; 5]%Z).
    reflexivity.
  - apply (H6 ltac:(lia) ltac:(repeat constructor; simpl; lia) F17.field 9%Z 2
             [[4; 5]; [6; 7]]%Z).
    reflexivity.
Defined.

(** C4: the constructor makes one call of the PRNG, with the given seed, for
    dCoefficientCount + bCoefficientCount values, where dCoefficientCount is m
    plus the sizes of the groups whose degree is below the combination degree
    and bCoefficientCount is the count of the boundary constraints object,
    doubled exactly when compositionDegree > traceLength; the alpha
    coefficients are the first dCoefficientCount values of that stream and the
    beta coefficients are the rest. *)
Theorem constructor_coefficients field newBoundaryConstraints constraints assertions seed
  context :
  (forall n, length (prng field seed n) = n) ->
  let this := constructor field newBoundaryConstraints constraints assertions seed context in
  let T := Context.traceLength context in
  let d := length constraints
           + groups_size (fun g => (Group.degree g <? combinationDegree this)%Z)
                         (constraintGroups this) in
  let b := if (T <? compositionDegree this)%Z
           then 2 * BoundaryConstraints.count (bPoly this)
           else BoundaryConstraints.count (bPoly this) in
  let stream := prng field seed (d + b) in
  bPoly this = newBoundaryConstraints assertions context
  /\ dCoefficients this = firstn d stream
  /\ bCoefficients this = skipn d stream
  /\ length (dCoefficients this) = d
  /\ length (bCoefficients this) = b
  /\ dCoefficients this ++ bCoefficients this = stream.
Proof.
  intros Hprng this T d b stream.
  assert (Ed : count_loop (combinationDegree this) (constraintGroups this)
                 (length constraints) = d) by (unfold d; apply count_loop_spec).
  assert (Eb : bCoefficientCountOf (BoundaryConstraints.count (bPoly this))
                 (compositionDegree this) T = b).
  { unfold bCoefficientCountOf, b. destruct (T <? compositionDegree this)%Z; lia. }
  assert (E1 : dCoefficients this = firstn d stream).
  { unfold stream. rewrite <- Ed at 1. rewrite <- Eb at 1. rewrite <- Ed. reflexivity. }
  assert (E2 : bCoefficients this = skipn d stream).
  { unfold stream. rewrite <- Ed at 1. rewrite <- Eb at 1. rewrite <- Ed. reflexivity. }
  assert (Hs : length stream = d + b) by apply Hprng.
  split; [reflexivity|]. split; [exact E1|]. split; [exact E2|].
  rewrite E1, E2. split; [|split].
  - rewrite length_firstn. lia.
  - rewrite length_skipn. lia.
  - apply firstn_skipn.
Qed.

Lemma F17_prng_length seed n : length (prng F17.field seed n) = n.
Proof. simpl. unfold F17.prng. now rewrite length_map, length_seq. Qed.

Lemma constructor_coefficients_witness :
  dCoefficients F17.cp = firstn 4 (prng F17.field F17.seed 6)
  /\ bCoefficients F17.cp = skipn 4 (prng F17.field F17.seed 6)
  /\ length (dCoefficients F17.cp) = 4
  /\ length (bCoefficients F17.cp) = 2
  /\ dCoefficients F17.cp ++ bCoefficients F17.cp = prng F17.field F17.seed 6.
Proof.
  exact (proj2 (constructor_coefficients F17.field F17.newBoundaryConstraints
                  F17.constraints F17.assertions F17.seed F17.context
                  (F17_prng_length F17.seed))).
Defined.

End AdjustFacts.

(** ** Trace leaves: [mergeValues] and [parseValues] *)

Module LeafFacts.
Import Utils BufferFacts WriterFacts ReaderFacts Hex LeafSerializer.
Open Scope Z_scope.

Lemma digit_cases d :
  0 <= d < 16 ->
  d = 0 \/ d = 1 \/ d = 2 \/ d = 3 \/ d = 4 \/ d = 5 \/ d = 6 \/ d = 7 \/ d = 8
  \/ d = 9 \/ d = 10 \/ d = 11 \/ d = 12 \/ d = 13 \/ d = 14 \/ d = 15.
Proof. lia. Qed.

Lemma hexVal_hexDigit d : 0 <= d < 16 -> hexVal (hexDigit d) = Some d.
Proof.
  intros H. destruct (digit_cases d H) as
    [-> | [-> | [-> | [-> | [-> | [-> | [-> | [-> | [-> | [-> | [-> | [-> | [->
    | [-> | [-> | ->]]]]]]]]]]]]]]]; reflexivity.
Qed.

Lemma string_of_app a b : string_of (a ++ b) = (string_of a ++ string_of b)%string.
Proof. induction a as [|c a IH]; simpl; [reflexivity | now rewrite IH]. Qed.

Lemma string_of_length a : String.length (string_of a) = length a.
Proof. induction a as [|c a IH]; simpl; [reflexivity | now rewrite IH]. Qed.

Lemma fixedDigits_zero n acc : fixedDigits n 0 acc = repeat 0 n ++ acc.
Proof.
  revert acc. induction n as [|n IH]; intros acc; cbn [fixedDigits repeat]; [reflexivity|].
  change (0 / 16) with 0. change (0 mod 16) with 0.
  rewrite IH. change (0 :: acc) with ([0] ++ acc).
  rewrite app_assoc. f_equal.
  clear. induction n as [|n IH]; simpl; [reflexivity | now rewrite IH].
Qed.

(** The digits printed by [toString(16)] are the fixed-width digits without
    their leading zeros. *)
Lemma hexDigits_fixed n :
  forall fuel v acc,
    (1 <= n)%nat -> (1 <= fuel)%nat ->
    0 <= v < 16 ^ Z.of_nat n -> v < 16 ^ Z.of_nat fuel ->
    exists z D,
      hexDigits fuel v acc = D ++ acc
      /\ fixedDigits n v acc = repeat 0 z ++ D ++ acc
      /\ (z + length D = n)%nat.
Proof.
  induction n as [|n IH]; intros fuel v acc Hn Hf Hv Hvf; [lia|].
  destruct fuel as [|fuel]; [lia|].
  cbn [hexDigits fixedDigits].
  destruct (v / 16 =? 0) eqn:E.
  - apply Z.eqb_eq in E. rewrite E, fixedDigits_zero.
    exists n, [v mod 16]. repeat split; simpl; lia.
  - apply Z.eqb_neq in E.
    rewrite Nat2Z.inj_succ, Z.pow_succ_r in Hv, Hvf by lia.
    assert (H16 : 16 <= v).
    { destruct (Z_lt_le_dec v 16) as [Hlt|]; [|lia].
      rewrite Z.div_small in E by lia. lia. }
    assert (Hn' : (1 <= n)%nat).
    { destruct n; [|lia]. simpl in Hv. lia. }
    assert (Hf' : (1 <= fuel)%nat).
    { destruct fuel; [|lia]. simpl in Hvf. lia. }
    destruct (IH fuel (v / 16) (v mod 16 :: acc) Hn' Hf') as (z & D & H1 & H2 & H3).
    + split; [apply Z.div_pos; lia | apply Z.div_lt_upper_bound; lia].
    + apply Z.div_lt_upper_bound; lia.
    + exists z, (D ++ [v mod 16]). rewrite <- !app_assoc. cbn [app].
      repeat split; auto. rewrite length_app. simpl. lia.
Qed.

Lemma log2_fuel v : 0 <= v -> v < 16 ^ Z.of_nat (S (Z.to_nat (Z.log2 v))).
Proof.
  intros Hv. destruct (Z.eq_dec v 0) as [-> | Hne]; [simpl; lia|].
  pose proof (Z.log2_nonneg v) as Hl.
  destruct (Z.log2_spec v ltac:(lia)) as [_ Hlt].
  rewrite Nat2Z.inj_succ, Z2Nat.id by lia.
  eapply Z.lt_le_trans; [exact Hlt|].
  apply Z.pow_le_mono_l. lia.
Qed.

Lemma mod256_digits v :
  (v mod 256) / 16 = (v / 16) mod 16 /\ (v mod 256) mod 16 = v mod 16.
Proof.
  pose proof (Z.div_mod v 16 ltac:(lia)).
  pose proof (Z.div_mod (v / 16) 16 ltac:(lia)).
  pose proof (Z.mod_pos_bound v 16 ltac:(lia)).
  pose proof (Z.mod_pos_bound (v / 16) 16 ltac:(lia)).
  assert (E : v mod 256 = 16 * ((v / 16) mod 16) + v mod 16).
  { symmetry. apply Z.mod_unique_pos with (q := v / 16 / 16); lia. }
  rewrite E. split.
  - symmetry. apply Z.div_unique_pos with (r := v mod 16); lia.
  - symmetry. apply Z.mod_unique_pos with (q := (v / 16) mod 16); lia.
Qed.

Lemma fixedDigits_bytes k v acc :
  fixedDigits (k * 2) v acc = flat_map byteDigits (be_bytes k v) ++ acc.
Proof.
  revert v acc. induction k as [|k IH]; intros v acc; [reflexivity|].
  change (S k * 2)%nat with (S (S (k * 2))). cbn [fixedDigits].
  rewrite Z.div_div by lia. change (16 * 16) with 256.
  rewrite IH. unfold be_bytes. cbn [le_bytes rev].
  rewrite flat_map_app, <- app_assoc. cbn [flat_map app byteDigits].
  destruct (mod256_digits v) as [-> ->]. reflexivity.
Qed.

Lemma pow256 n : 256 ^ Z.of_nat n = 16 ^ Z.of_nat (n * 2).
Proof.
  rewrite Nat2Z.inj_mul, Z.mul_comm, Z.pow_mul_r by lia. reflexivity.
Qed.

(** Printing in base 16 and padding to twice the element size gives the two
    digits of every byte of the big-endian encoding. *)
Lemma padded_hex size v :
  (0 < size)%nat -> 0 <= v < 256 ^ Z.of_nat size ->
  padStart (toString16 v) (size * 2) "0"%char
  = string_of (flat_map byteHex (be_bytes size v)).
Proof.
  intros Hs Hv. unfold toString16, digitsOf.
  replace (v <? 0) with false by (symmetry; apply Z.ltb_ge; lia).
  rewrite pow256 in Hv.
  destruct (hexDigits_fixed (size * 2) (S (Z.to_nat (Z.log2 v))) v [])
    as (z & D & H1 & H2 & H3); [lia | lia | exact Hv | apply log2_fuel; lia |].
  rewrite app_nil_r in H1, H2. rewrite H1.
  unfold padStart. rewrite string_of_length, length_map.
  replace (size * 2 - length D)%nat with z by lia.
  rewrite <- string_of_app.
  change "0"%char with (hexDigit 0). rewrite <- map_repeat.
  rewrite <- map_app, <- H2, fixedDigits_bytes, app_nil_r.
  f_equal. clear. induction (be_bytes size v) as [|b l IH]; simpl; [reflexivity|].
  now rewrite IH.
Qed.

Lemma le_bytes_range n v : Forall (fun b => 0 <= b < 256) (le_bytes n v).
Proof.
  revert v. induction n as [|n IH]; intros v; cbn [le_bytes]; constructor; auto.
  apply Z.mod_pos_bound. lia.
Qed.

Lemma be_bytes_range n v : Forall (fun b => 0 <= b < 256) (be_bytes n v).
Proof. unfold be_bytes. apply Forall_rev, le_bytes_range. Qed.

Lemma be_bytes_length n v : length (be_bytes n v) = n.
Proof. unfold be_bytes. now rewrite length_rev, le_bytes_length. Qed.

Lemma byte_digits_range b :
  0 <= b < 256 -> 0 <= b / 16 < 16 /\ 0 <= b mod 16 < 16 /\ 16 * (b / 16) + b mod 16 = b.
Proof.
  intros H. pose proof (Z.div_mod b 16 ltac:(lia)).
  pose proof (Z.mod_pos_bound b 16 ltac:(lia)).
  repeat split; lia.
Qed.

Lemma hexDecode_bytes bytes :
  Forall (fun b => 0 <= b < 256) bytes ->
  hexDecode (string_of (flat_map byteHex bytes)) (length bytes) = bytes.
Proof.
  induction 1 as [|b bytes Hb _ IH]; [reflexivity|].
  cbn [flat_map byteHex app string_of length hexDecode].
  destruct (byte_digits_range b Hb) as (H1 & H2 & H3).
  rewrite (hexVal_hexDigit _ H1), (hexVal_hexDigit _ H2), IH, H3. reflexivity.
Qed.

Lemma parseDigits_bytes bytes acc :
  Forall (fun b => 0 <= b < 256) bytes ->
  parseDigits (string_of (flat_map byteHex bytes)) acc
  = Ok (fold_left (fun a b => 256 * a + b) bytes acc).
Proof.
  intros H. revert acc. induction H as [|b bytes Hb _ IH]; intros acc; [reflexivity|].
  cbn [flat_map byteHex app string_of parseDigits fold_left].
  destruct (byte_digits_range b Hb) as (H1 & H2 & H3).
  rewrite (hexVal_hexDigit _ H1), (hexVal_hexDigit _ H2), IH.
  f_equal. f_equal. lia.
Qed.

Lemma bigIntOfHex_bytes bytes :
  bytes <> [] ->
  Forall (fun b => 0 <= b < 256) bytes ->
  bigIntOfHex (string_of (flat_map byteHex bytes))
  = Ok (fold_left (fun a b => 256 * a + b) bytes 0).
Proof.
  intros Hne H. rewrite <- (parseDigits_bytes bytes 0 H).
  destruct bytes; [contradiction | reflexivity].
Qed.

Lemma be_value_bytes n v :
  0 <= v < 256 ^ Z.of_nat n ->
  fold_left (fun a b => 256 * a + b) (be_bytes n v) 0 = v.
Proof.
  intros Hv. unfold be_bytes.
  rewrite <- fold_left_rev_right, rev_involutive.
  rewrite <- (le_value_le_bytes n v Hv) at 2.
  generalize (le_bytes n v). intros l.
  induction l as [|b l IH]; cbn [fold_right le_value]; [reflexivity | rewrite IH; lia].
Qed.

Close Scope Z_scope.

(** One iteration of [mergeValues] writes the big-endian bytes of the value. *)
Lemma writes_hex size v :
  0 < size -> (0 <= v < 256 ^ Z.of_nat size)%Z ->
  writes (fun b o =>
            let* (b, n) := Hex.write b (padStart (toString16 v) (size * 2) "0"%char) o size in
            Ok (b, o + n))
         (be_bytes size v).
Proof.
  intros Hs Hv buf off Hle. rewrite be_bytes_length in Hle.
  unfold Hex.write.
  replace (length buf <? off) with false by (symmetry; apply Nat.ltb_ge; lia).
  replace (Nat.min size (length buf - off)) with (length (be_bytes size v))
    by (rewrite be_bytes_length; lia).
  rewrite (padded_hex size v Hs Hv), (hexDecode_bytes _ (be_bytes_range size v)).
  reflexivity.
Qed.

Lemma writes_mergeLoop size values position :
  0 < size ->
  forall n register col,
    columnAt values position n register = Some col ->
    Forall (fun v => (0 <= v < 256 ^ Z.of_nat size)%Z) col ->
    writes (mergeLoop size (size * 2) values position n register) (leaf size col).
Proof.
  intros Hs. induction n as [|n IH]; intros register col Hc Hr; cbn [columnAt] in Hc.
  - injection Hc as <-. apply writes_ret.
  - destruct (nth_error values register) as [row|] eqn:E1; [|discriminate].
    destruct (nth_error row position) as [v|] eqn:E2; [|discriminate].
    destruct (columnAt values position n (S register)) as [rest|] eqn:E3; [|discriminate].
    injection Hc as <-. inversion Hr as [|? ? Hv Hrest]; subst.
    pose proof (writes_bind _ _ _ _ (writes_hex size v Hs Hv) (IH _ _ E3 Hrest)) as H.
    eapply writes_ext; [|exact H].
    intros buf off. cbn [mergeLoop]. unfold valueAt. rewrite E1, E2. cbn [bind].
    destruct (Hex.write buf _ off size) as [[b w]|e]; reflexivity.
Qed.

Lemma leaf_length size col : length (leaf size col) = length col * size.
Proof.
  unfold leaf. apply SizeFacts.flat_map_length_const. intros v. apply be_bytes_length.
Qed.

Lemma columnAt_length values position n register col :
  columnAt values position n register = Some col -> length col = n.
Proof.
  revert register col. induction n as [|n IH]; intros register col; cbn [columnAt].
  - now intros [= <-].
  - destruct (nth_error values register) as [row|]; [|discriminate].
    destruct (nth_error row position) as [v|]; [|discriminate].
    destruct (columnAt values position n (S register)) as [rest|] eqn:E; [|discriminate].
    intros [= <-]. simpl. f_equal. eauto.
Qed.

(** One iteration of [parseValues] reads a value back from its bytes. *)
Lemma reads_hex size v :
  0 < size -> (0 <= v < 256 ^ Z.of_nat size)%Z ->
  reads (fun buf off =>
           let* x := bigIntOfHex (toStringHex buf off (off + size)) in
           Ok (x, off + size))
        (be_bytes size v) v.
Proof.
  intros Hs Hv buf off Hle Hw. rewrite be_bytes_length in *.
  unfold toStringHex. replace (off + size - off) with size by lia.
  fold (window buf off size). rewrite Hw.
  assert (Hne : be_bytes size v <> []).
  { intros E. pose proof (be_bytes_length size v) as L. rewrite E in L. simpl in L. lia. }
  rewrite (bigIntOfHex_bytes _ Hne (be_bytes_range size v)), (be_value_bytes _ _ Hv).
  reflexivity.
Qed.

Lemma reads_parseLoop size col :
  0 < size ->
  Forall (fun v => (0 <= v < 256 ^ Z.of_nat size)%Z) col ->
  reads (fun buf off => parseLoop size buf (length col) off) (leaf size col) col.
Proof.
  intros Hs Hr. unfold parseLoop, leaf.
  apply (reads_for_count
           (fun buf off =>
              let* v := bigIntOfHex (toStringHex buf off (off + size)) in
              Ok (v, off + size))
           (be_bytes size)).
  eapply Forall_impl; [|exact Hr]. intros v Hv. now apply reads_hex.
Qed.

(** C8: the leaf that [mergeValues] builds at a position is the concatenation
    of the values of the mutable registers followed by those of the secret
    registers, each as [fieldElementSize] bytes, most significant first; and
    for values below 2^(8*fieldElementSize), [parseValues] recovers exactly
    those values from it. *)
Theorem leaf_roundtrip this junk pValues sValues position pcol scol :
  0 < fieldElementSize this ->
  columnAt pValues position (stateWidth this) 0 = Some pcol ->
  columnAt sValues position (secretInputCount this) 0 = Some scol ->
  Forall (fun v => (0 <= v < 2 ^ (8 * Z.of_nat (fieldElementSize this)))%Z) (pcol ++ scol) ->
  mergeValues this junk pValues sValues position
  = Ok (leaf (fieldElementSize this) (pcol ++ scol))
  /\ length (leaf (fieldElementSize this) (pcol ++ scol))
     = getValueCount this * fieldElementSize this
  /\ parseValues this (leaf (fieldElementSize this) (pcol ++ scol)) = Ok (pcol, scol).
Proof.
  intros Hs Hp Hsec Hr.
  set (size := fieldElementSize this) in *.
  assert (Hr' : Forall (fun v => (0 <= v < 256 ^ Z.of_nat size)%Z) (pcol ++ scol)).
  { eapply Forall_impl; [|exact Hr]. cbv beta. intros v Hv.
    rewrite Z.pow_mul_r in Hv by lia. exact Hv. }
  apply Forall_app in Hr' as [Hrp Hrs].
  pose proof (columnAt_length _ _ _ _ _ Hp) as Lp.
  pose proof (columnAt_length _ _ _ _ _ Hsec) as Ls.
  assert (Hleaf : leaf size (pcol ++ scol) = leaf size pcol ++ leaf size scol)
    by apply flat_map_app.
  assert (Hlen : length (leaf size (pcol ++ scol)) = getValueCount this * size).
  { rewrite leaf_length, length_app, Lp, Ls. reflexivity. }
  split; [|split; [exact Hlen|]].
  - unfold mergeValues. fold size.
    set (buf0 := allocUnsafe junk (getValueCount this * size)).
    assert (L0 : length buf0 = length (leaf size pcol) + length (leaf size scol)).
    { unfold buf0. rewrite allocUnsafe_length, <- Hlen, Hleaf, length_app. reflexivity. }
    rewrite (writes_mergeLoop size pValues position Hs _ _ _ Hp Hrp buf0 0) by lia.
    cbn [bind Nat.add].
    rewrite (writes_mergeLoop size sValues position Hs _ _ _ Hsec Hrs)
      by (rewrite splice_length; simpl; lia).
    cbn [bind].
    change (length (leaf size pcol)) with (0 + length (leaf size pcol)).
    rewrite splice_splice by (simpl; lia).
    rewrite splice_all by (rewrite length_app; lia).
    now rewrite Hleaf.
  - unfold parseValues. fold size. rewrite Hleaf.
    pose proof (reads_parseLoop size pcol Hs Hrp (leaf size pcol ++ leaf size scol) 0) as R1.
    rewrite Lp in R1. cbv beta in R1. rewrite R1.
    + cbn [bind Nat.add].
      pose proof (reads_parseLoop size scol Hs Hrs (leaf size pcol ++ leaf size scol)
                    (length (leaf size pcol))) as R2.
      rewrite Ls in R2. cbv beta in R2. rewrite R2.
      * reflexivity.
      * rewrite length_app. lia.
      * pose proof (window_mid (leaf size pcol) (leaf size scol) []) as W.
        now rewrite app_nil_r in W.
    + rewrite length_app. simpl. lia.
    + pose proof (window_mid [] (leaf size pcol) (leaf size scol)) as W. exact W.
Qed.

Lemma leaf_roundtrip_witness :
  mergeValues (mkSerializer 2 2 1) Example.junk0
    [[1; 258]; [2; 65535]]%Z [[3; 4660]]%Z 1
  = Ok [1; 2; 255; 255; 18; 52]%Z
  /\ length [1; 2; 255; 255; 18; 52]%Z = 6
  /\ parseValues (mkSerializer 2 2 1) [1; 2; 255; 255; 18; 52]%Z
     = Ok ([258; 65535]%Z, [4660]%Z).
Proof.
  apply (leaf_roundtrip (mkSerializer 2 2 1) Example.junk0
           [[1; 258]; [2; 65535]]%Z [[3; 4660]]%Z 1 [258; 65535]%Z [4660]%Z).
  - simpl. lia.
  - reflexivity.
  - reflexivity.
  - repeat constructor; simpl; lia.
Defined.

End LeafFacts.

(** ** The scalar path computes D(x) + BC(x) *)

Module ScalarFacts.
Import Degrees CompositionPolynomial Evaluation AdjustSpec AdjustFacts.

Section Scalar.
Variable field : FiniteField.
Variable this : CompositionPolynomial.t field.
Variable context : Context.t field.

Lemma adjustAt_boundary_spec power n :
  forall i (b0 acc : list (elt field)),
    i + n <= length b0 ->
    adjustAt_boundary field power n i (b0 ++ acc)
    = Ok (b0 ++ acc ++ map (fun k => mul field (nth k b0 (zero field)) power) (seq i n)).
Proof.
  induction n as [|n IH]; intros i b0 acc H; cbn [adjustAt_boundary seq map].
  - now rewrite app_nil_r.
  - rewrite nth_error_app1, (nth_error_default _ _ (zero field)) by lia.
    rewrite <- app_assoc, IH by lia.
    now rewrite <- app_assoc.
Qed.

Lemma qcValueAt_spec x pValues nValues hValues :
  (forall g i, In g (constraintGroups this) -> In i (Group.indexes g) ->
               i < length (Context.evaluateConstraintsAt context x pValues nValues hValues)) ->
  qcValueAt field this x pValues nValues hValues context
  = Ok (qcAt field this x (Context.evaluateConstraintsAt context x pValues nValues hValues)).
Proof.
  intros H. unfold qcValueAt, qcAt, adjusted.
  pose proof (adjustAt_groups_spec field (combinationDegree this) x (constraintGroups this)
                _ [] H) as E.
  rewrite app_nil_r in E. cbn [app] in E. rewrite E. reflexivity.
Qed.

Lemma bValueAt_spec x pValues :
  BoundaryConstraints.count (bPoly this)
  <= length (BoundaryConstraints.evaluateAt (bPoly this) pValues x) ->
  bValueAt field this x pValues context
  = Ok (bcAt field this (Context.traceLength context) x
          (BoundaryConstraints.evaluateAt (bPoly this) pValues x)).
Proof.
  intros H. unfold bValueAt, bcAt, adjusted_boundary.
  destruct (0 <? compositionDegree this - Context.traceLength context)%Z; [|reflexivity].
  pose proof (adjustAt_boundary_spec
                (exp field x (compositionDegree this - Context.traceLength context))
                (BoundaryConstraints.count (bPoly this)) 0
                (BoundaryConstraints.evaluateAt (bPoly this) pValues x) [] H) as E.
  rewrite app_nil_r in E. cbn [app] in E. rewrite E. reflexivity.
Qed.

Lemma evaluateAt_spec x pValues nValues hValues :
  (forall g i, In g (constraintGroups this) -> In i (Group.indexes g) ->
               i < length (Context.evaluateConstraintsAt context x pValues nValues hValues)) ->
  BoundaryConstraints.count (bPoly this)
  <= length (BoundaryConstraints.evaluateAt (bPoly this) pValues x) ->
  evaluateAt field this x pValues nValues hValues context
  = Ok (compositionAt field this (Context.traceLength context) x
          (Context.evaluateConstraintsAt context x pValues nValues hValues)
          (BoundaryConstraints.evaluateAt (bPoly this) pValues x)).
Proof.
  intros Hq Hb. unfold evaluateAt.
  rewrite (qcValueAt_spec _ _ _ _ Hq). cbn [bind].
  rewrite (bValueAt_spec _ _ Hb). reflexivity.
Qed.

End Scalar.
End ScalarFacts.

(** ** The vector path computes the same values over the domain *)

Module VectorFacts.
Import Degrees CompositionPolynomial Evaluation AdjustSpec AdjustFacts ScalarFacts.

Section Lists.
Variable field : FiniteField.

Lemma zipWith_map {A} f (g h : A -> elt field) l :
  zipWith field f (map g l) (map h l) = map (fun x => f (g x) (h x)) l.
Proof. induction l as [|x l IH]; simpl; [reflexivity | now rewrite IH]. Qed.

Lemma nth_zipWith f (a b : Vector field) j z :
  j < length a -> j < length b ->
  nth j (zipWith field f a b) z = f (nth j a z) (nth j b z).
Proof.
  revert b j. induction a as [|x a IH]; intros [|y b] j Ha Hb; simpl in *; try lia.
  destruct j; [reflexivity | apply IH; lia].
Qed.

Lemma map_seq_nth {A B} (F : A -> B) (l : list A) d :
  map (fun j => F (nth j l d)) (seq 0 (length l)) = map F l.
Proof.
  induction l as [|x l IH] using rev_ind; [reflexivity|].
  rewrite length_app, Nat.add_comm. cbn [length Nat.add].
  rewrite seq_S, !map_app. cbn [Nat.add map].
  rewrite app_nth2, Nat.sub_diag by lia. cbn [nth]. f_equal.
  rewrite <- IH. apply map_ext_in. intros j Hj. apply in_seq in Hj.
  now rewrite app_nth1 by lia.
Qed.

Lemma getPowerSeries_length base n : length (getPowerSeries field base n) = n.
Proof. unfold getPowerSeries. now rewrite length_map, length_seq. Qed.

Lemma getPowerSeries_nth base n j :
  j < n -> nth j (getPowerSeries field base n) (zero field) = exp field base (Z.of_nat j).
Proof.
  intros H. unfold getPowerSeries.
  rewrite (nth_indep _ (zero field) (exp field base (Z.of_nat 0)))
    by (rewrite length_map, length_seq; lia).
  rewrite (map_nth (fun j => exp field base (Z.of_nat j))), seq_nth by lia.
  reflexivity.
Qed.

End Lists.
End VectorFacts.

Module TableFacts.
Import Degrees CompositionPolynomial Evaluation AdjustSpec AdjustFacts ScalarFacts VectorFacts.

Section Tables.
Variable field : FiniteField.

Lemma nth_map_default {A} (f : A -> elt field) l j d :
  j < length l -> nth j (map f l) (zero field) = f (nth j l d).
Proof.
  intros H. rewrite (nth_indep _ (zero field) (f d)) by (now rewrite length_map).
  apply map_nth.
Qed.

Lemma table_length m f (domain : Vector field) : length (table field m f domain) = m.
Proof. unfold table. now rewrite length_map, length_seq. Qed.

Lemma table_row m f (domain : Vector field) i :
  i < m -> nth i (table field m f domain) [] = map (f i) domain.
Proof.
  intros H. unfold table.
  rewrite (nth_indep _ [] (map (f 0) domain)) by (rewrite length_map, length_seq; lia).
  rewrite (map_nth (fun i => map (f i) domain)), seq_nth by lia. reflexivity.
Qed.

Lemma column_table m f (domain : Vector field) j :
  j < length domain ->
  column field j (table field m f domain)
  = map (fun i => f i (nth j domain (zero field))) (seq 0 m).
Proof.
  intros H. unfold column, table. rewrite map_map.
  apply map_ext. intros i. now apply nth_map_default.
Qed.

Lemma column_app j (a b : list (Vector field)) :
  column field j (a ++ b) = column field j a ++ column field j b.
Proof. apply map_app. Qed.

Lemma nth_seq_map {A} (f : nat -> A) m i d :
  i < m -> nth i (map f (seq 0 m)) d = f i.
Proof.
  intros H. rewrite (nth_indep _ d (f 0)) by (rewrite length_map, length_seq; lia).
  rewrite (map_nth f), seq_nth by lia. reflexivity.
Qed.

Hypothesis exp_exp :
  forall a i j, (0 <= i)%Z -> (0 <= j)%Z ->
    exp field (exp field a i) j = exp field (exp field a j) i.

(** One column of the adjusted rows of [evaluateAll] is the list of adjusted
    copies of [evaluateAt] at the corresponding point of the domain. *)
Lemma column_adjusted_rows D rou (domain : Vector field) m f groups j :
  domain = getPowerSeries field rou (length domain) ->
  j < length domain ->
  (forall g i, In g groups -> In i (Group.indexes g) -> i < m) ->
  (forall g, In g groups -> Group.indexes g <> [] -> (Group.degree g <= D)%Z) ->
  column field j
    (adjusted_rows field D rou (length domain) groups (table field m f domain))
  = adjusted_copies field D (nth j domain (zero field)) groups
      (map (fun i => f i (nth j domain (zero field))) (seq 0 m)).
Proof.
  intros Hdom Hj Hidx Hdeg.
  induction groups as [|g groups IH]; cbn [adjusted_rows adjusted_copies flat_map];
    [reflexivity|].
  fold (adjusted_rows field D rou (length domain) groups (table field m f domain)).
  fold (adjusted_copies field D (nth j domain (zero field)) groups
          (map (fun i => f i (nth j domain (zero field))) (seq 0 m))).
  rewrite column_app,
    (IH (fun g' i Hg' => Hidx g' i (or_intror Hg'))
        (fun g' Hg' => Hdeg g' (or_intror Hg'))).
  f_equal.
  destruct (Group.degree g =? D)%Z; [reflexivity|].
  unfold column. rewrite map_map. apply map_ext_in. intros i Hi.
  assert (Him : i < m) by (eapply Hidx; [now left | exact Hi]).
  rewrite table_row by exact Him.
  unfold mulVectorElements.
  rewrite nth_zipWith
    by (rewrite ?length_map, ?getPowerSeries_length; lia).
  rewrite (nth_map_default (f i) domain j (zero field)) by exact Hj.
  rewrite getPowerSeries_nth by exact Hj.
  rewrite nth_seq_map by exact Him.
  f_equal.
  assert (Hx : nth j domain (zero field) = exp field rou (Z.of_nat j)).
  { rewrite Hdom at 1. now apply getPowerSeries_nth. }
  rewrite Hx. apply exp_exp; [|lia].
  assert (Hne : Group.indexes g <> []) by (intros E; rewrite E in Hi; destruct Hi).
  specialize (Hdeg g (or_introl eq_refl) Hne). lia.
Qed.

Lemma adjustAll_boundary_spec powers n :
  forall i (rows acc : list (Vector field)),
    i + n <= length rows ->
    adjustAll_boundary field powers n i (rows ++ acc)
    = Ok (rows ++ acc
          ++ map (fun k => mulVectorElements field (nth k rows []) powers) (seq i n)).
Proof.
  induction n as [|n IH]; intros i rows acc H; cbn [adjustAll_boundary seq map].
  - now rewrite app_nil_r.
  - rewrite nth_error_app1, (@nth_error_default (Vector field) _ _ []) by lia.
    rewrite <- app_assoc, IH by lia.
    now rewrite <- app_assoc.
Qed.

Lemma column_boundary_rows inc w (domain : Vector field) n f j :
  domain = getPowerSeries field w (length domain) ->
  j < length domain ->
  (0 <= inc)%Z ->
  column field j
    (map (fun k =>
            mulVectorElements field (nth k (table field n f domain) [])
              (getPowerSeries field (exp field w inc) (length domain)))
         (seq 0 n))
  = map (fun k =>
           mul field (nth k (map (fun i => f i (nth j domain (zero field))) (seq 0 n))
                          (zero field))
                     (exp field (nth j domain (zero field)) inc))
        (seq 0 n).
Proof.
  intros Hdom Hj Hinc. unfold column. rewrite map_map.
  apply map_ext_in. intros k Hk. apply in_seq in Hk.
  rewrite table_row by lia.
  unfold mulVectorElements.
  rewrite nth_zipWith by (rewrite ?length_map, ?getPowerSeries_length; lia).
  rewrite (nth_map_default (f k) domain j (zero field)) by exact Hj.
  rewrite getPowerSeries_nth by exact Hj.
  rewrite nth_seq_map by lia.
  f_equal.
  assert (Hx : nth j domain (zero field) = exp field w (Z.of_nat j)).
  { rewrite Hdom at 1. now apply getPowerSeries_nth. }
  rewrite Hx. apply exp_exp; lia.
Qed.

Lemma combineManyVectors_table m f (domain : Vector field) extra k
  (F : elt field -> elt field) :
  0 < m ->
  (forall j, j < length domain ->
     combineVectors field (column field j (table field m f domain ++ extra)) k
     = F (nth j domain (zero field))) ->
  combineManyVectors field (table field m f domain ++ extra) k = map F domain.
Proof.
  intros Hm H. unfold combineManyVectors.
  destruct m as [|m]; [lia|].
  unfold table at 1. cbn [seq map app].
  fold (table field (S m) f domain).
  change (map (f 0) domain :: map (fun i => map (f i) domain) (seq 1 m))
    with (table field (S m) f domain).
  rewrite length_map, <- (map_seq_nth F domain (zero field)).
  apply map_ext_in. intros j Hj. apply in_seq in Hj. apply H. lia.
Qed.

End Tables.
End TableFacts.

(** ** The scalar path agrees with the vector path *)

Module RefinementFacts.
Import Degrees CompositionPolynomial Evaluation AdjustSpec AdjustFacts.
Import PartitionFacts ScalarFacts VectorFacts TableFacts.

Lemma map_nth_seq {A} (l : list A) d :
  map (fun i => nth i l d) (seq 0 (length l)) = l.
Proof.
  pose proof (map_seq_nth (fun x : A => x) l d) as H.
  now rewrite map_id in H.
Qed.

Section Refinement.
Variable field : FiniteField.
Variable newBoundaryConstraints :
  list (Assertion.t field) -> Context.t field -> BoundaryConstraints.t field.
Variable constraints : list Constraint.t.
Variable assertions : list (Assertion.t field).
Variable seed : Buffer.
Variable context : Context.t field.
Variables pPolys pEvaluations : list (Vector field).

(** The register values at x, at the next step, and the readonly values at x,
    as the trace polynomials give them. *)
Variables pAt nAt hAt : elt field -> list (elt field).

Let this := constructor field newBoundaryConstraints constraints assertions seed context.
Let T := Context.traceLength context.
Let w := Context.rootOfUnity context.
Let DE := Context.evaluationDomain context.
Let DC := Context.compositionDomain context.
Let m := length constraints.
Let bn := BoundaryConstraints.count (bPoly this).
Let QAt (x : elt field) := Context.evaluateConstraintsAt context x (pAt x) (nAt x) (hAt x).
Let BAt (x : elt field) := BoundaryConstraints.evaluateAt (bPoly this) (pAt x) x.
Let CAt (x : elt field) := compositionAt field this T x (QAt x) (BAt x).

(** Laws of the field. *)
Hypothesis exp_exp :
  forall a i j, (0 <= i)%Z -> (0 <= j)%Z ->
    exp field (exp field a i) j = exp field (exp field a j) i.
Hypothesis div_swap :
  forall q n d, mul field q (div field d n) = div field q (div field n d).

(** The context: a trace length that is not negative, at least one
    constraint and one boundary polynomial, and the two domains as the power
    series of the root of unity and of its power. *)
Hypothesis T_nonneg : (0 <= T)%Z.
Hypothesis constraints_nonempty : 0 < m.

(** The declared degrees are those of the specification, for which the
    combination degree of the code is the one of [getCombinationDegree]. *)
Hypothesis degree_bound : Forall (fun c => (Constraint.degree c <= 16)%Z) constraints.

Hypothesis boundary_nonempty : 0 < bn.
Hypothesis evaluation_domain : DE = getPowerSeries field w (length DE).
Hypothesis composition_domain :
  exists factor,
    compositionFactorOf (length DE) (length DC) = Ok factor
    /\ DC = getPowerSeries field (exp field w factor) (length DC).

(** The evaluators: one value per constraint and per boundary polynomial at a
    point, and the same values in the tables computed over a domain. *)
Hypothesis constraint_count : forall x, length (QAt x) = m.
Hypothesis constraint_table :
  Context.evaluateTracePolynomials context pPolys
  = Ok (table field m (fun i x => nth i (QAt x) (zero field)) DC).
Hypothesis boundary_count : forall x, length (BAt x) = bn.
Hypothesis boundary_table :
  BoundaryConstraints.evaluateAll (bPoly this) pEvaluations DE
  = table field bn (fun i x => nth i (BAt x) (zero field)) DE.

(** The low-degree extension is exact on the combined constraint values:
    interpolating them over the composition domain and evaluating over the
    evaluation domain gives their values there. *)
Hypothesis extension_exact :
  evalPolyAtRoots field
    (interpolateRoots field DC (map (fun x => qcAt field this x (QAt x)) DC)) DE
  = map (fun x => qcAt field this x (QAt x)) DE.

Lemma this_groups_index g i :
  In g (constraintGroups this) -> In i (Group.indexes g) -> i < m.
Proof. apply groups_index_lt. Qed.

Lemma this_groups_degree g :
  In g (constraintGroups this) -> Group.indexes g <> [] ->
  (Group.degree g <= combinationDegree this)%Z.
Proof. apply group_degree_le; [exact T_nonneg | exact degree_bound]. Qed.

Lemma qc_column (domain : Vector field) rou j :
  domain = getPowerSeries field rou (length domain) ->
  j < length domain ->
  combineVectors field
    (column field j
       (table field m (fun i x => nth i (QAt x) (zero field)) domain
        ++ adjusted_rows field (combinationDegree this) rou (length domain)
             (constraintGroups this)
             (table field m (fun i x => nth i (QAt x) (zero field)) domain)))
    (dCoefficients this)
  = qcAt field this (nth j domain (zero field)) (QAt (nth j domain (zero field))).
Proof.
  intros Hdom Hj. unfold qcAt, adjusted. f_equal.
  rewrite column_app, column_table by exact Hj.
  rewrite (column_adjusted_rows field exp_exp _ rou domain m _ _ j Hdom Hj
             this_groups_index this_groups_degree).
  rewrite <- (constraint_count (nth j domain (zero field))).
  now rewrite map_nth_seq.
Qed.

Lemma qcEvaluationsOf_spec :
  qcEvaluationsOf field this pPolys context
  = Ok (map (fun x => qcAt field this x (QAt x)) DC).
Proof.
  unfold qcEvaluationsOf. rewrite constraint_table. cbn [bind].
  destruct composition_domain as (factor & Hf & Hdom).
  fold DE DC. rewrite Hf. cbn [bind]. fold w.
  unfold matrixRowsToVectors.
  rewrite <- (app_nil_r (table field m _ DC)) at 1.
  rewrite adjustAll_groups_spec
    by (rewrite table_length; apply this_groups_index).
  cbn [bind app]. f_equal.
  apply combineManyVectors_table; [exact constraints_nonempty|].
  intros j Hj. now apply qc_column.
Qed.

Lemma bc_column j :
  j < length DE ->
  combineVectors field
    (column field j
       (table field bn (fun i x => nth i (BAt x) (zero field)) DE
        ++ (if (0 <? compositionDegree this - T)%Z
            then map (fun k =>
                        mulVectorElements field
                          (nth k (table field bn (fun i x => nth i (BAt x) (zero field)) DE) [])
                          (getPowerSeries field (exp field w (compositionDegree this - T))
                             (length DE)))
                     (seq 0 bn)
            else [])))
    (bCoefficients this)
  = bcAt field this T (nth j DE (zero field)) (BAt (nth j DE (zero field))).
Proof.
  intros Hj. unfold bcAt, adjusted_boundary. fold bn. f_equal.
  rewrite column_app, column_table by exact Hj.
  rewrite <- (boundary_count (nth j DE (zero field))) at 1.
  rewrite map_nth_seq.
  destruct (0 <? compositionDegree this - T)%Z eqn:E.
  - apply Z.ltb_lt in E. f_equal.
    rewrite (column_boundary_rows field exp_exp _ w DE bn _ j evaluation_domain Hj)
      by lia.
    apply map_ext_in. intros k Hk. apply in_seq in Hk.
    rewrite nth_seq_map by lia. reflexivity.
  - now rewrite app_nil_r.
Qed.

Lemma bcEvaluationsOf_spec :
  bcEvaluationsOf field this pEvaluations context
  = Ok (map (fun x => bcAt field this T x (BAt x)) DE).
Proof.
  unfold bcEvaluationsOf. fold DE T w bn. rewrite boundary_table.
  unfold matrixRowsToVectors.
  assert (E : (if (0 <? compositionDegree this - T)%Z
               then adjustAll_boundary field
                      (getPowerSeries field (exp field w (compositionDegree this - T))
                         (length DE))
                      bn 0 (table field bn (fun i x => nth i (BAt x) (zero field)) DE)
               else Ok (table field bn (fun i x => nth i (BAt x) (zero field)) DE))
              = Ok (table field bn (fun i x => nth i (BAt x) (zero field)) DE
                    ++ (if (0 <? compositionDegree this - T)%Z
                        then map (fun k =>
                                    mulVectorElements field
                                      (nth k (table field bn
                                                (fun i x => nth i (BAt x) (zero field)) DE) [])
                                      (getPowerSeries field
                                         (exp field w (compositionDegree this - T))
                                         (length DE)))
                                 (seq 0 bn)
                        else []))).
  { destruct (0 <? compositionDegree this - T)%Z.
    - rewrite <- (app_nil_r (table field bn _ DE)) at 1.
      rewrite adjustAll_boundary_spec by (rewrite table_length; lia).
      reflexivity.
    - now rewrite app_nil_r. }
  rewrite E. cbn [bind]. f_equal.
  apply combineManyVectors_table; [exact boundary_nonempty|].
  intros j Hj. now apply bc_column.
Qed.

(** C2: with the transcript seed fixed by the constructor, declared degrees
    of at most 16 (the degrees of the specification) and matching inputs (the
    register values given to the scalar path at x are those of the trace
    polynomials at x and at the next step), [evaluateAll] returns,
    for every point x of the evaluation domain, the value D(x) + BC(x) that
    [evaluateAt] returns at x, with the same degree adjustment, coefficient
    order and linear combination. *)
Theorem evaluateAt_matches_evaluateAll :
  evaluateAll field this pPolys pEvaluations context = Ok (map CAt DE)
  /\ forall x, evaluateAt field this x (pAt x) (nAt x) (hAt x) context = Ok (CAt x).
Proof.
  split.
  - unfold evaluateAll. rewrite qcEvaluationsOf_spec. cbn [bind].
    fold DE DC. rewrite extension_exact.
    rewrite bcEvaluationsOf_spec. cbn [bind]. f_equal.
    unfold ZeroPolynomial.evaluateAll.
    cbn [ZeroPolynomial.numerators ZeroPolynomial.denominators].
    unfold divVectorElements, mulVectorElements, addVectorElements.
    rewrite !zipWith_map.
    apply map_ext. intros x. unfold CAt, compositionAt.
    f_equal. unfold ZeroPolynomial.evaluateAt. apply div_swap.
  - intros x. unfold CAt, QAt, BAt.
    apply (evaluateAt_spec field this context x (pAt x) (nAt x) (hAt x)).
    + intros g i Hg Hi. fold (QAt x). rewrite constraint_count.
      eapply this_groups_index; eauto.
    + fold (BAt x). fold bn. rewrite boundary_count. lia.
Qed.

End Refinement.
End RefinementFacts.

(** ** The field of 17 elements satisfies the laws, and the example context
    satisfies the contracts *)

Module F17Facts.
Import Degrees CompositionPolynomial Evaluation AdjustSpec RefinementFacts.
Open Scope Z_scope.

Lemma F17_exp_exp a i j :
  0 <= i -> 0 <= j ->
  exp F17.field (exp F17.field a i) j = exp F17.field (exp F17.field a j) i.
Proof.
  intros Hi Hj. cbn [exp F17.field]. unfold F17.exp.
  replace (i <? 0) with false by (symmetry; apply Z.ltb_ge; lia).
  replace (j <? 0) with false by (symmetry; apply Z.ltb_ge; lia).
  unfold F17.pow.
  rewrite !Z.mod_pow_l, <- !Z.pow_mul_r by lia.
  now rewrite (Z.mul_comm i j).
Qed.

Lemma residue_cases r :
  0 <= r < 17 ->
  r = 0 \/ r = 1 \/ r = 2 \/ r = 3 \/ r = 4 \/ r = 5 \/ r = 6 \/ r = 7 \/ r = 8
  \/ r = 9 \/ r = 10 \/ r = 11 \/ r = 12 \/ r = 13 \/ r = 14 \/ r = 15 \/ r = 16.
Proof. lia. Qed.

(** Fermat's little theorem for 17, in the form used by a double inverse. *)
Lemma pow225_mod17 d : d ^ 225 mod 17 = d mod 17.
Proof.
  rewrite <- Z.mod_pow_l.
  destruct (residue_cases (d mod 17) (Z.mod_pos_bound d 17 ltac:(lia))) as
    [-> | [-> | [-> | [-> | [-> | [-> | [-> | [-> | [-> | [-> | [-> | [-> | [->
    | [-> | [-> | [-> | ->]]]]]]]]]]]]]]]]; vm_compute; reflexivity.
Qed.

Lemma F17_div_swap q n d :
  mul F17.field q (div F17.field d n) = div F17.field q (div F17.field n d).
Proof.
  cbn [mul div F17.field]. unfold F17.div, F17.mul, F17.inv, F17.pow, F17.p.
  change (17 - 2) with 15.
  rewrite !Zmult_mod_idemp_r.
  rewrite Z.mul_assoc, Zmult_mod_idemp_r.
  rewrite <- (Zmult_mod_idemp_r (((n * d ^ 15) mod 17) ^ 15) q), Z.mod_pow_l.
  rewrite Zmult_mod_idemp_r.
  rewrite Z.pow_mul_l, <- Z.pow_mul_r by lia. change (15 * 15) with 225.
  rewrite Z.mul_assoc.
  rewrite <- (Zmult_mod_idemp_r (d ^ 225) (q * n ^ 15)), pow225_mod17.
  rewrite Zmult_mod_idemp_r.
  f_equal. ring.
Qed.

Close Scope Z_scope.

Lemma evaluateAt_matches_evaluateAll_witness :
  evaluateAll F17.field F17.cp F17.pPolys F17.pEvaluations F17.context
  = Ok (map (fun x =>
               compositionAt F17.field F17.cp 2 x
                 (F17.evaluateConstraintsAt x (F17.pAt x) (F17.nAt x) (F17.hAt x))
                 (BoundaryConstraints.evaluateAt (bPoly F17.cp) (F17.pAt x) x))
            F17.evaluationDomain)
  /\ forall x,
       evaluateAt F17.field F17.cp x (F17.pAt x) (F17.nAt x) (F17.hAt x) F17.context
       = Ok (compositionAt F17.field F17.cp 2 x
               (F17.evaluateConstraintsAt x (F17.pAt x) (F17.nAt x) (F17.hAt x))
               (BoundaryConstraints.evaluateAt (bPoly F17.cp) (F17.pAt x) x)).
Proof.
  apply (evaluateAt_matches_evaluateAll F17.field F17.newBoundaryConstraints
           F17.constraints F17.assertions F17.seed F17.context
           F17.pPolys F17.pEvaluations F17.pAt F17.nAt F17.hAt).
  - exact F17_exp_exp.
  - exact F17_div_swap.
  - simpl. lia.
  - simpl. lia.
  - repeat constructor; simpl; lia.
  - simpl. lia.
  - vm_compute. reflexivity.
  - exists 2%Z. split; vm_compute; reflexivity.
  - intros x. reflexivity.
  - vm_compute. reflexivity.
  - intros x. reflexivity.
  - vm_compute. reflexivity.
  - vm_compute. reflexivity.
Defined.

(** On the example the two paths return the same sixteen values. *)
Lemma example_paths_agree :
  evaluateAll F17.field F17.cp F17.pPolys F17.pEvaluations F17.context
  = Ok [0; 13; 13; 9; 8; 7; 12; 15; 15; 11; 15; 8; 5; 1; 3; 5]%Z
  /\ map (fun x => evaluateAt F17.field F17.cp x (F17.pAt x) (F17.nAt x) (F17.hAt x)
                     F17.context)
         F17.evaluationDomain
     = map Ok [0; 13; 13; 9; 8; 7; 12; 15; 15; 11; 15; 8; 5; 1; 3; 5]%Z.
Proof. split; vm_compute; reflexivity. Qed.

End F17Facts.

(* ====================================================================== *)
(** * Further properties of the code *)
(* ====================================================================== *)

(** ** sizeof.ts: the size of a Merkle proof *)

Module MerkleSizeFacts.
Import Sizeof SizeofFacts SizeSpec.

Lemma sizeOfMerkleProof_spec (proof : BatchMerkleProof) n :
  sizeOfMerkleProof proof = Ok n <-> merkle_sizable proof /\ n = merkle_size proof.
Proof.
  unfold sizeOfMerkleProof, merkle_sizable, matrix_sizable, merkle_size. cbv zeta. split.
  - intros H.
    destruct (sizeOfArray (values proof)) as [a|e] eqn:Ea; [|discriminate].
    cbn [bind] in H.
    destruct (sizeOfMatrix (nodes proof)) as [m|e] eqn:Em; [|discriminate].
    cbn [bind] in H. injection H as <-.
    apply sizeOfArray_ok_inv in Ea as (Ha & ->).
    apply sizeOfMatrix_ok_inv in Em as (Hm & Hc & ->).
    repeat split; try assumption; lia.
  - intros ((Ha & Hm & Hc) & ->).
    rewrite (sizeOfArray_ok _ Ha). cbn [bind].
    rewrite (sizeOfMatrix_ok _ Hm Hc). cbn [bind].
    f_equal. lia.
Qed.

Lemma sizeOfMerkleProof_rejects (proof : BatchMerkleProof) :
  ~ merkle_sizable proof -> threw (sizeOfMerkleProof proof).
Proof.
  intros H. destruct (sizeOfMerkleProof proof) as [n|e] eqn:E; [|now exists e].
  exfalso. apply H. now apply (sizeOfMerkleProof_spec proof n).
Qed.

(** X1: [sizeOfMerkleProof] returns a size exactly for the proofs with 1 to
    256 leaves and at most 256 node columns of at most 126 nodes each; the
    size is then the bytes of the leaves and of the nodes plus one byte per
    column and three more (the two counts and the depth).  The leaves are
    checked first: a proof without leaves is rejected as a zero-length array
    whatever its nodes. *)
Theorem sizeOfMerkleProof_accepts (proof : BatchMerkleProof) :
  (forall n,
      sizeOfMerkleProof proof = Ok n <->
      (1 <= length (values proof) <= 256
       /\ length (nodes proof) <= 256
       /\ Forall (fun column => length column <= 126) (nodes proof))
      /\ n = sum_lengths (values proof) + length (nodes proof)
             + sum_columns (nodes proof) + 3)
  /\ (values proof = [] -> sizeOfMerkleProof proof = Throw ArrayZeroLength).
Proof.
  split.
  - intros n. apply sizeOfMerkleProof_spec.
  - intros H. unfold sizeOfMerkleProof. now rewrite H.
Qed.

Lemma sizeOfMerkleProof_accepts_witness :
  sizeOfMerkleProof Example.ldMerkle = Ok 12
  /\ sizeOfMerkleProof (mkProof [] (repeat [] 300) 0) = Throw ArrayZeroLength.
Proof.
  split.
  - apply (proj1 (sizeOfMerkleProof_accepts Example.ldMerkle)).
    simpl. repeat split; try lia. repeat constructor.
  - apply (proj2 (sizeOfMerkleProof_accepts (mkProof [] (repeat [] 300) 0))).
    reflexivity.
Defined.

End MerkleSizeFacts.

(** ** sizeof.ts: [sizeOf] *)

Module ProofSizeFacts.
Import Sizeof SizeofProof SizeofFacts SizeofProofFacts SizeSpec MerkleSizeFacts.

Lemma add_levels_ok h cs :
  forall ld lv,
    Forall (fun c => merkle_sizable (columnProof c) /\ merkle_sizable (polyProof c)) cs ->
    add_levels ld lv h cs
    = Ok (ld + list_sum (map (level_size h) cs), lv ++ map (level_size h) cs).
Proof.
  induction cs as [|c rest IH]; intros ld lv H; cbn [add_levels map list_sum].
  - now rewrite Nat.add_0_r, app_nil_r.
  - inversion H as [|? ? (Hc & Hp) Hrest]; subst.
    cbv zeta.
    rewrite (proj2 (sizeOfMerkleProof_spec (columnProof c) _) (conj Hc eq_refl)).
    cbn [bind].
    rewrite (proj2 (sizeOfMerkleProof_spec (polyProof c) _) (conj Hp eq_refl)).
    cbn [bind]. rewrite (IH _ _ Hrest). f_equal.
    apply f_equal2; [unfold list_sum, level_size; cbn [fold_right]; lia|].
    now rewrite <- app_assoc.
Qed.

Lemma add_levels_ok_inv h cs :
  forall ld lv r,
    add_levels ld lv h cs = Ok r ->
    Forall (fun c => merkle_sizable (columnProof c) /\ merkle_sizable (polyProof c)) cs.
Proof.
  induction cs as [|c rest IH]; intros ld lv r H; [constructor|].
  cbn [add_levels] in H. cbv zeta in H.
  destruct (sizeOfMerkleProof (columnProof c)) as [a|e] eqn:Ea; [|discriminate].
  cbn [bind] in H.
  destruct (sizeOfMerkleProof (polyProof c)) as [b|e] eqn:Eb; [|discriminate].
  cbn [bind] in H.
  apply sizeOfMerkleProof_spec in Ea as (Ha & _).
  apply sizeOfMerkleProof_spec in Eb as (Hb & _).
  constructor; [now split | eapply IH; exact H].
Qed.

Lemma sizeOf_spec proof h :
  matrix_sizable (nodes (evProof proof)) ->
  matrix_sizable (nodes (lcProof proof)) ->
  Forall (fun c => merkle_sizable (columnProof c) /\ merkle_sizable (polyProof c))
         (components (ldProof proof)) ->
  1 <= length (remainder (ldProof proof)) <= 256 ->
  let matrix m := 1 + length m + sum_columns m in
  let lv := map (level_size h) (components (ldProof proof))
            ++ [1 + sum_lengths (remainder (ldProof proof))] in
  sizeOf proof h
  = Ok (mkSize (1 + sum_lengths (values proof))
               (h + matrix (nodes (evProof proof)) + 1)
               (h + matrix (nodes (lcProof proof)) + 1)
               (mkLdSize lv (1 + list_sum lv))
               (1 + sum_lengths (values proof)
                + (h + matrix (nodes (evProof proof)) + 1)
                + (h + matrix (nodes (lcProof proof)) + 1)
                + (1 + list_sum lv))).
Proof.
  intros (E1 & E2) (L1 & L2) Hc Hr. cbv zeta. unfold sizeOf. cbv zeta.
  rewrite (sizeOfMatrix_ok _ E1 E2). cbn [bind].
  rewrite (sizeOfMatrix_ok _ L1 L2). cbn [bind].
  rewrite (add_levels_ok h _ 1 [] Hc). cbn [bind app].
  rewrite (sizeOfArray_ok _ Hr). cbn [bind].
  rewrite add_lengths_sum, list_sum_app.
  assert (L : forall x, list_sum [x] = x) by (intros x; simpl; lia).
  rewrite L. repeat (f_equal; try lia).
Qed.

Lemma sizeOf_accepted_inv proof h sz :
  sizeOf proof h = Ok sz ->
  matrix_sizable (nodes (evProof proof))
  /\ matrix_sizable (nodes (lcProof proof))
  /\ Forall (fun c => merkle_sizable (columnProof c) /\ merkle_sizable (polyProof c))
            (components (ldProof proof))
  /\ 1 <= length (remainder (ldProof proof)) <= 256.
Proof.
  unfold sizeOf. cbv zeta. intros H.
  destruct (sizeOfMatrix (nodes (evProof proof))) as [m1|e] eqn:E1; [|discriminate].
  cbn [bind] in H.
  destruct (sizeOfMatrix (nodes (lcProof proof))) as [m2|e] eqn:E2; [|discriminate].
  cbn [bind] in H.
  destruct (add_levels 1 [] h (components (ldProof proof)))
    as [[ldSize ldLevels]|e] eqn:E3; [|discriminate].
  cbn [bind] in H.
  destruct (sizeOfArray (remainder (ldProof proof))) as [r|e] eqn:E4; [|discriminate].
  apply sizeOfMatrix_ok_inv in E1 as (A1 & A2 & _).
  apply sizeOfMatrix_ok_inv in E2 as (B1 & B2 & _).
  apply add_levels_ok_inv in E3.
  apply sizeOfArray_ok_inv in E4 as (R & _).
  unfold matrix_sizable. repeat split; auto; lia.
Qed.

(** X2: when [sizeOf] returns, the parts it reports are, in closed form: for
    the leaves one byte and their bytes; for each of the two proofs the
    digest, the nodes matrix and one byte; one level per component of the
    low-degree proof and a last level for the remainder; the low-degree total
    is one byte more than the sum of the levels, and the total is the sum of
    the four parts. *)
Theorem sizeOf_closed_form proof hashDigestSize sz :
  sizeOf proof hashDigestSize = Ok sz ->
  let matrix m := 1 + length m + sum_columns m in
  size_evData sz = 1 + sum_lengths (values proof)
  /\ size_evProof sz = hashDigestSize + matrix (nodes (evProof proof)) + 1
  /\ size_lcProof sz = hashDigestSize + matrix (nodes (lcProof proof)) + 1
  /\ levels (size_ldProof sz)
     = map (level_size hashDigestSize) (components (ldProof proof))
       ++ [1 + sum_lengths (remainder (ldProof proof))]
  /\ ld_total (size_ldProof sz) = 1 + list_sum (levels (size_ldProof sz))
  /\ total sz = size_evData sz + size_evProof sz + size_lcProof sz
                + ld_total (size_ldProof sz).
Proof.
  intros H. destruct (sizeOf_accepted_inv _ _ _ H) as (A & B & C & D).
  pose proof (sizeOf_spec proof hashDigestSize A B C D) as S. cbv zeta in S.
  rewrite S in H. injection H as <-. cbv zeta. cbn.
  repeat split; reflexivity.
Qed.

Lemma sizeOf_closed_form_witness :
  let proof := mkStarkProof [[1; 2]; [3; 4]]%Z
                 (mkRooted [1; 2]%Z [[[5; 6]%Z]] 1) (mkRooted [3; 4]%Z [] 0)
                 (mkLdProof [Example.component] [[5; 6]%Z]) in
  exists sz,
    sizeOf proof 2 = Ok sz
    /\ size_evData sz = 5 /\ size_evProof sz = 7 /\ size_lcProof sz = 4
    /\ levels (size_ldProof sz) = [26; 3]
    /\ ld_total (size_ldProof sz) = 30
    /\ total sz = 46.
Proof.
  cbv zeta. eexists. split; [vm_compute; reflexivity|].
  pose proof (sizeOf_closed_form
                (mkStarkProof [[1; 2]; [3; 4]]%Z
                   (mkRooted [1; 2]%Z [[[5; 6]%Z]] 1) (mkRooted [3; 4]%Z [] 0)
                   (mkLdProof [Example.component] [[5; 6]%Z]))
                2 _ eq_refl) as H.
  cbv zeta in H. exact H.
Defined.

(** X3: [sizeOf] returns a size exactly when the two nodes matrices are
    accepted by [sizeOfMatrix], every component's two Merkle proofs by
    [sizeOfMerkleProof], and the remainder has 1 to 256 entries.  The list of
    leaves [proof.values] and the roots are not examined: no number of
    leaves, none or more than 256, makes it throw. *)
Theorem sizeOf_accepts proof hashDigestSize :
  (exists sz, sizeOf proof hashDigestSize = Ok sz) <->
  (matrix_sizable (nodes (evProof proof))
   /\ matrix_sizable (nodes (lcProof proof))
   /\ Forall (fun c => merkle_sizable (columnProof c) /\ merkle_sizable (polyProof c))
             (components (ldProof proof))
   /\ 1 <= length (remainder (ldProof proof)) <= 256).
Proof.
  split.
  - intros (sz & H). exact (sizeOf_accepted_inv _ _ _ H).
  - intros (A & B & C & D). eexists. exact (sizeOf_spec proof hashDigestSize A B C D).
Qed.

End ProofSizeFacts.

(** ** CompositionPolynomial.js: the combination degree *)

Module CombinationFacts.
Import Degrees CompositionPolynomial DegreeFacts PartitionFacts AdjustSpec Accessors.

Lemma max_degree_loop_ge1 cs : (1 <= max_degree_loop 1 cs)%Z.
Proof. exact (proj1 (max_degree_loop_bounds 1 cs)). Qed.

(** The exponent of the combination degree is the least one whose power of
    two covers every declared degree. *)
Lemma combination_exponent constraints :
  let k := Z.log2_up (max_degree_loop 1 constraints) in
  (0 <= k)%Z
  /\ Forall (fun c => (Constraint.degree c <= 2 ^ k)%Z) constraints
  /\ (k = 0%Z \/ Exists (fun c => (2 ^ (k - 1) < Constraint.degree c)%Z) constraints).
Proof.
  cbv zeta. set (r := max_degree_loop 1 constraints).
  destruct (max_degree_loop_bounds 1 constraints) as (H1 & H2 & H3). fold r in H1, H2, H3.
  split; [apply Z.log2_up_nonneg|]. split.
  - eapply Forall_impl; [|exact H2]. cbv beta. intros c Hc.
    pose proof (pow_log2_up_ge constraints 0%Z r H1). lia.
  - destruct H3 as [H3 | H3].
    + left. rewrite H3. reflexivity.
    + destruct (Z.eq_dec r 1) as [E | E]; [left; rewrite E; reflexivity|].
      right. eapply Exists_impl; [|exact H3]. cbv beta. intros c Hc. rewrite Hc.
      pose proof (Z.log2_up_spec r ltac:(lia)) as S.
      replace (Z.log2_up r - 1)%Z with (Z.pred (Z.log2_up r)) by lia. lia.
Qed.

(** With declared degrees of at most 16 the exponent is at most 4. *)
Lemma combination_exponent_le4 constraints :
  Forall (fun c => (Constraint.degree c <= 16)%Z) constraints ->
  (Z.log2_up (max_degree_loop 1 constraints) <= 4)%Z.
Proof.
  intros Hb.
  destruct (max_degree_loop_bounds 1 constraints) as (H1 & _ & H3). cbv zeta in *.
  apply Z.log2_up_le_pow2; [lia|].
  change (2 ^ 4)%Z with 16%Z.
  destruct H3 as [-> | H3]; [lia|].
  apply Exists_exists in H3 as (c & Hin & <-).
  rewrite Forall_forall in Hb. exact (Hb c Hin).
Qed.

(** X4: for declared degrees of at most 16 (the degrees of the specification,
    for which the logarithm of the code is exact) the combination degree is
    the trace length times a power of two 2^k with k <= 4, the least power of
    two that is at least every declared degree: every declared degree is at
    most 2^k, and unless k = 0 some declared degree exceeds 2^(k-1).  With no
    constraint or with no declared degree above 1 it is the trace length
    itself. *)
Theorem combination_degree_power (constraints : list Constraint.t) (T : Z) :
  (Forall (fun c => (Constraint.degree c <= 16)%Z) constraints ->
   exists k, (0 <= k <= 4)%Z
     /\ getCombinationDegree constraints T = (2 ^ k * T)%Z
     /\ Forall (fun c => (Constraint.degree c <= 2 ^ k)%Z) constraints
     /\ (k = 0%Z \/ Exists (fun c => (2 ^ (k - 1) < Constraint.degree c)%Z) constraints))
  /\ (Forall (fun c => (Constraint.degree c <= 1)%Z) constraints ->
      getCombinationDegree constraints T = T).
Proof.
  split.
  - intros Hb. exists (Z.log2_up (max_degree_loop 1 constraints)).
    destruct (combination_exponent constraints) as (A & B & C).
    pose proof (combination_exponent_le4 constraints Hb).
    repeat split; assumption.
  - intros H. unfold getCombinationDegree. cbv zeta.
    destruct (max_degree_loop_bounds 1 constraints) as (H1 & H2 & H3).
    assert (E : max_degree_loop 1 constraints = 1%Z).
    { destruct H3 as [H3 | H3]; [exact H3|].
      apply Exists_exists in H3 as (c & Hin & Hc).
      rewrite Forall_forall in H. specialize (H c Hin). lia. }
    rewrite E. change (Z.log2_up 1) with 0%Z. lia.
Qed.

Lemma combination_degree_power_witness :
  (exists k, (0 <= k <= 4)%Z
     /\ getCombinationDegree [Constraint.mk 3; Constraint.mk 5] 64 = (2 ^ k * 64)%Z
     /\ Forall (fun c => (Constraint.degree c <= 2 ^ k)%Z) [Constraint.mk 3; Constraint.mk 5]
     /\ (k = 0%Z
         \/ Exists (fun c => (2 ^ (k - 1) < Constraint.degree c)%Z)
              [Constraint.mk 3; Constraint.mk 5]))
  /\ getCombinationDegree [Constraint.mk 1; Constraint.mk 0; Constraint.mk (-3)] 64 = 64%Z.
Proof.
  split.
  - apply (proj1 (combination_degree_power [Constraint.mk 3; Constraint.mk 5] 64)).
    repeat constructor; simpl; lia.
  - apply (proj2 (combination_degree_power
                    [Constraint.mk 1; Constraint.mk 0; Constraint.mk (-3)] 64)).
    repeat constructor; simpl; lia.
Defined.

Section Constructor.
Variable field : FiniteField.
Variable newBoundaryConstraints :
  list (Assertion.t field) -> Context.t field -> BoundaryConstraints.t field.
Variable constraints : list Constraint.t.
Variable assertions : list (Assertion.t field).
Variable seed : Buffer.
Variable context : Context.t field.

Let T := Context.traceLength context.
Let this := constructor field newBoundaryConstraints constraints assertions seed context.

Lemma boundary_adjusted :
  (0 < T)%Z ->
  (T < compositionDegree this)%Z <-> Exists (fun c => (2 < Constraint.degree c)%Z) constraints.
Proof.
  intros HT. unfold this, constructor. cbv zeta. cbn [compositionDegree].
  fold T. unfold getCombinationDegree. cbv zeta.
  destruct (combination_exponent constraints) as (K0 & KF & KE).
  set (k := Z.log2_up (max_degree_loop 1 constraints)) in *.
  assert (P : (0 < 2 ^ k)%Z) by (apply Z.pow_pos_nonneg; lia).
  split.
  - intros H.
    assert (H2 : (2 < 2 ^ k)%Z) by nia.
    destruct KE as [-> | KE]; [simpl in H2; lia|].
    eapply Exists_impl; [|exact KE]. cbv beta. intros c Hc.
    assert (k <> 1)%Z by (intros ->; simpl in H2; lia).
    assert (k <> 0)%Z by (intros ->; simpl in H2; lia).
    assert (2 ^ 1 <= 2 ^ (k - 1))%Z by (apply Z.pow_le_mono_r; lia).
    simpl in *. lia.
  - intros H. apply Exists_exists in H as (c & Hin & Hc).
    rewrite Forall_forall in KF. specialize (KF c Hin). nia.
Qed.

End Constructor.

(** X5: for a positive trace length, the composition degree exceeds the trace
    length exactly when some constraint has a declared degree above 2; this
    is the test under which the constructor doubles the number of beta
    coefficients, so with a pseudo-random generator that returns as many
    values as asked for there are twice as many beta coefficients as boundary
    polynomials in that case and as many otherwise. *)
Theorem boundary_coefficients_doubled field newBoundaryConstraints constraints assertions
  seed context :
  (0 < Context.traceLength context)%Z ->
  (forall n, length (prng field seed n) = n) ->
  let this := constructor field newBoundaryConstraints constraints assertions seed context in
  let count := BoundaryConstraints.count (bPoly this) in
  ((Context.traceLength context < compositionDegree this)%Z
    <-> Exists (fun c => (2 < Constraint.degree c)%Z) constraints)
  /\ length (bCoefficients this)
     = if existsb (fun c => (2 <? Constraint.degree c)%Z) constraints
       then 2 * count else count.
Proof.
  intros HT Hprng this count.
  pose proof (boundary_adjusted field newBoundaryConstraints constraints assertions seed
                context HT) as B.
  fold this in B. split; [exact B|].
  assert (E : (Context.traceLength context <? compositionDegree this)%Z
              = existsb (fun c => (2 <? Constraint.degree c)%Z) constraints).
  { apply eq_true_iff_eq. rewrite Z.ltb_lt, B, existsb_exists, Exists_exists.
    split; intros (c & Hin & Hc); exists c; (split; [exact Hin|]);
      [now apply Z.ltb_lt | now apply Z.ltb_lt in Hc]. }
  rewrite <- E.
  unfold this at 1. unfold constructor. cbv zeta. cbn [bCoefficients].
  unfold newVectorFrom. rewrite length_skipn, Hprng.
  unfold bCoefficientCountOf.
  fold (constructor field newBoundaryConstraints constraints assertions seed context).
  fold this.
  change (Z.max (getCombinationDegree constraints (Context.traceLength context)
                 - Context.traceLength context) (Context.traceLength context))
    with (compositionDegree this).
  change (BoundaryConstraints.count (newBoundaryConstraints assertions context)) with count.
  destruct (Context.traceLength context <? compositionDegree this)%Z; lia.
Qed.

Lemma boundary_coefficients_doubled_witness :
  ((2 < compositionDegree F17.cp)%Z
    <-> Exists (fun c => (2 < Constraint.degree c)%Z) F17.constraints)
  /\ length (bCoefficients F17.cp) = 2.
Proof.
  apply (boundary_coefficients_doubled F17.field F17.newBoundaryConstraints
           F17.constraints F17.assertions F17.seed F17.context).
  - simpl. lia.
  - intros n. unfold prng, F17.field, F17.prng. now rewrite length_map, length_seq.
Defined.

End CombinationFacts.

(** ** CompositionPolynomial.js: the order of the constraint groups *)

Module GroupOrderFacts.
Import Degrees GroupFacts PartitionFacts GroupSpec.

Lemma sorted_snoc l i :
  StronglySorted lt l -> Forall (fun j => j < i) l -> StronglySorted lt (l ++ [i]).
Proof.
  induction 1 as [|a l Hs IH Ha]; intros Hi; cbn [app].
  - repeat constructor.
  - inversion Hi; subst. constructor; [now apply IH|].
    apply Forall_app. split; [exact Ha | now repeat constructor].
Qed.

Lemma push_hit m k v i :
  JsMap.get m k = Some v ->
  exists m1 m2, m = m1 ++ (k, v) :: m2 /\ JsMap.push m k i = m1 ++ (k, v ++ [i]) :: m2.
Proof.
  induction m as [|[k0 v0] rest IH]; cbn [JsMap.get JsMap.push]; [discriminate|].
  destruct (k0 =? k)%Z eqn:E.
  - intros H. injection H as ->. apply Z.eqb_eq in E as ->.
    now exists [], rest.
  - intros H. destruct (IH H) as (m1 & m2 & -> & ->).
    now exists ((k0, v0) :: m1), m2.
Qed.

Lemma push_new m k i :
  JsMap.get m k = None -> JsMap.push (JsMap.set_new m k []) k i = m ++ [(k, [i])].
Proof.
  unfold JsMap.set_new.
  induction m as [|[k0 v0] rest IH]; cbn [JsMap.get JsMap.push app].
  - now rewrite Z.eqb_refl.
  - destruct (k0 =? k)%Z; [discriminate|]. intros H. now rewrite (IH H).
Qed.

Lemma ordered_step i m k :
  ordered_below i m ->
  ordered_below (S i)
    (JsMap.push (match JsMap.get m k with
                 | Some _ => m
                 | None => JsMap.set_new m k []
                 end) k i).
Proof.
  intros (HF & HS & HL).
  assert (W : forall kg : Z * list nat,
             snd kg <> [] /\ StronglySorted lt (snd kg) /\ Forall (fun j => j < i) (snd kg) ->
             snd kg <> [] /\ StronglySorted lt (snd kg)
             /\ Forall (fun j => j < S i) (snd kg)).
  { intros kg (A & B & C). refine (conj A (conj B _)).
    eapply Forall_impl; [|exact C]. cbv beta. intros; lia. }
  destruct (JsMap.get m k) as [v|] eqn:G.
  - destruct (push_hit m k v i G) as (m1 & m2 & -> & ->).
    apply Forall_app in HF as (F1 & F2). inversion F2 as [|? ? (A & B & C) F3]; subst.
    cbn [snd] in A, B, C.
    split; [|split].
    + apply Forall_app. split; [eapply Forall_impl; [exact W | exact F1]|].
      constructor; [|eapply Forall_impl; [exact W | exact F3]].
      cbn [snd]. split; [destruct v; discriminate|]. split; [now apply sorted_snoc|].
      apply Forall_app. split; [|repeat constructor].
      eapply Forall_impl; [|exact C]. cbv beta. intros; lia.
    + rewrite map_app in *. cbn [map snd] in *.
      replace (hd 0 (v ++ [i])) with (hd 0 v) by (destruct v; [contradiction | reflexivity]).
      exact HS.
    + rewrite length_app in *. cbn [length] in *. lia.
  - rewrite (push_new m k i G). split; [|split].
    + apply Forall_app. split; [eapply Forall_impl; [exact W | exact HF]|].
      constructor; [|constructor]. cbn [snd].
      split; [discriminate|]. split; [repeat constructor|].
      constructor; [lia | constructor].
    + rewrite map_app. cbn [map snd hd]. apply sorted_snoc; [exact HS|].
      apply Forall_forall. intros h Hh. apply in_map_iff in Hh as (kg & <- & Hin).
      rewrite Forall_forall in HF. destruct (HF kg Hin) as (A & _ & C).
      destruct (snd kg) as [|a l]; [contradiction|]. cbn [hd].
      now inversion C.
    + rewrite length_app. cbn [length]. lia.
Qed.

Lemma group_loop_ordered T cs :
  forall i m, ordered_below i m -> ordered_below (i + length cs) (group_loop cs i T m).
Proof.
  induction cs as [|c rest IH]; intros i m H; cbn [group_loop length].
  - now rewrite Nat.add_0_r.
  - cbv zeta. replace (i + S (length rest)) with (S i + length rest) by lia.
    apply IH. now apply ordered_step.
Qed.

(** X6: in the groups that [groupTransitionConstraints] returns no group is
    empty, the indexes of each group ascend, the groups stand in the order in
    which their first constraints appear in the list, and there are at most as
    many groups as constraints (none for an empty list). *)
Theorem groups_ordered (constraints : list Constraint.t) (T : Z) :
  let groups := groupTransitionConstraints constraints T in
  Forall (fun g => Group.indexes g <> [] /\ StronglySorted lt (Group.indexes g)) groups
  /\ StronglySorted lt (map (fun g => hd 0 (Group.indexes g)) groups)
  /\ length groups <= length constraints.
Proof.
  cbv zeta. unfold groupTransitionConstraints. cbv zeta.
  assert (H0 : ordered_below 0 []) by (repeat split; constructor).
  destruct (group_loop_ordered T constraints 0 [] H0) as (HF & HS & HL).
  cbn [Nat.add] in *. set (m := group_loop constraints 0 T []) in *.
  split; [|split].
  - apply Forall_map. eapply Forall_impl; [|exact HF].
    intros [d idx] (A & B & _). cbn [Group.indexes snd] in *. now split.
  - rewrite map_map.
    replace (map (fun x : Z * list nat =>
                    hd 0 (Group.indexes (let '(degree, indexes) := x in
                                         Group.mk degree indexes))) m)
      with (map (fun kg : Z * list nat => hd 0 (snd kg)) m); [exact HS|].
    apply map_ext. now intros [d idx].
  - now rewrite length_map.
Qed.

Lemma single_key_loop T k cs :
  Forall (fun c => (Constraint.degree c * T)%Z = k) cs ->
  forall i v,
    group_loop cs i T [(k, v)] = [(k, v ++ seq i (length cs))].
Proof.
  induction 1 as [|c rest Hc Hrest IH]; intros i v; cbn [group_loop length seq].
  - now rewrite app_nil_r.
  - cbv zeta. rewrite Hc. cbn [JsMap.get JsMap.push]. rewrite Z.eqb_refl.
    cbn [JsMap.push]. rewrite Z.eqb_refl. rewrite IH, <- app_assoc. reflexivity.
Qed.

Lemma single_key_groups T k c rest :
  Forall (fun c => (Constraint.degree c * T)%Z = k) (c :: rest) ->
  groupTransitionConstraints (c :: rest) T = [Group.mk k (seq 0 (length (c :: rest)))].
Proof.
  intros H. inversion H as [|? ? Hc Hrest]; subst.
  unfold groupTransitionConstraints. cbv zeta. cbn [group_loop].
  cbv zeta. cbn [JsMap.get JsMap.set_new app JsMap.push]. rewrite Z.eqb_refl.
  rewrite (single_key_loop T _ rest Hrest). reflexivity.
Qed.

End GroupOrderFacts.

(** ** CompositionPolynomial.js: coefficients and the vectors they combine *)

Module CoefficientFacts.
Import Degrees CompositionPolynomial Evaluation AdjustSpec Accessors.
Import DegreeFacts PartitionFacts AdjustFacts ScalarFacts TableFacts GroupOrderFacts.
Import CombinationFacts.

Section Constructed.
Variable field : FiniteField.
Variable newBoundaryConstraints :
  list (Assertion.t field) -> Context.t field -> BoundaryConstraints.t field.
Variable constraints : list Constraint.t.
Variable assertions : list (Assertion.t field).
Variable seed : Buffer.
Variable context : Context.t field.

Let T := Context.traceLength context.
Let this := constructor field newBoundaryConstraints constraints assertions seed context.
Let m := length constraints.
Let count := BoundaryConstraints.count (bPoly this).

Lemma constructed_degree : combinationDegree this = getCombinationDegree constraints T.
Proof. reflexivity. Qed.

Lemma constructed_groups : constraintGroups this = groupTransitionConstraints constraints T.
Proof. reflexivity. Qed.

Lemma constructed_stream :
  dCoefficients this ++ bCoefficients this
  = prng field seed
      (count_loop (combinationDegree this) (constraintGroups this) m
       + bCoefficientCountOf count (compositionDegree this) T).
Proof. unfold this, constructor. cbv zeta. cbn. apply firstn_skipn. Qed.

Hypothesis prng_length : forall n, length (prng field seed n) = n.

Lemma dCoefficients_length :
  length (dCoefficients this) = m + below_count constraints T.
Proof.
  unfold this, constructor. cbv zeta. cbn [dCoefficients]. unfold newVectorFrom.
  rewrite length_firstn, prng_length, count_loop_spec, groups_size_below.
  fold m T. lia.
Qed.

Lemma bCoefficients_length :
  length (bCoefficients this)
  = if (T <? compositionDegree this)%Z then 2 * count else count.
Proof.
  unfold count, this, constructor. cbv zeta. cbn [bCoefficients bPoly compositionDegree].
  unfold newVectorFrom. rewrite length_skipn, prng_length.
  unfold bCoefficientCountOf. fold T.
  destruct (T <? Z.max (getCombinationDegree constraints T - T) T)%Z; lia.
Qed.

Lemma adjusted_length x (qValues : list (elt field)) :
  (0 <= T)%Z -> Forall (fun c => (Constraint.degree c <= 16)%Z) constraints ->
  length qValues = m ->
  length (adjusted field (combinationDegree this) x (constraintGroups this) qValues)
  = length (dCoefficients this).
Proof.
  intros HT Hb Hq. unfold adjusted.
  rewrite length_app, adjusted_copies_length, dCoefficients_length, Hq.
  rewrite constructed_degree, constructed_groups.
  now rewrite (groups_size_neq constraints T HT Hb), groups_size_below.
Qed.

Lemma adjusted_boundary_length x (bValues : list (elt field)) :
  length bValues = count ->
  length (adjusted_boundary field (compositionDegree this - T) x count bValues)
  = length (bCoefficients this).
Proof.
  intros Hb. rewrite bCoefficients_length. unfold adjusted_boundary.
  replace (0 <? compositionDegree this - T)%Z with (T <? compositionDegree this)%Z
    by (destruct (T <? compositionDegree this)%Z eqn:E; symmetry;
        [apply Z.ltb_lt; apply Z.ltb_lt in E | apply Z.ltb_ge; apply Z.ltb_ge in E]; lia).
  destruct (T <? compositionDegree this)%Z; [|exact Hb].
  rewrite length_app, length_map, length_seq. lia.
Qed.

End Constructed.

(** X7: the accessor [coefficientCount] is the number of values the
    constructor's one call of the pseudo-random generator returned, split into
    [dCoefficients] followed by [bCoefficients]; when the generator returns
    as many values as asked for, it is one per constraint, one more per
    constraint whose degree times the trace length is below the combination
    degree, and one or two per boundary polynomial. *)
Theorem coefficientCount_drawn field newBoundaryConstraints constraints assertions seed
  context :
  let this := constructor field newBoundaryConstraints constraints assertions seed context in
  let T := Context.traceLength context in
  let count := BoundaryConstraints.count (bPoly this) in
  (exists n, dCoefficients this ++ bCoefficients this = prng field seed n
             /\ coefficientCount this = length (prng field seed n))
  /\ ((forall n, length (prng field seed n) = n) ->
      coefficientCount this
      = length constraints + below_count constraints T
        + if (T <? compositionDegree this)%Z then 2 * count else count).
Proof.
  cbv zeta. split.
  - pose proof (constructed_stream field newBoundaryConstraints constraints assertions
                  seed context) as S.
    eexists. split; [exact S|].
    unfold coefficientCount. rewrite <- length_app. now rewrite S.
  - intros Hprng. unfold coefficientCount.
    now rewrite (dCoefficients_length _ _ _ _ _ _ Hprng),
                (bCoefficients_length _ _ _ _ _ _ Hprng).
Qed.

Lemma coefficientCount_drawn_witness : coefficientCount F17.cp = 2 + 2 + 2 * 1.
Proof.
  apply (proj2 (coefficientCount_drawn F17.field F17.newBoundaryConstraints
                  F17.constraints F17.assertions F17.seed F17.context)).
  intros n. unfold prng, F17.field, F17.prng. now rewrite length_map, length_seq.
Defined.

(** X8: for declared degrees of at most 16 (the degrees of the
    specification, for which the logarithm of the code is exact), when the
    transition evaluator returns one value per constraint and the boundary
    evaluator one value per boundary polynomial, [evaluateAt] returns a value,
    and each of its two inner products pairs every original or adjusted value
    with a coefficient of its own: the adjusted vectors have exactly the
    lengths of [dCoefficients] and [bCoefficients]. *)
Theorem evaluateAt_pairs_coefficients field newBoundaryConstraints constraints assertions
  seed context x pValues nValues hValues :
  let this := constructor field newBoundaryConstraints constraints assertions seed context in
  let T := Context.traceLength context in
  let qValues := Context.evaluateConstraintsAt context x pValues nValues hValues in
  let bValues := BoundaryConstraints.evaluateAt (bPoly this) pValues x in
  (forall n, length (prng field seed n) = n) ->
  (0 <= T)%Z ->
  Forall (fun c => (Constraint.degree c <= 16)%Z) constraints ->
  length qValues = length constraints ->
  length bValues = BoundaryConstraints.count (bPoly this) ->
  length (adjusted field (combinationDegree this) x (constraintGroups this) qValues)
  = length (dCoefficients this)
  /\ length (adjusted_boundary field (compositionDegree this - T) x
               (BoundaryConstraints.count (bPoly this)) bValues)
     = length (bCoefficients this)
  /\ evaluateAt field this x pValues nValues hValues context
     = Ok (compositionAt field this T x qValues bValues).
Proof.
  cbv zeta. intros Hprng HT Hdeg Hq Hb. split; [|split].
  - now apply adjusted_length.
  - now apply adjusted_boundary_length.
  - apply evaluateAt_spec.
    + intros g i Hg Hi. rewrite Hq.
      exact (groups_index_lt constraints (Context.traceLength context) g i Hg Hi).
    + rewrite Hb. lia.
Qed.

Lemma evaluateAt_pairs_coefficients_witness :
  length (adjusted F17.field 8 3%Z (constraintGroups F17.cp)
            (F17.evaluateConstraintsAt 3 (F17.pAt 3) (F17.nAt 3) (F17.hAt 3))) = 4
  /\ length (adjusted_boundary F17.field 4 3%Z 1
               (BoundaryConstraints.evaluateAt (bPoly F17.cp) (F17.pAt 3) 3%Z)) = 2
  /\ evaluateAt F17.field F17.cp 3%Z (F17.pAt 3) (F17.nAt 3) (F17.hAt 3) F17.context
     = Ok 13%Z.
Proof.
  apply (evaluateAt_pairs_coefficients F17.field F17.newBoundaryConstraints
           F17.constraints F17.assertions F17.seed F17.context 3%Z
           (F17.pAt 3) (F17.nAt 3) (F17.hAt 3)).
  - intros n. unfold prng, F17.field, F17.prng. now rewrite length_map, length_seq.
  - simpl. lia.
  - repeat constructor; simpl; lia.
  - reflexivity.
  - reflexivity.
Defined.

End CoefficientFacts.

(** ** CompositionPolynomial.js: constraints of one degree *)

Module UniformFacts.
Import Degrees CompositionPolynomial Evaluation AdjustSpec.
Import DegreeFacts PartitionFacts GroupOrderFacts CoefficientFacts.

Lemma uniform_max_degree constraints j :
  constraints <> [] -> (0 <= j)%Z ->
  Forall (fun c => Constraint.degree c = (2 ^ j)%Z) constraints ->
  max_degree_loop 1 constraints = (2 ^ j)%Z.
Proof.
  intros Hne Hj H.
  destruct (max_degree_loop_bounds 1 constraints) as (H1 & H2 & H3).
  assert (P : (1 <= 2 ^ j)%Z) by (pose proof (Z.pow_pos_nonneg 2 j); lia).
  destruct constraints as [|c rest]; [contradiction|].
  inversion H as [|? ? Hc _]; subst. inversion H2 as [|? ? Hc2 _]; subst.
  destruct H3 as [H3 | H3]; [lia|].
  apply Exists_exists in H3 as (c' & Hin & Hc').
  rewrite Forall_forall in H. rewrite <- Hc'. now apply H.
Qed.

(** X9: when all constraints (at least one) declare the same degree and it is
    a power of two, the combination degree is that degree times the trace
    length, the constructor forms one group holding every index in order,
    the adjustment loop of [evaluateAt] leaves the constraint values as they
    are, and, with a generator that returns as many values as asked for,
    there is exactly one alpha coefficient per constraint. *)
Theorem uniform_degree_unadjusted field newBoundaryConstraints constraints assertions seed
  context j :
  constraints <> [] ->
  (0 <= j)%Z ->
  Forall (fun c => Constraint.degree c = (2 ^ j)%Z) constraints ->
  let this := constructor field newBoundaryConstraints constraints assertions seed context in
  let T := Context.traceLength context in
  combinationDegree this = (2 ^ j * T)%Z
  /\ constraintGroups this = [Group.mk (2 ^ j * T) (seq 0 (length constraints))]
  /\ (forall x qValues,
        adjustAt_groups field (combinationDegree this) x (constraintGroups this) qValues
        = Ok qValues)
  /\ ((forall n, length (prng field seed n) = n) ->
      length (dCoefficients this) = length constraints).
Proof.
  intros Hne Hj H. cbv zeta.
  assert (D : getCombinationDegree constraints (Context.traceLength context)
              = (2 ^ j * Context.traceLength context)%Z).
  { unfold getCombinationDegree. cbv zeta.
    now rewrite (uniform_max_degree constraints j Hne Hj H), Z.log2_up_pow2. }
  assert (G : groupTransitionConstraints constraints (Context.traceLength context)
              = [Group.mk (2 ^ j * Context.traceLength context)
                          (seq 0 (length constraints))]).
  { destruct constraints as [|c rest]; [contradiction|].
    apply single_key_groups. eapply Forall_impl; [|exact H].
    cbv beta. intros c' Hc'. now rewrite Hc'. }
  rewrite constructed_degree, constructed_groups, D, G.
  split; [reflexivity|]. split; [reflexivity|]. split.
  - intros x qValues. cbn [adjustAt_groups Group.degree]. now rewrite Z.eqb_refl.
  - intros Hprng. rewrite (dCoefficients_length _ _ _ _ _ _ Hprng).
    rewrite <- groups_size_below, D, G. unfold groups_size.
    cbn [filter Group.degree]. rewrite Z.ltb_irrefl. cbn. lia.
Qed.

Lemma uniform_degree_unadjusted_witness :
  let this := constructor F17.field F17.newBoundaryConstraints
                [Constraint.mk 2; Constraint.mk 2; Constraint.mk 2]
                F17.assertions F17.seed F17.context in
  combinationDegree this = 4%Z
  /\ constraintGroups this = [Group.mk 4 [0; 1; 2]]
  /\ (forall x qValues,
        adjustAt_groups F17.field (combinationDegree this) x (constraintGroups this) qValues
        = Ok qValues)
  /\ ((forall n, length (prng F17.field F17.seed n) = n) ->
      length (dCoefficients this) = 3).
Proof.
  cbv zeta.
  apply (uniform_degree_unadjusted F17.field F17.newBoundaryConstraints
           [Constraint.mk 2; Constraint.mk 2; Constraint.mk 2]
           F17.assertions F17.seed F17.context 1).
  - discriminate.
  - lia.
  - repeat constructor.
Defined.

End UniformFacts.

(** ** CompositionPolynomial.js: how [evaluateAll] fails and when it returns *)

Module VectorPathFacts.
Import Degrees CompositionPolynomial Evaluation AdjustSpec.
Import PartitionFacts AdjustFacts VectorFacts TableFacts CoefficientFacts.

Section Errors.
Variable field : FiniteField.

Lemma adjustAll_indexes_error powers idxs rows e :
  adjustAll_indexes field powers idxs rows = Throw e -> e = TypeError.
Proof.
  revert rows. induction idxs as [|i rest IH]; intros rows; cbn [adjustAll_indexes].
  - discriminate.
  - destruct (nth_error rows i); [apply IH | intros H; now injection H].
Qed.

Lemma adjustAll_groups_error comb rou n groups rows e :
  adjustAll_groups field comb rou n groups rows = Throw e -> e = TypeError.
Proof.
  revert rows. induction groups as [|g rest IH]; intros rows; cbn [adjustAll_groups].
  - discriminate.
  - destruct (Group.degree g =? comb)%Z; [apply IH|]. cbv zeta.
    destruct (adjustAll_indexes field _ (Group.indexes g) rows) as [rows'|e'] eqn:E;
      cbn [bind].
    + apply IH.
    + intros H. injection H as <-. eapply adjustAll_indexes_error; exact E.
Qed.

Lemma adjustAll_boundary_error powers n i rows e :
  adjustAll_boundary field powers n i rows = Throw e -> e = TypeError.
Proof.
  revert i rows. induction n as [|n IH]; intros i rows; cbn [adjustAll_boundary].
  - discriminate.
  - destruct (nth_error rows i); [apply IH | intros H; now injection H].
Qed.

Lemma compositionFactorOf_error a b e :
  compositionFactorOf a b = Throw e -> e = RangeError.
Proof.
  unfold compositionFactorOf.
  destruct (b =? 0); [intros H; now injection H|].
  destruct (a mod b =? 0); [discriminate | intros H; now injection H].
Qed.

Lemma bcEvaluationsOf_error this pEvaluations context e :
  bcEvaluationsOf field this pEvaluations context = Throw e -> e = TypeError.
Proof.
  unfold bcEvaluationsOf. cbv zeta.
  destruct (0 <? compositionDegree this - Context.traceLength context)%Z.
  - destruct (adjustAll_boundary field _ _ 0 _) as [ba|e'] eqn:E; cbn [bind].
    + discriminate.
    + intros H. injection H as <-. eapply adjustAll_boundary_error; exact E.
  - cbn [bind]. discriminate.
Qed.

End Errors.

(** X10: with a field library and a boundary constraints object that return
    (they are functions here), [evaluateAll] throws a [StarkError] exactly
    when [context.evaluateTracePolynomials] throws, whatever that one threw;
    and when the transition evaluations are there but the size of the
    evaluation domain is not a multiple of the size of the composition domain,
    or the composition domain is empty, it throws a [RangeError]. *)
Theorem evaluateAll_errors field (this : CompositionPolynomial.t field)
  pPolys pEvaluations (context : Context.t field) :
  (threw (Context.evaluateTracePolynomials context pPolys)
   <-> evaluateAll field this pPolys pEvaluations context = Throw StarkError)
  /\ (forall rows,
        Context.evaluateTracePolynomials context pPolys = Ok rows ->
        length (Context.compositionDomain context) = 0
        \/ length (Context.evaluationDomain context)
             mod length (Context.compositionDomain context) <> 0 ->
        evaluateAll field this pPolys pEvaluations context = Throw RangeError).
Proof.
  split; [split|].
  - intros (e & He). unfold evaluateAll, qcEvaluationsOf. now rewrite He.
  - unfold evaluateAll, qcEvaluationsOf. cbv zeta.
    destruct (Context.evaluateTracePolynomials context pPolys) as [rows|e0];
      [|intros _; now exists e0].
    cbn [bind]. intros H. exfalso.
    destruct (compositionFactorOf _ _) as [factor|e1] eqn:E1; cbn [bind] in H.
    + destruct (adjustAll_groups field _ _ _ _ _) as [qa|e2] eqn:E2; cbn [bind] in H.
      * destruct (bcEvaluationsOf field this pEvaluations context) as [bc|e3] eqn:E3;
          cbn [bind] in H; [discriminate|].
        apply bcEvaluationsOf_error in E3. congruence.
      * apply adjustAll_groups_error in E2. congruence.
    + apply compositionFactorOf_error in E1. congruence.
  - intros rows Hrows Hdom. unfold evaluateAll, qcEvaluationsOf. cbv zeta.
    rewrite Hrows. cbn [bind]. unfold compositionFactorOf.
    destruct Hdom as [H0 | Hm].
    + rewrite H0. reflexivity.
    + destruct (length (Context.compositionDomain context) =? 0); [reflexivity|].
      apply Nat.eqb_neq in Hm. now rewrite Hm.
Qed.

Lemma evaluateAll_errors_witness :
  evaluateAll F17.field F17.cp F17.pPolys F17.pEvaluations
    (Context.mk F17.field 2%Z F17.w F17.evaluationDomain (firstn 3 F17.compositionDomain)
       F17.evaluateTracePolynomials F17.evaluateConstraintsAt)
  = Throw RangeError.
Proof.
  apply (proj2 (evaluateAll_errors F17.field F17.cp F17.pPolys F17.pEvaluations
                  (Context.mk F17.field 2%Z F17.w F17.evaluationDomain
                     (firstn 3 F17.compositionDomain)
                     F17.evaluateTracePolynomials F17.evaluateConstraintsAt))
               _ eq_refl).
  right. vm_compute. discriminate.
Defined.

Section Lengths.
Variable field : FiniteField.

Lemma zipWith_length f (a b : Vector field) :
  length (zipWith field f a b) = Nat.min (length a) (length b).
Proof.
  revert b. induction a as [|x a IH]; intros [|y b]; simpl; try reflexivity.
  now rewrite IH.
Qed.

(** A row of [n] values multiplied by a power series of [n] values has [n]
    values: the two vectors of [mulVectorElements] have the same length. *)
Lemma scaled_row_length (rows : list (Vector field)) i base n :
  Forall (fun row => length row = n) rows -> i < length rows ->
  length (nth i rows []) = n
  /\ length (mulVectorElements field (nth i rows []) (getPowerSeries field base n)) = n.
Proof.
  intros Hrows Hi.
  assert (L : length (nth i rows []) = n).
  { rewrite Forall_forall in Hrows. apply Hrows. now apply nth_In. }
  split; [exact L|].
  unfold mulVectorElements. rewrite zipWith_length, getPowerSeries_length, L. lia.
Qed.

Lemma adjusted_rows_rows comb rou n groups (rows : list (Vector field)) :
  Forall (fun row => length row = n) rows ->
  (forall g i, In g groups -> In i (Group.indexes g) -> i < length rows) ->
  Forall (fun row => length row = n) (adjusted_rows field comb rou n groups rows).
Proof.
  intros Hrows. induction groups as [|g groups IH]; intros Hidx;
    cbn [adjusted_rows flat_map]; [constructor|].
  fold (adjusted_rows field comb rou n groups rows).
  apply Forall_app. split.
  - destruct (Group.degree g =? comb)%Z; [constructor|].
    apply Forall_forall. intros row Hin.
    apply in_map_iff in Hin as (i & <- & Hi).
    apply scaled_row_length; [exact Hrows|].
    apply (Hidx g i); [now left | exact Hi].
  - apply IH. intros g' i Hg'. apply Hidx. now right.
Qed.

Lemma boundary_rows_rows base n count (rows : list (Vector field)) :
  Forall (fun row => length row = n) rows -> count <= length rows ->
  Forall (fun row => length row = n)
    (map (fun k => mulVectorElements field (nth k rows []) (getPowerSeries field base n))
         (seq 0 count)).
Proof.
  intros Hrows Hc. apply Forall_forall. intros row Hin.
  apply in_map_iff in Hin as (k & <- & Hk). apply in_seq in Hk.
  apply scaled_row_length; [exact Hrows | lia].
Qed.

Lemma combineManyVectors_length (v : list (Vector field)) k n :
  v <> [] -> Forall (fun row => length row = n) v ->
  length (combineManyVectors field v k) = n.
Proof.
  intros Hne Hrows. destruct v as [|v0 v]; [contradiction|].
  cbn [combineManyVectors]. rewrite length_map, length_seq.
  now inversion Hrows.
Qed.

End Lengths.

(** X11: for declared degrees of at most 16 (the degrees of the
    specification, for which the logarithm of the code is exact), when the
    transition evaluator returns one row per constraint, each over the
    composition domain, the boundary evaluator one row per boundary
    polynomial, each over the evaluation domain, [evalPolyAtRoots] returns one
    value per root, and the size of the evaluation domain is a multiple of the
    size of the (non-empty) composition domain, [evaluateAll] returns one
    value per point of the evaluation domain.  Its two linear combinations
    take exactly as many rows as there are coefficients, the original rows
    followed by the adjusted ones, and every row has the length of its
    domain, so that no vector operation meets operands of different
    lengths. *)
Theorem evaluateAll_pairs_coefficients field newBoundaryConstraints constraints assertions
  seed context pPolys pEvaluations rows :
  let this := constructor field newBoundaryConstraints constraints assertions seed context in
  let T := Context.traceLength context in
  let DE := Context.evaluationDomain context in
  let DC := Context.compositionDomain context in
  let bRows := BoundaryConstraints.evaluateAll (bPoly this) pEvaluations DE in
  (forall n, length (prng field seed n) = n) ->
  (forall poly, length (evalPolyAtRoots field poly DE) = length DE) ->
  (0 <= T)%Z ->
  Forall (fun c => (Constraint.degree c <= 16)%Z) constraints ->
  constraints <> [] ->
  Context.evaluateTracePolynomials context pPolys = Ok rows ->
  length rows = length constraints ->
  Forall (fun row => length row = length DC) rows ->
  0 < BoundaryConstraints.count (bPoly this) ->
  length bRows = BoundaryConstraints.count (bPoly this) ->
  Forall (fun row => length row = length DE) bRows ->
  length DC <> 0 ->
  length DE mod length DC = 0 ->
  exists qa ba values,
    length qa = length (dCoefficients this)
    /\ length ba = length (bCoefficients this)
    /\ Forall (fun row => length row = length DC) qa
    /\ Forall (fun row => length row = length DE) ba
    /\ firstn (length rows) qa = rows
    /\ qcEvaluationsOf field this pPolys context
       = Ok (combineManyVectors field qa (dCoefficients this))
    /\ length (combineManyVectors field qa (dCoefficients this)) = length DC
    /\ bcEvaluationsOf field this pEvaluations context
       = Ok (combineManyVectors field ba (bCoefficients this))
    /\ length (combineManyVectors field ba (bCoefficients this)) = length DE
    /\ evaluateAll field this pPolys pEvaluations context = Ok values
    /\ length values = length DE.
Proof.
  cbv zeta.
  intros Hprng Heval HT Hdeg Hcs Hrows Hlen Hrl Hcount Hb Hbl Hne Hmod.
  assert (Hidx : forall g i,
             In g (groupTransitionConstraints constraints (Context.traceLength context)) ->
             In i (Group.indexes g) -> i < length rows).
  { intros g i Hg Hi. rewrite Hlen.
    exact (groups_index_lt constraints (Context.traceLength context) g i Hg Hi). }
  assert (Hrne : rows <> []).
  { intros ->. destruct constraints; [contradiction | discriminate]. }
  assert (Q : exists qa,
             length qa
             = length (dCoefficients (constructor field newBoundaryConstraints
                                        constraints assertions seed context))
             /\ Forall (fun row => length row = length (Context.compositionDomain context)) qa
             /\ qa <> []
             /\ firstn (length rows) qa = rows
             /\ qcEvaluationsOf field
                  (constructor field newBoundaryConstraints constraints assertions seed
                     context) pPolys context
                = Ok (combineManyVectors field qa
                        (dCoefficients (constructor field newBoundaryConstraints
                                          constraints assertions seed context)))).
  { unfold qcEvaluationsOf. cbv zeta. rewrite Hrows. cbn [bind].
    unfold compositionFactorOf.
    apply Nat.eqb_neq in Hne. rewrite Hne. apply Nat.eqb_eq in Hmod. rewrite Hmod.
    cbn [bind]. unfold matrixRowsToVectors.
    rewrite constructed_degree, constructed_groups.
    pose proof (adjustAll_groups_spec field
                  (getCombinationDegree constraints (Context.traceLength context))
                  (exp field (Context.rootOfUnity context)
                     (Z.of_nat (length (Context.evaluationDomain context)
                                / length (Context.compositionDomain context))))
                  (length (Context.compositionDomain context))
                  (groupTransitionConstraints constraints (Context.traceLength context))
                  rows [] Hidx) as S.
    rewrite app_nil_r in S. cbn [app] in S. rewrite S.
    cbn [bind]. eexists. split; [|split; [|split; [|split; [|reflexivity]]]].
    - rewrite length_app, adjusted_rows_length, Hlen.
      rewrite (dCoefficients_length _ _ _ _ _ _ Hprng).
      now rewrite (groups_size_neq constraints _ HT Hdeg), groups_size_below.
    - apply Forall_app. split; [exact Hrl|].
      now apply adjusted_rows_rows.
    - intros E. apply app_eq_nil in E. now destruct E.
    - now rewrite firstn_app, firstn_all, Nat.sub_diag, firstn_O, app_nil_r. }
  assert (B : exists ba,
             length ba
             = length (bCoefficients (constructor field newBoundaryConstraints
                                        constraints assertions seed context))
             /\ Forall (fun row => length row = length (Context.evaluationDomain context)) ba
             /\ ba <> []
             /\ bcEvaluationsOf field
                  (constructor field newBoundaryConstraints constraints assertions seed
                     context) pEvaluations context
                = Ok (combineManyVectors field ba
                        (bCoefficients (constructor field newBoundaryConstraints
                                          constraints assertions seed context)))).
  { unfold bcEvaluationsOf. cbv zeta. unfold matrixRowsToVectors.
    rewrite (bCoefficients_length _ _ _ _ _ _ Hprng).
    set (this := constructor field newBoundaryConstraints constraints assertions seed
                   context) in *.
    set (T := Context.traceLength context) in *.
    set (count := BoundaryConstraints.count (bPoly this)) in *.
    set (bRows := BoundaryConstraints.evaluateAll (bPoly this) pEvaluations
                    (Context.evaluationDomain context)) in *.
    assert (Hbne : bRows <> []) by (intros E; rewrite E in Hb; simpl in Hb; lia).
    replace (0 <? compositionDegree this - T)%Z with (T <? compositionDegree this)%Z
      by (destruct (T <? compositionDegree this)%Z eqn:E; symmetry;
          [apply Z.ltb_lt; apply Z.ltb_lt in E | apply Z.ltb_ge; apply Z.ltb_ge in E]; lia).
    destruct (T <? compositionDegree this)%Z.
    - pose proof (adjustAll_boundary_spec field
                    (getPowerSeries field
                       (exp field (Context.rootOfUnity context) (compositionDegree this - T))
                       (length (Context.evaluationDomain context)))
                    count 0 bRows []) as S.
      rewrite app_nil_r in S. cbn [app] in S. rewrite S by (rewrite Hb; lia).
      cbn [bind]. eexists. split; [|split; [|split; [|reflexivity]]].
      + rewrite length_app, length_map, length_seq, Hb. lia.
      + apply Forall_app. split; [exact Hbl|].
        apply boundary_rows_rows; [exact Hbl | lia].
      + intros E. apply app_eq_nil in E. now destruct E.
    - cbn [bind]. exists bRows. split; [exact Hb|]. split; [exact Hbl|].
      split; [exact Hbne | reflexivity]. }
  destruct Q as (qa & Q1 & Q2 & Q3 & Q4 & Q5). destruct B as (ba & B1 & B2 & B3 & B4).
  pose proof (combineManyVectors_length field qa
                (dCoefficients (constructor field newBoundaryConstraints constraints
                                  assertions seed context)) _ Q3 Q2) as LQ.
  pose proof (combineManyVectors_length field ba
                (bCoefficients (constructor field newBoundaryConstraints constraints
                                  assertions seed context)) _ B3 B2) as LB.
  exists qa, ba. eexists.
  refine (conj Q1 (conj B1 (conj Q2 (conj B2 (conj Q4 (conj Q5 (conj LQ
            (conj B4 (conj LB _))))))))).
  unfold evaluateAll. rewrite Q5. cbn [bind]. cbv zeta. rewrite B4. cbn [bind].
  split; [reflexivity|].
  unfold addVectorElements, mulVectorElements, divVectorElements.
  rewrite !zipWith_length, Heval, LB.
  cbn [ZeroPolynomial.evaluateAll ZeroPolynomial.numerators ZeroPolynomial.denominators].
  rewrite !length_map. lia.
Qed.

Lemma evaluateAll_pairs_coefficients_witness :
  exists qa ba values,
    length qa = length (dCoefficients F17.cp)
    /\ length ba = length (bCoefficients F17.cp)
    /\ Forall (fun row => length row = length F17.compositionDomain) qa
    /\ Forall (fun row => length row = length F17.evaluationDomain) ba
    /\ firstn 2 qa = map (fun i =>
             map (fun x =>
                    nth i (F17.evaluateConstraintsAt x (F17.pAt x) (F17.nAt x) [])
                        0%Z)
                 F17.compositionDomain) [0; 1]
    /\ qcEvaluationsOf F17.field F17.cp F17.pPolys F17.context
       = Ok (combineManyVectors F17.field qa (dCoefficients F17.cp))
    /\ length (combineManyVectors F17.field qa (dCoefficients F17.cp))
       = length F17.compositionDomain
    /\ bcEvaluationsOf F17.field F17.cp F17.pEvaluations F17.context
       = Ok (combineManyVectors F17.field ba (bCoefficients F17.cp))
    /\ length (combineManyVectors F17.field ba (bCoefficients F17.cp))
       = length F17.evaluationDomain
    /\ evaluateAll F17.field F17.cp F17.pPolys F17.pEvaluations F17.context = Ok values
    /\ length values = length F17.evaluationDomain.
Proof.
  apply (evaluateAll_pairs_coefficients F17.field F17.newBoundaryConstraints
           F17.constraints F17.assertions F17.seed F17.context F17.pPolys
           F17.pEvaluations
           (map (fun i =>
                   map (fun x =>
                          nth i (F17.evaluateConstraintsAt x (F17.pAt x) (F17.nAt x) [])
                              0%Z)
                       F17.compositionDomain) [0; 1])).
  - intros n. unfold prng, F17.field, F17.prng. now rewrite length_map, length_seq.
  - intros poly. cbn [evalPolyAtRoots F17.field]. unfold F17.evalPolyAtRoots.
    now rewrite length_map.
  - simpl. lia.
  - repeat constructor; simpl; lia.
  - discriminate.
  - reflexivity.
  - reflexivity.
  - repeat constructor.
  - simpl. lia.
  - reflexivity.
  - repeat constructor.
  - vm_compute. discriminate.
  - vm_compute. reflexivity.
Defined.

End VectorPathFacts.

(** ** The evaluation serializer: what [parseValues] reads *)

Module LeafReadFacts.
Import Hex LeafSerializer LeafSpec BufferFacts ReaderFacts LeafFacts.
Open Scope Z_scope.

Lemma Forall_firstn_keep {A} (P : A -> Prop) n (l : list A) :
  Forall P l -> Forall P (firstn n l).
Proof.
  intros H. revert n. induction H; intros [|n]; cbn [firstn]; constructor; auto.
Qed.

Lemma Forall_skipn_keep {A} (P : A -> Prop) n (l : list A) :
  Forall P l -> Forall P (skipn n l).
Proof.
  intros H. revert n. induction H; intros [|n]; cbn [skipn]; auto.
Qed.

Lemma window_bytes buf off n : Forall is_byte buf -> Forall is_byte (window buf off n).
Proof. intros H. now apply Forall_firstn_keep, Forall_skipn_keep. Qed.

Lemma window_nonempty buf off n :
  (0 < n)%nat -> (off < length buf)%nat -> window buf off n <> [].
Proof.
  intros Hn Ho E. apply (f_equal (@length Z)) in E.
  unfold window in E. rewrite length_firstn, length_skipn in E. simpl in E. lia.
Qed.

Lemma window_beyond buf off n : (length buf <= off)%nat -> window buf off n = [].
Proof. intros H. unfold window. rewrite skipn_all2 by exact H. now destruct n. Qed.

Lemma window_short buf off n : (length (window buf off n) <= n)%nat.
Proof. unfold window. rewrite length_firstn. lia. Qed.

Lemma toStringHex_window buf off size :
  toStringHex buf off (off + size) = string_of (flat_map byteHex (window buf off size)).
Proof. unfold toStringHex, window. now replace (off + size - off)%nat with size by lia. Qed.

Lemma read_element buf off size :
  Forall is_byte buf -> (0 < size)%nat -> (off < length buf)%nat ->
  bigIntOfHex (toStringHex buf off (off + size)) = Ok (be_value (window buf off size)).
Proof.
  intros Hb Hs Ho. rewrite toStringHex_window.
  apply bigIntOfHex_bytes; [now apply window_nonempty | now apply window_bytes].
Qed.

Lemma read_element_beyond buf off size :
  (length buf <= off)%nat ->
  bigIntOfHex (toStringHex buf off (off + size)) = Throw SyntaxError.
Proof. intros H. now rewrite toStringHex_window, window_beyond. Qed.

Lemma map_seq_succ {A} (f : nat -> A) n :
  map f (seq 0 (S n)) = f 0%nat :: map (fun i => f (S i)) (seq 0 n).
Proof. cbn [seq map]. f_equal. now rewrite <- seq_shift, map_map. Qed.

Lemma parseLoop_ok size buf :
  Forall is_byte buf -> (0 < size)%nat ->
  forall count off,
    (count = 0%nat \/ off + (count - 1) * size < length buf)%nat ->
    parseLoop size buf count off
    = Ok (elements size buf off count, (off + count * size)%nat).
Proof.
  intros Hb Hs. unfold parseLoop, elements.
  induction count as [|n IH]; intros off H.
  - cbn [for_count seq map]. now rewrite Nat.add_0_r.
  - cbn [for_count]. rewrite read_element by (auto; lia). cbn [bind].
    rewrite IH by (destruct n; [now left | right; simpl in *; lia]).
    cbn [bind]. rewrite map_seq_succ. unfold elementAt. cbn [Nat.mul].
    rewrite Nat.add_0_r. f_equal. f_equal; [|lia]. f_equal.
    apply map_ext. intros i. f_equal. f_equal. lia.
Qed.

Lemma parseLoop_throw size buf :
  Forall is_byte buf -> (0 < size)%nat ->
  forall count off,
    (0 < count)%nat -> (length buf <= off + (count - 1) * size)%nat ->
    parseLoop size buf count off = Throw SyntaxError.
Proof.
  intros Hb Hs. unfold parseLoop.
  induction count as [|n IH]; intros off Hc H; [lia|].
  cbn [for_count].
  destruct (Nat.le_gt_cases (length buf) off) as [Hle | Hgt].
  - now rewrite read_element_beyond.
  - rewrite read_element by auto. cbn [bind].
    rewrite IH; [reflexivity | |]; simpl in H; destruct n; simpl in *; lia.
Qed.

Lemma parseLoop_offset size buf count off xs off' :
  parseLoop size buf count off = Ok (xs, off') -> off' = (off + count * size)%nat.
Proof.
  unfold parseLoop. revert off xs off'.
  induction count as [|n IH]; intros off xs off'; cbn [for_count].
  - intros H. injection H as <- <-. lia.
  - destruct (bigIntOfHex _) as [v|e]; [|discriminate]. cbn [bind].
    destruct (for_count n _ (off + size)%nat) as [[ys o]|e] eqn:E; [|discriminate].
    cbn [bind]. intros H. injection H as <- <-. apply IH in E. lia.
Qed.

Lemma be_value_snoc l b : be_value (l ++ [b]) = 256 * be_value l + b.
Proof. unfold be_value. now rewrite fold_left_app. Qed.

Lemma be_value_range l :
  Forall is_byte l -> 0 <= be_value l < 256 ^ Z.of_nat (length l).
Proof.
  induction l as [|b l IH] using rev_ind; intros H.
  - cbn. lia.
  - apply Forall_app in H as (Hl & Hb). inversion Hb as [|? ? Hb' _]; subst.
    specialize (IH Hl). rewrite be_value_snoc, length_app. cbn [length].
    rewrite Nat2Z.inj_add, Z.pow_add_r by lia. change (256 ^ Z.of_nat 1) with 256.
    unfold is_byte in Hb'. nia.
Qed.

Lemma elementAt_range size buf off i :
  Forall is_byte buf -> 0 <= elementAt size buf off i < 256 ^ Z.of_nat size.
Proof.
  intros Hb. unfold elementAt.
  pose proof (be_value_range _ (window_bytes buf (off + i * size) size Hb)) as R.
  pose proof (window_short buf (off + i * size) size) as L.
  assert (256 ^ Z.of_nat (length (window buf (off + i * size) size))
          <= 256 ^ Z.of_nat size) by (apply Z.pow_le_mono_r; lia).
  lia.
Qed.

Lemma elements_range size buf off count :
  Forall is_byte buf ->
  Forall (fun v => 0 <= v < 256 ^ Z.of_nat size) (elements size buf off count).
Proof.
  intros Hb. unfold elements. apply Forall_map, Forall_forall.
  intros i _. now apply elementAt_range.
Qed.

Close Scope Z_scope.

Lemma parseValues_cases (this : Serializer) (buffer : Buffer) :
  let size := fieldElementSize this in
  let count := getValueCount this in
  0 < size ->
  Forall is_byte buffer ->
  ((count = 0 \/ (count - 1) * size < length buffer) ->
   parseValues this buffer
   = Ok (elements size buffer 0 (stateWidth this),
         elements size buffer (stateWidth this * size) (secretInputCount this))
   /\ Forall (fun v => (0 <= v < 256 ^ Z.of_nat size)%Z)
             (elements size buffer 0 (stateWidth this)
              ++ elements size buffer (stateWidth this * size) (secretInputCount this)))
  /\ (0 < count -> length buffer <= (count - 1) * size ->
      parseValues this buffer = Throw SyntaxError).
Proof.
  cbv zeta. unfold getValueCount. intros Hs Hb. split.
  - intros H. split.
    + unfold parseValues. cbv zeta.
      rewrite (parseLoop_ok _ _ Hb Hs)
        by (destruct (stateWidth this); [now left | right; simpl in *; nia]).
      cbn [bind Nat.add].
      rewrite (parseLoop_ok _ _ Hb Hs)
        by (destruct (secretInputCount this);
            [now left | right; simpl in *; destruct H; nia]).
      reflexivity.
    + apply Forall_app. split; now apply elements_range.
  - intros Hc Hl. unfold parseValues. cbv zeta.
    destruct (stateWidth this) as [|sw] eqn:Esw.
    + rewrite (parseLoop_ok _ _ Hb Hs) by now left.
      cbn [bind Nat.add Nat.mul].
      rewrite (parseLoop_throw _ _ Hb Hs); [reflexivity | simpl in *; lia |].
      simpl in *. lia.
    + destruct (Nat.le_gt_cases (length buffer) (sw * fieldElementSize this))
        as [Hle | Hgt].
      * rewrite (parseLoop_throw _ _ Hb Hs); [reflexivity | lia |].
        simpl. rewrite Nat.sub_0_r. exact Hle.
      * rewrite (parseLoop_ok _ _ Hb Hs)
          by (right; simpl; rewrite Nat.sub_0_r; exact Hgt).
        cbn [bind Nat.add].
        destruct (secretInputCount this) as [|sc].
        -- exfalso. simpl in Hl. rewrite Nat.add_0_r, Nat.sub_0_r in Hl. lia.
        -- rewrite (parseLoop_throw _ _ Hb Hs); [reflexivity | lia |].
           simpl in *. rewrite Nat.sub_0_r in *. nia.
Qed.


(** X12: [parseValues] never checks the length of the leaf.  On a buffer of
    bytes, with a positive element size, it returns values whenever the last
    element has at least one byte to read, that is whenever the buffer is
    longer than (count - 1) * elementSize for the count of values: each value
    is the number spelled by the bytes found in its slot, fewer than
    elementSize for a last slot cut short, and lies in [0, 256^elementSize).
    On a shorter buffer it throws a [SyntaxError]. *)
Theorem parseValues_outcome (this : Serializer) (buffer : Buffer) :
  let size := fieldElementSize this in
  let count := getValueCount this in
  0 < size ->
  Forall is_byte buffer ->
  ((count = 0 \/ (count - 1) * size < length buffer) ->
   parseValues this buffer
   = Ok (elements size buffer 0 (stateWidth this),
         elements size buffer (stateWidth this * size) (secretInputCount this))
   /\ Forall (fun v => (0 <= v < 256 ^ Z.of_nat size)%Z)
             (elements size buffer 0 (stateWidth this)
              ++ elements size buffer (stateWidth this * size) (secretInputCount this)))
  /\ (0 < count -> length buffer <= (count - 1) * size ->
      parseValues this buffer = Throw SyntaxError).
Proof. exact (parseValues_cases this buffer). Qed.

Lemma parseValues_outcome_witness :
  parseValues (mkSerializer 2 2 1) [1; 2; 255; 255; 18]%Z
  = Ok (elements 2 [1; 2; 255; 255; 18]%Z 0 2, elements 2 [1; 2; 255; 255; 18]%Z 4 1)
  /\ Forall (fun v => (0 <= v < 256 ^ Z.of_nat 2)%Z)
            (elements 2 [1; 2; 255; 255; 18]%Z 0 2
             ++ elements 2 [1; 2; 255; 255; 18]%Z 4 1).
Proof.
  apply (proj1 (parseValues_outcome (mkSerializer 2 2 1) [1; 2; 255; 255; 18]%Z
                  ltac:(simpl; lia)
                  ltac:(repeat constructor; unfold is_byte; lia))).
  right. simpl. lia.
Defined.

End LeafReadFacts.

(** ** The evaluation serializer: trailing bytes, missing values, values that
    do not fit *)

Module LeafEdgeFacts.
Import Hex LeafSerializer LeafSpec BufferFacts ReaderFacts LeafFacts LeafReadFacts.

Lemma window_firstn n buf off size :
  off + size <= n -> window (firstn n buf) off size = window buf off size.
Proof.
  intros H. unfold window.
  rewrite skipn_firstn_comm, firstn_firstn.
  now replace (Nat.min size (n - off)) with size by lia.
Qed.

Lemma parseLoop_ext size b1 b2 :
  forall count off,
    (forall i, i < count ->
               window b1 (off + i * size) size = window b2 (off + i * size) size) ->
    parseLoop size b1 count off = parseLoop size b2 count off.
Proof.
  unfold parseLoop. induction count as [|n IH]; intros off H; cbn [for_count].
  - reflexivity.
  - rewrite !toStringHex_window.
    pose proof (H 0 ltac:(lia)) as H0. cbn [Nat.mul] in H0. rewrite Nat.add_0_r in H0.
    rewrite H0. destruct (bigIntOfHex _) as [v|e]; [|reflexivity]. cbn [bind].
    rewrite (IH (off + size)); [reflexivity|].
    intros i Hi. specialize (H (S i) ltac:(lia)).
    replace (off + size + i * size) with (off + S i * size) by lia. exact H.
Qed.

(** X13: [parseValues] reads the first count * elementSize bytes of the
    buffer and nothing else: it returns on the whole buffer exactly what it
    returns on that prefix, so bytes that follow a leaf are ignored and never
    reported. *)
Theorem parseValues_prefix (this : Serializer) (buffer : Buffer) :
  parseValues this buffer
  = parseValues this (firstn (getValueCount this * fieldElementSize this) buffer).
Proof.
  unfold parseValues, getValueCount. cbv zeta.
  set (size := fieldElementSize this). set (sw := stateWidth this).
  set (sc := secretInputCount this).
  rewrite (parseLoop_ext size buffer (firstn ((sw + sc) * size) buffer) sw 0)
    by (intros i Hi; symmetry; apply window_firstn; nia).
  destruct (parseLoop size (firstn ((sw + sc) * size) buffer) sw 0)
    as [[pValues offset]|e] eqn:E; [|reflexivity].
  cbn [bind]. apply parseLoop_offset in E. subst offset.
  rewrite (parseLoop_ext size buffer (firstn ((sw + sc) * size) buffer) sc (0 + sw * size))
    by (intros i Hi; symmetry; apply window_firstn; nia).
  reflexivity.
Qed.

Lemma indexOf_lt c cs i : indexOf c cs = Some i -> i < length cs.
Proof.
  revert i. induction cs as [|c' rest IH]; intros i; cbn [indexOf length].
  - discriminate.
  - destruct (Ascii.eqb c c').
    + intros H. injection H as <-. lia.
    + destruct (indexOf c rest) as [j|]; [|discriminate].
      cbn [option_map]. intros H. injection H as <-. specialize (IH j eq_refl). lia.
Qed.

Lemma hexVal_range c h : hexVal c = Some h -> (0 <= h < 16)%Z.
Proof.
  unfold hexVal. destruct (indexOf c hexChars) as [i|] eqn:E.
  - intros H. injection H as <-. apply indexOf_lt in E. cbn [hexChars length] in E. lia.
  - destruct (indexOf c upperChars) as [i|] eqn:E'; [|discriminate].
    cbn [option_map]. intros H. injection H as <-.
    apply indexOf_lt in E'. cbn [upperChars length] in E'. lia.
Qed.

Lemma hexDecode_outcome s max :
  length (hexDecode s max) <= max /\ Forall is_byte (hexDecode s max).
Proof.
  revert s. induction max as [|n IH]; intros s.
  - destruct s; cbn [hexDecode]; (split; [simpl; lia | constructor]).
  - destruct s as [|c1 [|c2 rest]]; cbn [hexDecode];
      try (split; [simpl; lia | constructor]).
    destruct (hexVal c1) as [h|] eqn:E1; [|split; [simpl; lia | constructor]].
    destruct (hexVal c2) as [l|] eqn:E2; [|split; [simpl; lia | constructor]].
    destruct (IH rest) as (L & B). split; [simpl; lia|].
    constructor; [|exact B].
    apply hexVal_range in E1, E2. unfold is_byte. lia.
Qed.

Lemma splice_bytes buf off d :
  Forall is_byte buf -> Forall is_byte d -> Forall is_byte (splice buf off d).
Proof.
  intros Hb Hd. unfold splice. apply Forall_app. split; [now apply Forall_firstn_keep|].
  apply Forall_app. split; [exact Hd | now apply Forall_skipn_keep].
Qed.

Lemma write_outcome buf s off len :
  off <= length buf ->
  exists bytes,
    Hex.write buf s off len = Ok (splice buf off bytes, length bytes)
    /\ off + length bytes <= length buf
    /\ Forall is_byte bytes.
Proof.
  intros H. unfold Hex.write.
  replace (length buf <? off) with false by (symmetry; apply Nat.ltb_ge; lia).
  destruct (hexDecode_outcome s (Nat.min len (length buf - off))) as (L & B).
  eexists. split; [reflexivity|]. split; [lia | exact B].
Qed.

Lemma mergeLoop_outcome size pad values position :
  forall n register buf off,
    off <= length buf ->
    match columnAt values position n register with
    | Some _ =>
        exists buf' off',
          mergeLoop size pad values position n register buf off = Ok (buf', off')
          /\ length buf' = length buf
          /\ off' <= length buf'
          /\ (Forall is_byte buf -> Forall is_byte buf')
    | None =>
        mergeLoop size pad values position n register buf off = Throw TypeError
    end.
Proof.
  induction n as [|n IH]; intros register buf off Ho; cbn [columnAt mergeLoop].
  - exists buf, off. repeat split; auto.
  - unfold valueAt.
    destruct (nth_error values register) as [row|]; [|reflexivity].
    destruct (nth_error row position) as [v|]; [|reflexivity].
    cbn [bind]. cbv zeta.
    destruct (write_outcome buf (padStart (toString16 v) pad "0"%char) off size Ho)
      as (bytes & W & L & B).
    rewrite W. cbn [bind].
    assert (Lb : length (splice buf off bytes) = length buf) by now apply splice_length.
    specialize (IH (S register) (splice buf off bytes) (off + length bytes)
                   ltac:(rewrite Lb; exact L)).
    destruct (columnAt values position n (S register)) as [rest|].
    + destruct IH as (buf' & off' & M & L' & O' & B').
      exists buf', off'. repeat split; auto; [congruence|].
      intros Hb. apply B'. now apply splice_bytes.
    + exact IH.
Qed.

Lemma mergeValues_cases (this : Serializer) (junk : nat -> Z)
  (pValues sValues : list (list Z)) (position : nat) :
  (forall pcol scol,
      columnAt pValues position (stateWidth this) 0 = Some pcol ->
      columnAt sValues position (secretInputCount this) 0 = Some scol ->
      exists buffer,
        mergeValues this junk pValues sValues position = Ok buffer
        /\ length buffer = getValueCount this * fieldElementSize this
        /\ ((forall i, is_byte (junk i)) -> Forall is_byte buffer))
  /\ (columnAt pValues position (stateWidth this) 0 = None
      \/ columnAt sValues position (secretInputCount this) 0 = None ->
      mergeValues this junk pValues sValues position = Throw TypeError).
Proof.
  set (size := fieldElementSize this).
  set (buf0 := allocUnsafe junk (getValueCount this * size)).
  pose proof (mergeLoop_outcome size (size * 2) pValues position (stateWidth this) 0 buf0 0
                ltac:(lia)) as P.
  split.
  - intros pcol scol Hp Hsec. rewrite Hp in P.
    destruct P as (buf1 & off1 & M1 & L1 & O1 & B1).
    pose proof (mergeLoop_outcome size (size * 2) sValues position (secretInputCount this)
                  0 buf1 off1 O1) as S.
    rewrite Hsec in S. destruct S as (buf2 & off2 & M2 & L2 & O2 & B2).
    exists buf2. unfold mergeValues. cbv zeta. fold size buf0.
    rewrite M1. cbn [bind]. rewrite M2. cbn [bind].
    split; [reflexivity|]. split.
    + rewrite L2, L1. unfold buf0. now rewrite allocUnsafe_length.
    + intros Hj. apply B2, B1. unfold buf0, allocUnsafe.
      apply Forall_map, Forall_forall. intros i _. apply Hj.
  - intros H. unfold mergeValues. cbv zeta. fold size buf0.
    destruct (columnAt pValues position (stateWidth this) 0) as [pcol|].
    + destruct H as [H | H]; [discriminate|].
      destruct P as (buf1 & off1 & M1 & L1 & O1 & B1).
      pose proof (mergeLoop_outcome size (size * 2) sValues position
                    (secretInputCount this) 0 buf1 off1 O1) as S.
      rewrite H in S. rewrite M1. cbn [bind]. now rewrite S.
    + now rewrite P.
Qed.


(** X14: [mergeValues] fails only for want of a value: when every mutable
    and every secret register has a value at the position, it returns a
    buffer of exactly valueCount * elementSize bytes, whatever the values
    (negative or too large for the element size included), and the buffer
    holds bytes if the allocated memory did; when some register has none, it
    throws a [TypeError]. *)
Theorem mergeValues_outcome (this : Serializer) (junk : nat -> Z)
  (pValues sValues : list (list Z)) (position : nat) :
  (forall pcol scol,
      columnAt pValues position (stateWidth this) 0 = Some pcol ->
      columnAt sValues position (secretInputCount this) 0 = Some scol ->
      exists buffer,
        mergeValues this junk pValues sValues position = Ok buffer
        /\ length buffer = getValueCount this * fieldElementSize this
        /\ ((forall i, is_byte (junk i)) -> Forall is_byte buffer))
  /\ (columnAt pValues position (stateWidth this) 0 = None
      \/ columnAt sValues position (secretInputCount this) 0 = None ->
      mergeValues this junk pValues sValues position = Throw TypeError).
Proof. exact (mergeValues_cases this junk pValues sValues position). Qed.

Lemma mergeValues_outcome_witness :
  (exists buffer,
      mergeValues (mkSerializer 1 2 0) Example.junk0 [[-5]; [74565]]%Z [] 0 = Ok buffer
      /\ length buffer = 2
      /\ ((forall i, is_byte (Example.junk0 i)) -> Forall is_byte buffer))
  /\ mergeValues (mkSerializer 1 2 0) Example.junk0 [[-5]; []]%Z [] 0 = Throw TypeError.
Proof.
  split.
  - apply (proj1 (mergeValues_outcome (mkSerializer 1 2 0) Example.junk0
                    [[-5]; [74565]]%Z [] 0) [-5; 74565]%Z []); reflexivity.
  - apply (proj2 (mergeValues_outcome (mkSerializer 1 2 0) Example.junk0
                    [[-5]; []]%Z [] 0)).
    left. reflexivity.
Defined.

Section InRange.
Variable this : Serializer.
Let size := fieldElementSize this.
Hypothesis size_positive : 0 < size.

Lemma mergeValues_leaf junk pValues sValues position pcol scol :
  columnAt pValues position (stateWidth this) 0 = Some pcol ->
  columnAt sValues position (secretInputCount this) 0 = Some scol ->
  Forall (fun v => (0 <= v < 256 ^ Z.of_nat size)%Z) (pcol ++ scol) ->
  mergeValues this junk pValues sValues position = Ok (leaf size (pcol ++ scol)).
Proof.
  intros Hp Hsec Hr. apply Forall_app in Hr as [Hrp Hrs].
  pose proof (columnAt_length _ _ _ _ _ Hp) as Lp.
  pose proof (columnAt_length _ _ _ _ _ Hsec) as Ls.
  assert (Hleaf : leaf size (pcol ++ scol) = leaf size pcol ++ leaf size scol)
    by apply flat_map_app.
  unfold mergeValues. fold size.
  set (buf0 := allocUnsafe junk (getValueCount this * size)).
  assert (L0 : length buf0 = length (leaf size pcol) + length (leaf size scol)).
  { unfold buf0, getValueCount. rewrite allocUnsafe_length, !leaf_length, Lp, Ls. lia. }
  rewrite (writes_mergeLoop size pValues position size_positive _ _ _ Hp Hrp buf0 0) by lia.
  cbn [bind Nat.add].
  rewrite (writes_mergeLoop size sValues position size_positive _ _ _ Hsec Hrs)
    by (rewrite splice_length; simpl; lia).
  cbn [bind].
  change (length (leaf size pcol)) with (0 + length (leaf size pcol)).
  rewrite splice_splice by (simpl; lia).
  rewrite splice_all by (rewrite length_app; lia).
  now rewrite Hleaf.
Qed.

Lemma parseValues_leaf pcol scol :
  length pcol = stateWidth this ->
  length scol = secretInputCount this ->
  Forall (fun v => (0 <= v < 256 ^ Z.of_nat size)%Z) (pcol ++ scol) ->
  parseValues this (leaf size (pcol ++ scol)) = Ok (pcol, scol).
Proof.
  intros Lp Ls Hr. apply Forall_app in Hr as [Hrp Hrs].
  assert (Hleaf : leaf size (pcol ++ scol) = leaf size pcol ++ leaf size scol)
    by apply flat_map_app.
  unfold parseValues. fold size. rewrite Hleaf.
  pose proof (reads_parseLoop size pcol size_positive Hrp
                (leaf size pcol ++ leaf size scol) 0) as R1.
  rewrite Lp in R1. cbv beta in R1. rewrite R1.
  - cbn [bind Nat.add].
    pose proof (reads_parseLoop size scol size_positive Hrs
                  (leaf size pcol ++ leaf size scol) (length (leaf size pcol))) as R2.
    rewrite Ls in R2. cbv beta in R2. rewrite R2.
    + reflexivity.
    + rewrite length_app. lia.
    + pose proof (window_mid (leaf size pcol) (leaf size scol) []) as W.
      now rewrite app_nil_r in W.
  - rewrite length_app. simpl. lia.
  - pose proof (window_mid [] (leaf size pcol) (leaf size scol)) as W. exact W.
Qed.

End InRange.

(** X15: the leaf determines the values: two calls of [mergeValues] with
    values that fit the element size, for any registers, positions and
    allocated memory, return the same leaf only if the mutable values and the
    secret values at the two positions are the same. *)
Theorem mergeValues_injective (this : Serializer) junk junk' pValues sValues position
  pValues' sValues' position' pcol scol pcol' scol' :
  0 < fieldElementSize this ->
  columnAt pValues position (stateWidth this) 0 = Some pcol ->
  columnAt sValues position (secretInputCount this) 0 = Some scol ->
  columnAt pValues' position' (stateWidth this) 0 = Some pcol' ->
  columnAt sValues' position' (secretInputCount this) 0 = Some scol' ->
  Forall (fun v => (0 <= v < 256 ^ Z.of_nat (fieldElementSize this))%Z)
         ((pcol ++ scol) ++ (pcol' ++ scol')) ->
  mergeValues this junk pValues sValues position
  = mergeValues this junk' pValues' sValues' position' ->
  pcol = pcol' /\ scol = scol'.
Proof.
  intros Hs Hp Hsec Hp' Hsec' Hr E. apply Forall_app in Hr as (R & R').
  rewrite (mergeValues_leaf this Hs junk _ _ _ _ _ Hp Hsec R) in E.
  rewrite (mergeValues_leaf this Hs junk' _ _ _ _ _ Hp' Hsec' R') in E.
  injection E as E.
  pose proof (parseValues_leaf this Hs pcol scol
                (columnAt_length _ _ _ _ _ Hp) (columnAt_length _ _ _ _ _ Hsec) R) as P.
  pose proof (parseValues_leaf this Hs pcol' scol'
                (columnAt_length _ _ _ _ _ Hp') (columnAt_length _ _ _ _ _ Hsec') R') as P'.
  rewrite E in P. rewrite P in P'. injection P' as -> ->. now split.
Qed.

Lemma mergeValues_injective_witness :
  [258; 65535]%Z = [258; 65535]%Z /\ [4660]%Z = [4660]%Z.
Proof.
  apply (mergeValues_injective (mkSerializer 2 2 1) Example.junk0 Example.junk1
           [[1; 258]; [2; 65535]]%Z [[3; 4660]]%Z 1
           [[258]; [65535; 0]]%Z [[4660; 7; 7]]%Z 0
           [258; 65535]%Z [4660]%Z [258; 65535]%Z [4660]%Z).
  - simpl. lia.
  - reflexivity.
  - reflexivity.
  - reflexivity.
  - reflexivity.
  - repeat constructor; simpl; lia.
  - reflexivity.
Defined.

(** X16: values that do not fit the element size are not rejected and not
    recovered: when some value at the position is negative or at least
    256^elementSize, [mergeValues] still returns a leaf, [parseValues] reads
    that leaf without an error, and what it returns differs from the values
    that were merged. *)
Theorem out_of_range_not_recovered (this : Serializer) junk pValues sValues position
  pcol scol :
  0 < fieldElementSize this ->
  (forall i, is_byte (junk i)) ->
  columnAt pValues position (stateWidth this) 0 = Some pcol ->
  columnAt sValues position (secretInputCount this) 0 = Some scol ->
  Exists (out_of_range (fieldElementSize this)) (pcol ++ scol) ->
  exists buffer pValues' sValues',
    mergeValues this junk pValues sValues position = Ok buffer
    /\ parseValues this buffer = Ok (pValues', sValues')
    /\ (pValues', sValues') <> (pcol, scol).
Proof.
  intros Hs Hj Hp Hsec Hx.
  destruct (proj1 (mergeValues_cases this junk pValues sValues position) pcol scol Hp Hsec)
    as (buffer & M & L & B).
  specialize (B Hj).
  pose proof (columnAt_length _ _ _ _ _ Hp) as Lp.
  pose proof (columnAt_length _ _ _ _ _ Hsec) as Ls.
  assert (Hc : 0 < getValueCount this).
  { unfold getValueCount. rewrite <- Lp, <- Ls, <- length_app.
    apply Exists_exists in Hx as (v & Hin & _). destruct (pcol ++ scol); [contradiction|].
    simpl. lia. }
  destruct (proj1 (parseValues_cases this buffer Hs B)) as (P & R).
  { right. rewrite L. nia. }
  eexists buffer, _, _. split; [exact M|]. split; [exact P|].
  intros E. injection E as E1 E2. rewrite E1, E2 in R.
  apply Exists_exists in Hx as (v & Hin & Hv).
  rewrite Forall_forall in R. specialize (R v Hin). unfold out_of_range in Hv. lia.
Qed.

Lemma out_of_range_not_recovered_witness :
  exists buffer pValues' sValues',
    mergeValues (mkSerializer 1 2 0) Example.junk0 [[-5]; [74565]]%Z [] 0 = Ok buffer
    /\ parseValues (mkSerializer 1 2 0) buffer = Ok (pValues', sValues')
    /\ (pValues', sValues') <> ([-5; 74565]%Z, []).
Proof.
  apply (out_of_range_not_recovered (mkSerializer 1 2 0) Example.junk0
           [[-5]; [74565]]%Z [] 0 [-5; 74565]%Z []).
  - simpl. lia.
  - intros i. unfold is_byte, Example.junk0. lia.
  - reflexivity.
  - reflexivity.
  - apply Exists_cons_hd. left. lia.
Defined.

End LeafEdgeFacts.

(** ** Serializer.js: trailing bytes, uninitialised memory, one-byte counts *)

Module SerializerEdgeFacts.
Import Sizeof Utils Wire BufferFacts SizeofFacts WriterFacts SizeFacts Serializer.
Import SerializeFacts ReaderFacts ParseFacts.

(** The wire format of a proof followed by any bytes parses back to the
    proof. *)
Lemma parseProof_ok_trailing this junk p extra :
  sized this p -> sizable p -> fits p ->
  1 <= length (remainder (ldProof p)) ->
  parseProof this junk (enc_proof (fieldElementSize this) p ++ extra) = Ok p.
Proof.
  intros Hz Hs Hf Hne.
  pose proof Hz as (Z1 & Z2 & Z3 & Z4 & Z5 & Z6).
  pose proof Hs as (S1 & S2 & S3 & S4).
  pose proof Hf as (F1 & F2 & F3 & F4 & F5 & F6).
  unfold parseProof.
  remember (enc_proof (fieldElementSize this) p ++ extra) as B eqn:EB.
  unfold enc_proof, enc_head in EB.
  set (d1 := evRoot p) in *.
  set (d2 := enc_merkle (evProof p)) in *.
  set (d3 := lcRoot (ldProof p)) in *.
  set (d4 := enc_merkle (lcProof (ldProof p))) in *.
  set (d5 := Z.of_nat (length (components (ldProof p)))) in *.
  set (d6 := flat_map enc_component (components (ldProof p))) in *.
  set (d7 := enc_remainder (fieldElementSize this) (remainder (ldProof p))) in *.
  set (d8 := enc_shape (traceShape p)) in *.
  set (hds := hashDigestSize this) in *.
  assert (E1 : B = [] ++ d1 ++ (d2 ++ d3 ++ d4 ++ d5 :: d6 ++ d7 ++ d8 ++ extra))
    by (subst B; repeat (rewrite <- app_assoc || cbn [app]); reflexivity).
  assert (E2 : B = d1 ++ d2 ++ (d3 ++ d4 ++ d5 :: d6 ++ d7 ++ d8 ++ extra))
    by (subst B; repeat (rewrite <- app_assoc || cbn [app]); reflexivity).
  assert (E3 : B = (d1 ++ d2) ++ d3 ++ (d4 ++ d5 :: d6 ++ d7 ++ d8 ++ extra))
    by (subst B; repeat (rewrite <- app_assoc || cbn [app]); reflexivity).
  assert (E4 : B = (d1 ++ d2 ++ d3) ++ d4 ++ (d5 :: d6 ++ d7 ++ d8 ++ extra))
    by (subst B; repeat (rewrite <- app_assoc || cbn [app]); reflexivity).
  assert (E5 : B = (d1 ++ d2 ++ d3 ++ d4) ++ d5 :: (d6 ++ d7 ++ d8 ++ extra))
    by (subst B; repeat (rewrite <- app_assoc || cbn [app]); reflexivity).
  assert (E6 : B = (d1 ++ d2 ++ d3 ++ d4 ++ [d5]) ++ d6 ++ (d7 ++ d8 ++ extra))
    by (subst B; repeat (rewrite <- app_assoc || cbn [app]); reflexivity).
  assert (E7 : B = (d1 ++ d2 ++ d3 ++ d4 ++ [d5] ++ d6) ++ d7 ++ d8 ++ extra)
    by (subst B; repeat (rewrite <- app_assoc || cbn [app]); reflexivity).
  assert (E8 : B = (d1 ++ d2 ++ d3 ++ d4 ++ [d5] ++ d6 ++ d7) ++ d8 ++ extra)
    by (subst B; repeat (rewrite <- app_assoc || cbn [app]); reflexivity).
  clear EB.
  assert (L2 : hds = length d1) by lia.
  assert (L3 : hds + length d2 = length (d1 ++ d2))
    by (repeat (rewrite length_app || cbn [length]); lia).
  assert (L4 : hds + length d2 + hds = length (d1 ++ d2 ++ d3))
    by (repeat (rewrite length_app || cbn [length]); lia).
  assert (L5 : hds + length d2 + hds + length d4 = length (d1 ++ d2 ++ d3 ++ d4))
    by (repeat (rewrite length_app || cbn [length]); lia).
  assert (L6 : hds + length d2 + hds + length d4 + 1
               = length (d1 ++ d2 ++ d3 ++ d4 ++ [d5]))
    by (repeat (rewrite length_app || cbn [length]); lia).
  assert (L7 : hds + length d2 + hds + length d4 + 1 + length d6
               = length (d1 ++ d2 ++ d3 ++ d4 ++ [d5] ++ d6))
    by (repeat (rewrite length_app || cbn [length]); lia).
  assert (L8 : hds + length d2 + hds + length d4 + 1 + length d6 + length d7
               = length (d1 ++ d2 ++ d3 ++ d4 ++ [d5] ++ d6 ++ d7))
    by (repeat (rewrite length_app || cbn [length]); lia).
  (* root *)
  pose proof (copy_from junk B [] d1 _ 0 hds E1 eq_refl Z1) as X.
  cbn [Nat.add] in X. rewrite X. cbn [bind]. clear X.
  (* evProof *)
  pose proof (reads_from _ _ _ B d1 _ hds E2 L2
                (reads_readMerkleProof junk _ hds _ S1 F1 Z2)) as X.
  cbv beta in X. rewrite X. cbn [bind]. clear X.
  (* ldProof *)
  rewrite (copy_from junk B (d1 ++ d2) d3 _ (hds + length d2) hds E3 L3 Z3).
  cbn [bind].
  pose proof (reads_from _ _ _ B (d1 ++ d2 ++ d3) _ _ E4 L4
                (reads_readMerkleProof junk _ hds _ S2 F2 Z4)) as X.
  cbv beta in X. rewrite X. cbn [bind]. clear X.
  rewrite (readUInt8_from B (d1 ++ d2 ++ d3 ++ d4) d5 _ _ E5 L5).
  cbn [bind]. unfold d5 at 1. rewrite Nat2Z.id.
  pose proof (reads_from _ _ _ B (d1 ++ d2 ++ d3 ++ d4 ++ [d5]) _ _ E6 L6
                (reads_components this junk _ S3 F4 Z5)) as X.
  cbv beta in X. fold d6 in X. rewrite X. cbn [bind]. clear X.
  (* remainder *)
  pose proof (reads_from _ _ _ B (d1 ++ d2 ++ d3 ++ d4 ++ [d5] ++ d6) _ _ E7 L7
                (reads_readRemainder this _ (conj Hne S4) Z6)) as X.
  fold d7 in X. rewrite X. cbn [bind]. clear X.
  (* trace shape *)
  pose proof (reads_from _ _ _ B (d1 ++ d2 ++ d3 ++ d4 ++ [d5] ++ d6 ++ d7) _ _ E8 L8
                (reads_readTraceShape _ F5 F6)) as X.
  fold d8 in X. rewrite X. cbn [bind]. clear X.
  subst d1 d3. destruct p as [r e [lr lp cs rm] ts]. reflexivity.
Qed.


(** X17: [parseProof] does not look at what follows the trace shape: the
    bytes that [serializeProof] returned for a proof of the configuration
    with a remainder of at least one element, followed by any further bytes,
    parse to the same proof without an error. *)
Theorem parseProof_ignores_trailing this junk junk' p buf extra :
  sized this p ->
  1 <= length (remainder (ldProof p)) ->
  serializeProof this junk p = Ok buf ->
  parseProof this junk' (buf ++ extra) = Ok p.
Proof.
  intros Hz Hne H.
  destruct (serializeProof_ok_inv _ _ _ _ H) as (_ & Hs & Hf).
  rewrite (serializeProof_ok this junk p (sized_roots _ _ Hz) Hs Hf) in H.
  injection H as <-. now apply parseProof_ok_trailing.
Qed.

Lemma parseProof_ignores_trailing_witness :
  parseProof Example.serializer Example.junk1 (Example.bytes ++ [9; 9; 9]%Z)
  = Ok Example.proof.
Proof.
  apply (parseProof_ignores_trailing Example.serializer Example.junk0 Example.junk1
           Example.proof Example.bytes [9; 9; 9]%Z).
  - unfold sized, sized_merkle, sized_component; simpl.
    repeat split; repeat constructor; simpl; lia.
  - simpl. lia.
  - vm_compute. reflexivity.
Defined.

Lemma serialized_bytes this junk p buf :
  roots_sized (hashDigestSize this) p ->
  serializeProof this junk p = Ok buf ->
  sizable p /\ fits p /\ buf = enc_proof (fieldElementSize this) p.
Proof.
  intros Hr H.
  destruct (serializeProof_ok_inv _ _ _ _ H) as (_ & Hs & Hf).
  rewrite (serializeProof_ok this junk p Hr Hs Hf) in H.
  injection H as <-. auto.
Qed.

(** X18: two proofs of the configuration, each with a remainder of at least
    one element, that serialize to the same bytes are the same proof. *)
Theorem serializeProof_injective this junk junk' p p' buf :
  sized this p -> sized this p' ->
  1 <= length (remainder (ldProof p)) ->
  1 <= length (remainder (ldProof p')) ->
  serializeProof this junk p = Ok buf ->
  serializeProof this junk' p' = Ok buf ->
  p = p'.
Proof.
  intros Hz Hz' Hne Hne' H H'.
  destruct (serialized_bytes _ _ _ _ (sized_roots _ _ Hz) H) as (Hs & Hf & E).
  destruct (serialized_bytes _ _ _ _ (sized_roots _ _ Hz') H') as (Hs' & Hf' & E').
  pose proof (parseProof_ok this junk p Hz Hs Hf Hne) as P.
  pose proof (parseProof_ok this junk p' Hz' Hs' Hf' Hne') as P'.
  rewrite <- E in P. rewrite <- E' in P'. rewrite P in P'. now injection P'.
Qed.

Lemma serializeProof_injective_witness : Example.proof = Example.proof.
Proof.
  apply (serializeProof_injective Example.serializer Example.junk0 Example.junk2
           Example.proof Example.proof Example.bytes).
  - unfold sized, sized_merkle, sized_component; simpl.
    repeat split; repeat constructor; simpl; lia.
  - unfold sized, sized_merkle, sized_component; simpl.
    repeat split; repeat constructor; simpl; lia.
  - simpl. lia.
  - simpl. lia.
  - vm_compute. reflexivity.
  - vm_compute. reflexivity.
Defined.

(** X19: when the three roots of a proof have the digest size of the
    configuration, no byte of the buffer that [serializeProof] returns is
    left as [Buffer.allocUnsafe] handed it out: the same proof serializes to
    the same bytes whatever the allocated memory held. *)
Theorem serializeProof_overwrites_allocation this junk junk' p buf :
  roots_sized (hashDigestSize this) p ->
  serializeProof this junk p = Ok buf ->
  serializeProof this junk' p = Ok buf.
Proof.
  intros Hr H.
  destruct (serialized_bytes _ _ _ _ Hr H) as (Hs & Hf & ->).
  now apply serializeProof_ok.
Qed.

Lemma serializeProof_overwrites_allocation_witness :
  serializeProof Example.serializer Example.junk1 Example.proof = Ok Example.bytes.
Proof.
  apply (serializeProof_overwrites_allocation Example.serializer Example.junk0
           Example.junk1 Example.proof Example.bytes).
  - unfold roots_sized; simpl. repeat split; repeat constructor.
  - vm_compute. reflexivity.
Defined.

(** X20: the counts that [serializeProof] writes with [writeUInt8] and the
    levels it writes with [writeUInt32LE] are not reduced to fit: a proof
    with more than 255 components in its low-degree proof, with more than 255
    levels in its trace shape, or with a level below 0 or above 2^32 - 1, is
    not serialized; [serializeProof] throws. *)
Theorem serializeProof_count_limits this junk p :
  255 < length (components (ldProof p))
  \/ 255 < length (traceShape p)
  \/ Exists (fun level => (level < 0 \/ 4294967295 < level)%Z) (traceShape p) ->
  threw (serializeProof this junk p).
Proof.
  intros H.
  destruct (serializeProof this junk p) as [buf|e] eqn:E; [exfalso | now exists e].
  destruct (serializeProof_ok_inv _ _ _ _ E) as (_ & _ & (_ & _ & F3 & _ & F5 & F6)).
  destruct H as [H | [H | H]]; [lia | lia |].
  apply Exists_exists in H as (level & Hin & Hl).
  rewrite Forall_forall in F6. specialize (F6 level Hin). lia.
Qed.

Lemma serializeProof_count_limits_witness :
  threw (serializeProof Example.serializer Example.junk0
           (mkStarkProof [1; 2]%Z Example.evMerkle
              (mkLdProof [7; 8]%Z Example.ldMerkle [] [258; 3]%Z)
              [1; 4294967296]%Z)).
Proof.
  apply (serializeProof_count_limits Example.serializer Example.junk0).
  right. right. apply Exists_cons_tl, Exists_cons_hd. simpl. lia.
Defined.

(** X21: the trace shape block.  For at most 255 levels, each in
    [0, 2^32 - 1], and a buffer with room for them at the offset,
    [writeTraceShape] writes one count byte and four bytes per level, keeps
    the length of the buffer and the bytes before the offset, and
    [readTraceShape] at the same offset reads the same levels back and stops
    at the same offset; with more levels or a level out of range the writer
    throws. *)
Theorem traceShape_block (traceShape : list Z) (buf : Buffer) (off : nat) :
  (length traceShape <= 255 ->
   Forall (fun level => (0 <= level <= 4294967295)%Z) traceShape ->
   off + 1 + 4 * length traceShape <= length buf ->
   exists buf',
     writeTraceShape traceShape buf off = Ok (buf', off + 1 + 4 * length traceShape)
     /\ length buf' = length buf
     /\ firstn off buf' = firstn off buf
     /\ readTraceShape buf' off = Ok (traceShape, off + 1 + 4 * length traceShape))
  /\ (255 < length traceShape
      \/ Exists (fun level => (level < 0 \/ 4294967295 < level)%Z) traceShape ->
      threw (writeTraceShape traceShape buf off)).
Proof.
  split.
  - intros Hl Hr Ho.
    pose proof (enc_shape_length traceShape) as L.
    pose proof (writes_writeTraceShape traceShape Hl Hr buf off ltac:(lia)) as W.
    rewrite L in W. replace (off + (1 + 4 * length traceShape))
      with (off + 1 + 4 * length traceShape) in W by lia.
    exists (splice buf off (enc_shape traceShape)). split; [exact W|].
    split; [apply splice_length; lia|]. split.
    + unfold splice. rewrite firstn_app, firstn_firstn, length_firstn.
      replace (Nat.min off off) with off by lia.
      replace (off - Nat.min off (length buf)) with 0 by lia.
      now rewrite firstn_O, app_nil_r.
    + pose proof (reads_from readTraceShape (enc_shape traceShape) traceShape
                    (splice buf off (enc_shape traceShape)) (firstn off buf)
                    (skipn (off + length (enc_shape traceShape)) buf) off
                    eq_refl ltac:(rewrite length_firstn; lia)
                    (reads_readTraceShape traceShape Hl Hr)) as R.
      rewrite L in R. rewrite R. f_equal. f_equal. lia.
  - intros H.
    destruct (writeTraceShape traceShape buf off) as [r|e] eqn:E; [exfalso | now exists e].
    destruct (writeTraceShape_ok_inv _ _ _ _ E) as (Hl & Hr).
    destruct H as [H | H]; [lia|].
    apply Exists_exists in H as (level & Hin & Hlv).
    rewrite Forall_forall in Hr. specialize (Hr level Hin). lia.
Qed.

Lemma traceShape_block_witness :
  exists buf',
    writeTraceShape [1; 70000]%Z (repeat 0%Z 12) 2 = Ok (buf', 2 + 1 + 4 * 2)
    /\ length buf' = 12
    /\ firstn 2 buf' = [0; 0]%Z
    /\ readTraceShape buf' 2 = Ok ([1; 70000]%Z, 2 + 1 + 4 * 2).
Proof.
  apply (proj1 (traceShape_block [1; 70000]%Z (repeat 0%Z 12) 2)).
  - simpl. lia.
  - repeat constructor; lia.
  - simpl. lia.
Defined.

End SerializerEdgeFacts.

(** ** sizeof.ts: which column [sizeOfMatrix] rejects *)

Module MatrixSizeFacts.
Import Sizeof SizeofFacts.

Lemma add_columns_first_long pre column post :
  forall size,
    Forall (fun c => length c <= 126) pre ->
    127 <= length column ->
    add_columns size (pre ++ column :: post) = Throw (MatrixColumnTooLong (length column)).
Proof.
  induction pre as [|c pre IH]; intros size Hpre Hc; cbn [app add_columns]; cbv zeta.
  - replace (MAX_MATRIX_COLUMN_LENGTH <=? length column) with true
      by (symmetry; apply Nat.leb_le; unfold MAX_MATRIX_COLUMN_LENGTH; lia).
    reflexivity.
  - inversion Hpre as [|? ? H1 H2]; subst.
    replace (MAX_MATRIX_COLUMN_LENGTH <=? length c) with false
      by (symmetry; apply Nat.leb_gt; unfold MAX_MATRIX_COLUMN_LENGTH; lia).
    now apply IH.
Qed.

(** X22: [sizeOfMatrix] rejects a column from 127 entries on, and reports
    the first such column: for a matrix of at most 256 columns whose columns
    before some column have at most 126 entries each, while that column has
    127 or more, the error thrown is the one for a column of that length; a
    matrix of more than 256 columns is rejected for its column count before
    any column is looked at. *)
Theorem sizeOfMatrix_first_long_column (pre : list (list Buffer)) (column : list Buffer)
  (post : list (list Buffer)) :
  Forall (fun c => length c <= 126) pre ->
  127 <= length column ->
  sizeOfMatrix (pre ++ column :: post)
  = if 256 <? length (pre ++ column :: post)
    then Throw (MatrixTooManyColumns (length (pre ++ column :: post)))
    else Throw (MatrixColumnTooLong (length column)).
Proof.
  intros Hpre Hc. unfold sizeOfMatrix, MAX_ARRAY_LENGTH.
  destruct (256 <? length (pre ++ column :: post)); [reflexivity|].
  now apply add_columns_first_long.
Qed.

Lemma sizeOfMatrix_first_long_column_witness :
  sizeOfMatrix ([[[1; 2]%Z]] ++ repeat [] 127 :: [repeat [] 200])
  = Throw (MatrixColumnTooLong 127).
Proof.
  pose proof (sizeOfMatrix_first_long_column [[[1; 2]%Z]] (repeat [] 127) [repeat [] 200]
                ltac:(repeat constructor; simpl; lia)
                ltac:(rewrite repeat_length; lia)) as H.
  rewrite repeat_length in H. exact H.
Defined.

End MatrixSizeFacts.

(** ** Serializer.js: roots shorter than the digest size *)

Module ShortRootFacts.
Import Sizeof Utils Wire BufferFacts SizeofFacts WriterFacts SizeFacts Serializer.
Import SerializeFacts RootSpec.

Lemma splice_front buf d :
  length d <= length buf -> splice buf 0 d = d ++ skipn (length d) buf.
Proof. intros _. unfold splice. reflexivity. Qed.

Lemma skipn_alloc (junk : nat -> Z) k n :
  skipn k (map junk (seq 0 (k + n))) = map junk (seq k n).
Proof.
  rewrite seq_app, map_app, skipn_app, length_map, length_seq, Nat.sub_diag.
  rewrite skipn_all2 by (rewrite length_map, length_seq; lia).
  reflexivity.
Qed.

Lemma enc_components_deficit hds cs :
  Forall (fun c => length (columnRoot c) <= hds) cs ->
  length (flat_map enc_component cs)
  + list_sum (map (fun c => hds - length (columnRoot c)) cs)
  = components_size hds cs.
Proof.
  induction 1 as [|c rest Hc Hrest IH]; [reflexivity|].
  cbn [flat_map map list_sum fold_right components_size]. fold (components_size hds rest).
  unfold list_sum in *. unfold enc_component at 1.
  repeat rewrite length_app. lia.
Qed.

Lemma enc_proof_deficit fes hds p :
  roots_within hds p ->
  length (enc_proof fes p) + roots_deficit hds p = wire_size fes hds p.
Proof.
  intros (R1 & R2 & R3). unfold enc_proof, enc_head, roots_deficit, wire_size.
  pose proof (enc_components_deficit hds _ R3) as C.
  repeat (rewrite length_app || cbn [length]).
  rewrite enc_remainder_length, enc_shape_length. lia.
Qed.

(** With roots no longer than the digest size, the writes fill the front of
    the allocated buffer and leave its last bytes as they were allocated. *)
Lemma serializeProof_short_roots this junk p :
  roots_within (hashDigestSize this) p -> sizable p -> fits p ->
  serializeProof this junk p
  = Ok (enc_proof (fieldElementSize this) p
        ++ map junk (seq (length (enc_proof (fieldElementSize this) p))
                         (roots_deficit (hashDigestSize this) p))).
Proof.
  intros (R1 & R2 & R3) Hs Hf.
  pose proof Hs as (S1 & S2 & S3 & S4).
  destruct Hf as (F1 & F2 & F3 & F4 & F5 & F6).
  unfold serializeProof.
  destruct (sizeOf_ok p (fieldElementSize this) (hashDigestSize this) Hs) as (sz & E & Ht).
  rewrite E. cbn [bind].
  set (buf0 := allocUnsafe junk (total sz)).
  assert (Hlen : length buf0 = length (enc_proof (fieldElementSize this) p)
                              + roots_deficit (hashDigestSize this) p).
  { unfold buf0. rewrite allocUnsafe_length, Ht. symmetry.
    now apply enc_proof_deficit. }
  assert (Htail : skipn (length (enc_proof (fieldElementSize this) p)) buf0
                  = map junk (seq (length (enc_proof (fieldElementSize this) p))
                                  (roots_deficit (hashDigestSize this) p))).
  { unfold buf0, allocUnsafe. rewrite Ht, <- (enc_proof_deficit _ _ _ (conj R1 (conj R2 R3))).
    apply skipn_alloc. }
  rewrite <- Htail. clear Htail.
  unfold enc_proof, enc_head in *.
  set (d1 := evRoot p) in *.
  set (d2 := enc_merkle (evProof p)) in *.
  set (d3 := lcRoot (ldProof p)) in *.
  set (d4 := enc_merkle (lcProof (ldProof p))) in *.
  set (d5 := Z.of_nat (length (components (ldProof p)))) in *.
  set (d6 := flat_map enc_component (components (ldProof p))) in *.
  set (d7 := enc_remainder (fieldElementSize this) (remainder (ldProof p))) in *.
  set (d8 := enc_shape (traceShape p)) in *.
  repeat (rewrite length_app in Hlen || cbn [length] in Hlen).
  rewrite copyTo_run by (simpl; lia). cbn [bind].
  pose proof (writes_step _ _ buf0 d1 (writes_merkle (evProof p)
                (getValueCount this * fieldElementSize this) S1 F1)) as W2.
  cbv beta in W2. fold d2 in W2. rewrite W2 by lia. cbn [bind]. clear W2.
  rewrite copyTo_step by (repeat (rewrite length_app || cbn [length]); lia). cbn [bind].
  rewrite <- length_app.
  pose proof (writes_step _ _ buf0 ((d1 ++ d2) ++ d3) (writes_merkle (lcProof (ldProof p))
                (fieldElementSize this * 4) S2 F2)) as W4.
  cbv beta in W4. fold d4 in W4.
  rewrite W4 by (repeat (rewrite length_app || cbn [length]); lia). cbn [bind]. clear W4.
  assert (Hd5 : (0 <= d5 <= 255)%Z) by (unfold d5; lia).
  pose proof (writes_step _ _ buf0 (((d1 ++ d2) ++ d3) ++ d4)
                (writes_writeUInt8 d5 Hd5)) as W5.
  cbv beta in W5. rewrite W5 by (repeat (rewrite length_app || cbn [length]); lia). cbn [bind]. clear W5.
  pose proof (writes_step _ _ buf0 ((((d1 ++ d2) ++ d3) ++ d4) ++ [d5])
                (writes_components (fieldElementSize this * 4) _ S3 F4)) as W6.
  fold d6 in W6. rewrite W6 by (repeat (rewrite length_app || cbn [length]); lia). cbn [bind]. clear W6.
  pose proof (writes_step _ _ buf0 (((((d1 ++ d2) ++ d3) ++ d4) ++ [d5]) ++ d6)
                (writes_writeRemainder this (remainder (ldProof p)) S4)) as W7.
  fold d7 in W7. rewrite W7 by (repeat (rewrite length_app || cbn [length]); lia). cbn [bind]. clear W7.
  pose proof (writes_step _ _ buf0 ((((((d1 ++ d2) ++ d3) ++ d4) ++ [d5]) ++ d6) ++ d7)
                (writes_writeTraceShape (traceShape p) F5 F6)) as W8.
  fold d8 in W8. rewrite W8 by (repeat (rewrite length_app || cbn [length]); lia). cbn [bind]. clear W8.
  rewrite splice_front by (repeat (rewrite length_app || cbn [length]); lia).
  repeat rewrite <- app_assoc. reflexivity.
Qed.


(** X23: [serializeProof] sizes every root as [hashDigestSize] bytes and
    copies the root it is given without looking at its length.  For an
    accepted proof whose roots are no longer than the digest size, the buffer
    it returns is the wire format of the proof followed by as many bytes of
    the memory that [Buffer.allocUnsafe] handed out as the roots fall short
    in all: uninitialised memory ends up in the serialized proof as soon as
    one root is short. *)
Theorem short_roots_leave_allocated_bytes this junk p :
  roots_within (hashDigestSize this) p ->
  sizable p ->
  fits p ->
  let wire := enc_proof (fieldElementSize this) p in
  serializeProof this junk p
  = Ok (wire ++ map junk (seq (length wire) (roots_deficit (hashDigestSize this) p)))
  /\ length wire + roots_deficit (hashDigestSize this) p
     = wire_size (fieldElementSize this) (hashDigestSize this) p.
Proof.
  intros Hr Hs Hf. cbv zeta. split.
  - now apply serializeProof_short_roots.
  - now apply enc_proof_deficit.
Qed.

Lemma short_roots_leave_allocated_bytes_witness :
  serializeProof Example.serializer Example.junk1 Example.proof_short_root
  = Ok ((1%Z :: skipn 2 Example.bytes) ++ [64%Z]).
Proof.
  apply (proj1 (short_roots_leave_allocated_bytes Example.serializer Example.junk1
                  Example.proof_short_root
                  ltac:(unfold roots_within; simpl;
                        repeat split; repeat constructor; simpl; lia)
                  ltac:(unfold sizable, sizable_merkle; simpl;
                        repeat split; repeat constructor; simpl; lia)
                  ltac:(unfold fits, fits_merkle; simpl;
                        repeat split; repeat constructor; simpl; lia))).
Defined.

End ShortRootFacts.
